(** * Agent builder: schema validation, tool execution and orchestration

    A shallow embedding of the execution engine of the agent-builder
    library:
    - [utils/openApiSpec.ts]: [normalizeToOpenAPISchema], [validateProperty],
      [validateAgainstOpenAPISchema], [validateAgainstSchema];
    - [implementations/agent.ts], class [Agent]: [callTool], [callTools] and
      the two extraction helpers;
    - [implementations/agent.ts], class [Orchestrator]: [execute] with
      [generatePlan], [executeStep], [findNextExecutableStep] and the
      replanning merge.

    Conventions.
    - JavaScript values are the inductive [JValue]. A plain object
      ([Record<string, unknown>]) is the finite map [gmap string JValue] of
      its own enumerable properties, so two records are equal when they have
      the same keys and values; its prototype is [Object.prototype], whose
      members a read [data[key]] and a test [key in data] see as well.
      [JObjectPrototype] is that object and [JFunction] a function it holds.
      The records that reach the engine (arguments of a call, data returned
      by the gateway) are plain objects, and the schema of a tool has no
      property named [__proto__] ([plainSchema]), so the records that the
      engine builds are plain objects too.
    - Numbers are the integers that a double holds. Below [2^53] every
      integer is one; beyond, arithmetic rounds as IEEE 754 does
      ([toDouble]). Fractions, [NaN] and the infinities are not represented.
    - A string is a sequence of bytes, the UTF-8 encoding of the JavaScript
      string; [length] counts UTF-16 code units ([utf16Length]).
    - The properties of a schema are kept as an association list, in the
      order in which [Object.entries] visits them.
    - [async] code is sequential here: a computation is a function from the
      world to an outcome and a new world. The world carries the state of the
      collaborators (language-model gateway, tools) and a trace that records
      every gateway request, every tool invocation and every sleep.
    - Logging (console output in verbose mode) is left out, except where
      building the message can throw: a call of [JSON.stringify]. *)

From stdpp Require Import gmap strings list fin_maps pretty.

Set Warnings "-register-all".

(** ** JavaScript values *)

Inductive JValue : Type :=
  | JUndefined
  | JNull
  | JBool (b : bool)
  | JNum (n : Z)
  | JStr (s : string)
  | JArr (l : list JValue)
  | JObj (m : gmap string JValue)
  | JFunction (name : string)
  | JObjectPrototype.

(** [Record<string, unknown>] *)
Abbreviation JRecord := (gmap string JValue).

(** [value === undefined || value === null] *)
Definition isNullish (v : JValue) : bool :=
  match v with
  | JUndefined | JNull => true
  | _ => false
  end.

(** [a ?? b] on an optional field holding a value. *)
Definition nullish_or (a : option JValue) (b : JValue) : JValue :=
  match a with
  | Some v => if isNullish v then b else v
  | None => b
  end.

(** [a || b] on an optional string: the empty string is falsy. *)
Definition str_or (a : option string) (b : string) : string :=
  match a with
  | Some s => if String.eqb s "" then b else s
  | None => b
  end.

(** The names of the functions that [Object.prototype] holds, and the test
    [key in Object.prototype]: these and the accessor [__proto__]. *)
Definition objectPrototypeFunctions : list string :=
  ["constructor"; "__defineGetter__"; "__defineSetter__"; "hasOwnProperty";
   "__lookupGetter__"; "__lookupSetter__"; "isPrototypeOf"; "propertyIsEnumerable";
   "toString"; "valueOf"; "toLocaleString"].

Definition isPrototypeFunction (key : string) : bool :=
  existsb (String.eqb key) objectPrototypeFunctions.

Definition inObjectPrototype (key : string) : bool :=
  String.eqb key "__proto__" || isPrototypeFunction key.

(** [Object.prototype[key]] read through an object whose prototype is
    [proto]: the accessor [__proto__] answers [proto]. *)
Definition prototypeMember (proto : JValue) (key : string) : JValue :=
  if String.eqb key "__proto__" then proto
  else if isPrototypeFunction key then JFunction key
  else JUndefined.

(** [data[fieldName]]: the own property, or else the member of
    [Object.prototype] of that name; a key found in neither reads as
    [undefined]. The validator reads plain objects and, in a nested call,
    possibly [Object.prototype] itself, whose prototype is [null]. *)
Definition getField (data : JValue) (fieldName : string) : JValue :=
  match data with
  | JObj m =>
      match m !! fieldName with
      | Some v => v
      | None => prototypeMember JObjectPrototype fieldName
      end
  | JObjectPrototype => prototypeMember JNull fieldName
  | _ => JUndefined
  end.

(** [fieldName in data] *)
Definition hasField (data : JValue) (fieldName : string) : bool :=
  match data with
  | JObj m => bool_decide (is_Some (m !! fieldName)) || inObjectPrototype fieldName
  | JObjectPrototype => inObjectPrototype fieldName
  | _ => false
  end.

(** [value as Record<string, unknown>], as [Object.keys] sees it: the own
    enumerable properties. [Object.prototype] has none. *)
Definition asRecord (v : JValue) : JRecord :=
  match v with
  | JObj m => m
  | _ => ∅
  end.

(** [obj[key] = value] on a plain object, as far as its own properties go.
    The key [__proto__] reaches the setter of [Object.prototype], which adds
    no property (it replaces the prototype of [obj] when [value] is an
    object). *)
Definition setField (obj : JRecord) (key : string) (value : JValue) : JRecord :=
  if String.eqb key "__proto__" then obj else <[key := value]> obj.

Arguments getField : simpl never.
Arguments hasField : simpl never.
Arguments setField : simpl never.
Arguments inObjectPrototype : simpl never.

(** [Array.isArray(value)] *)
Definition isArray (v : JValue) : bool :=
  match v with
  | JArr _ => true
  | _ => false
  end.

(** [typeof value] *)
Definition typeof (v : JValue) : string :=
  match v with
  | JUndefined => "undefined"
  | JNull => "object"
  | JBool _ => "boolean"
  | JNum _ => "number"
  | JStr _ => "string"
  | JArr _ => "object"
  | JObj _ => "object"
  | JFunction _ => "function"
  | JObjectPrototype => "object"
  end.

(** [Array.prototype.join] *)
Fixpoint join (sep : string) (l : list string) : string :=
  match l with
  | [] => ""
  | [x] => x
  | x :: rest => x +:+ sep +:+ join sep rest
  end.

(** ** Schemas ([types/openAPISpec.types.ts]) *)

(** Members of an [enum]: [(string | number)[]]. *)
Inductive EnumValue : Type :=
  | EStr (s : string)
  | ENum (n : Z).

Definition enumToString (e : EnumValue) : string :=
  match e with
  | EStr s => s
  | ENum n => pretty n
  end.

(** [property.enum.includes(value)]: strict equality, so only a string or a
    number can be found. *)
Definition enumIncludes (vals : list EnumValue) (v : JValue) : bool :=
  match v with
  | JStr s => existsb (fun e => match e with EStr s' => String.eqb s' s | _ => false end) vals
  | JNum n => existsb (fun e => match e with ENum n' => Z.eqb n' n | _ => false end) vals
  | _ => false
  end.

Inductive OpenAPISchemaProperty : Type :=
  mkProperty {
    type : string;
    description : option string;
    items : option OpenAPISchemaProperty;
    properties : option (list (string * OpenAPISchemaProperty));
    required : option (list string);
    enum : option (list EnumValue);
    minimum : option Z;
    maximum : option Z;
    minLength : option nat;
    maxLength : option nat;
  }.

(** A property that only declares its type. *)
Definition typeOnly (t : string) : OpenAPISchemaProperty :=
  mkProperty t None None None None None None None None None.

Record OpenAPISchema : Type :=
  mkSchema {
    schema_properties : list (string * OpenAPISchemaProperty);
    schema_required : option (list string);
  }.

(** An entry of the simplified format: a full property object, a type name,
    or anything else. *)
Inductive SimpleEntry : Type :=
  | SEProperty (p : OpenAPISchemaProperty)
  | SEType (t : string)
  | SEOther.

(** A table of properties is plain when it has no own key [__proto__], and
    so at every depth. An object literal cannot give such a key (there
    [__proto__] names the prototype); on a table that has one, the
    assignments [validatedData[fieldName] = ...] of the validator and
    [properties[key] = ...] of the conversion would replace the prototype
    of the object they build instead of adding a property. *)
Section PlainTable.
Variable plain : OpenAPISchemaProperty -> bool.

Fixpoint plainTable (props : list (string * OpenAPISchemaProperty)) : bool :=
  match props with
  | [] => true
  | (key, property) :: rest =>
      negb (String.eqb key "__proto__") && plain property && plainTable rest
  end.
End PlainTable.

Fixpoint plainProperty (property : OpenAPISchemaProperty) : bool :=
  match properties property with
  | Some props => plainTable plainProperty props
  | None => true
  end
  && match items property with
     | Some itemSchema => plainProperty itemSchema
     | None => true
     end.

Definition plainSchema (s : OpenAPISchema) : bool :=
  plainTable plainProperty (schema_properties s).

(** The shape test of [normalizeToOpenAPISchema] on a table of entries:
    [type] is the string ["object"] and there is a [properties] key. *)
Definition looksLikeOpenAPI (entries : list (string * SimpleEntry)) : bool :=
  existsb (fun kv => String.eqb (fst kv) "type"
                     && match snd kv with
                        | SEType t => String.eqb t "object"
                        | _ => false
                        end) entries
  && existsb (fun kv => String.eqb (fst kv) "properties") entries.

(** A table in the simplified format: it fails the shape test, so it is
    converted, and it is plain. *)
Definition simplified (entries : list (string * SimpleEntry)) : bool :=
  negb (looksLikeOpenAPI entries)
  && forallb (fun kv => negb (String.eqb (fst kv) "__proto__")
                        && match snd kv with
                           | SEProperty p => plainProperty p
                           | _ => true
                           end) entries.

(** [ParametersSchema], the schema of the parameters of a tool: an object
    that passes the shape test, taken as an [OpenAPISchema] as it is, or a
    table in the simplified format. Its tables are plain, so every object
    that the engine builds from it has [Object.prototype] as its
    prototype. *)
Inductive ParametersSchema : Type :=
  | OpenAPIFormat (s : OpenAPISchema) (plain : plainSchema s = true)
  | SimplifiedFormat (entries : list (string * SimpleEntry))
      (shape : simplified entries = true).

Definition normalizeToOpenAPISchema (schema : ParametersSchema) : OpenAPISchema :=
  match schema with
  | OpenAPIFormat s _ => s
  | SimplifiedFormat entries _ =>
      let step (acc : list (string * OpenAPISchemaProperty) * list string)
               (kv : string * SimpleEntry) :=
        let '(props, req) := acc in
        let '(key, value) := kv in
        match value with
        | SEProperty p => (props ++ [(key, p)], req ++ [key])
        | SEType t =>
            let propType := t in
            (props ++ [(key, typeOnly (if String.eqb propType "number" then "number" else propType))],
             req ++ [key])
        | SEOther => (props ++ [(key, typeOnly "string")], req ++ [key])
        end in
      let '(props, req) := fold_left step entries ([], []) in
      mkSchema props (Some req)
  end.

(** ** Validation ([utils/openApiSpec.ts]) *)

Record PropertyResult : Type :=
  mkPropertyResult {
    pr_isValid : bool;
    pr_validatedValue : option JValue;
    pr_error : option string;
  }.

Definition propOk (v : JValue) : PropertyResult := mkPropertyResult true (Some v) None.
Definition propFail (e : string) : PropertyResult := mkPropertyResult false None (Some e).

Record ValidationResult : Type :=
  mkValidationResult {
    isValid : bool;
    vr_data : option JRecord;
    vr_errors : option (list string);
  }.

(** [schema.required || []] *)
Definition requiredFields (req : option (list string)) : list string :=
  default [] req.

(** [requiredFields.includes(fieldName)] *)
Definition includes (l : list string) (s : string) : bool :=
  existsb (String.eqb s) l.

(** [schema.properties] has an own property [key]. *)
Definition ownProperty (props : list (string * OpenAPISchemaProperty)) (key : string) : bool :=
  existsb (fun kp => String.eqb (fst kp) key) props.

(** [key in schema.properties]: an own property, or a member of
    [Object.prototype]. *)
Definition declared (props : list (string * OpenAPISchemaProperty)) (key : string) : bool :=
  ownProperty props key || inObjectPrototype key.

(** First loop of [validateAgainstOpenAPISchema]: required fields. *)
Definition requiredErrors (data : JValue) (req : list string) : list string :=
  flat_map (fun fieldName =>
    if negb (hasField data fieldName) || isNullish (getField data fieldName)
    then ["Missing required field: " +:+ fieldName] else []) req.

(** Third loop: the own keys of the data that [key in schema.properties]
    does not find. The keys come in the order of the finite map, which need
    not be the insertion order of [Object.keys]. *)
Definition extraErrors (data : JValue) (props : list (string * OpenAPISchemaProperty))
  : list string :=
  flat_map (fun kv : string * JValue =>
    if negb (declared props (fst kv)) then ["Unexpected field: " +:+ fst kv] else [])
    (map_to_list (asRecord data)).

Section Validate.
(** The validator of one property, [validateProperty] once the knot is
    tied below. *)
Variable vp : JValue -> OpenAPISchemaProperty -> string -> PropertyResult.

(** Second loop of [validateAgainstOpenAPISchema]: one pass over the
    declared properties, with the running [errors] and [validatedData]. *)
Fixpoint propertiesLoop (data : JValue) (req : list string)
    (props : list (string * OpenAPISchemaProperty))
    (acc : list string * JRecord) : list string * JRecord :=
  match props with
  | [] => acc
  | (fieldName, property) :: rest =>
      let value := getField data fieldName in
      if negb (includes req fieldName) && isNullish value
      then propertiesLoop data req rest acc
      else
        let result := vp value property fieldName in
        if negb (pr_isValid result)
        then propertiesLoop data req rest
               (fst acc ++ [str_or (pr_error result) ("Invalid field: " +:+ fieldName)], snd acc)
        else propertiesLoop data req rest
               (fst acc, setField (snd acc) fieldName
                           (nullish_or (pr_validatedValue result) value))
  end.

(** The body of [validateAgainstOpenAPISchema] on a schema with the given
    [properties] and [required]. [validateProperty] calls it on nested
    objects, and [validateAgainstOpenAPISchema] is its instance at
    [validateProperty]. *)
Definition validateObjectWith (data : JValue)
    (props : list (string * OpenAPISchemaProperty)) (schemaRequired : option (list string))
  : ValidationResult :=
  let req := requiredFields schemaRequired in
  let errors0 := requiredErrors data req in
  let '(errors1, validatedData) := propertiesLoop data req props (errors0, ∅) in
  let errs := errors1 ++ extraErrors data props in
  mkValidationResult
    (Nat.eqb (length errs) 0)
    (if Nat.eqb (length errs) 0 then Some validatedData else None)
    (if Nat.ltb 0 (length errs) then Some errs else None).

(** The loop over the items of an array value. *)
Section Items.
Variable itemSchema : OpenAPISchemaProperty.
Variable fieldPath : string.

Fixpoint itemsLoop (vals : list JValue) (i : nat) (acc : list string * list JValue)
  : list string * list JValue :=
  match vals with
  | [] => acc
  | v :: rest =>
      let itemResult := vp v itemSchema (fieldPath +:+ "[" +:+ pretty i +:+ "]") in
      if negb (pr_isValid itemResult)
      then itemsLoop rest (S i)
             (fst acc ++ [str_or (pr_error itemResult) "Invalid item"], snd acc)
      else itemsLoop rest (S i)
             (fst acc, snd acc ++ [nullish_or (pr_validatedValue itemResult) v])
  end.
End Items.
End Validate.

(** [actualType] in [validateProperty] *)
Definition actualType (value : JValue) : string :=
  if isArray value then "array"
  else match value with JNull => "null" | _ => typeof value end.

(** The number of UTF-16 code units of the string that the bytes encode: a
    byte that starts a character of one, two or three bytes counts one, a
    byte that starts a character of four bytes counts two (a surrogate
    pair), and a continuation byte counts nothing. *)
Definition utf16Units (b : N) : nat :=
  if (b <? 128)%N then 1
  else if (b <? 192)%N then 0
  else if (b <? 240)%N then 1
  else 2.

Fixpoint utf16Length (s : string) : nat :=
  match s with
  | EmptyString => 0
  | String c rest => utf16Units (Ascii.N_of_ascii c) + utf16Length rest
  end.

(** The string, number and array inside a value, read after the type tests
    have passed. [strLength] is [value.length] of a string. *)
Definition strLength (value : JValue) : nat :=
  match value with JStr s => utf16Length s | _ => 0 end.
Definition numValue (value : JValue) : Z :=
  match value with JNum n => n | _ => 0%Z end.
Definition arrItems (value : JValue) : list JValue :=
  match value with JArr l => l | _ => [] end.
Definition isObjectValue (value : JValue) : bool :=
  String.eqb (typeof value) "object" && negb (isArray value) && negb (isNullish value).

Definition typeError (fieldPath kind : string) (value : JValue) : PropertyResult :=
  propFail ("Field '" +:+ fieldPath +:+ "' must be " +:+ kind +:+ ", got " +:+ actualType value).

Fixpoint validateProperty (value : JValue) (property : OpenAPISchemaProperty)
    (fieldPath : string) {struct property} : PropertyResult :=
  if isNullish value then propFail ("Missing required field: " +:+ fieldPath) else
  let expectedType := type property in
  if String.eqb expectedType "integer" && negb (String.eqb (typeof value) "number")
  then typeError fieldPath "an integer" value else
  if String.eqb expectedType "number" && negb (String.eqb (typeof value) "number")
  then typeError fieldPath "a number" value else
  if String.eqb expectedType "string" && negb (String.eqb (typeof value) "string")
  then typeError fieldPath "a string" value else
  if String.eqb expectedType "boolean" && negb (String.eqb (typeof value) "boolean")
  then typeError fieldPath "a boolean" value else
  if String.eqb expectedType "array" && negb (isArray value)
  then typeError fieldPath "an array" value else
  if String.eqb expectedType "object" && negb (isObjectValue value)
  then typeError fieldPath "an object" value else
  if match enum property with
     | Some vals => negb (enumIncludes vals value)
     | None => false
     end
  then propFail ("Field '" +:+ fieldPath +:+ "' must be one of: "
                 +:+ join ", " (map enumToString (default [] (enum property)))) else
  if String.eqb expectedType "string" && String.eqb (typeof value) "string"
     && match minLength property with
        | Some n => Nat.ltb (strLength value) n
        | None => false
        end
  then propFail ("Field '" +:+ fieldPath +:+ "' must be at least "
                 +:+ pretty (default 0 (minLength property)) +:+ " characters") else
  if String.eqb expectedType "string" && String.eqb (typeof value) "string"
     && match maxLength property with
        | Some n => Nat.ltb n (strLength value)
        | None => false
        end
  then propFail ("Field '" +:+ fieldPath +:+ "' must be at most "
                 +:+ pretty (default 0 (maxLength property)) +:+ " characters") else
  if (String.eqb expectedType "number" || String.eqb expectedType "integer")
     && String.eqb (typeof value) "number"
     && match minimum property with
        | Some n => Z.ltb (numValue value) n
        | None => false
        end
  then propFail ("Field '" +:+ fieldPath +:+ "' must be at least "
                 +:+ pretty (default 0%Z (minimum property))) else
  if (String.eqb expectedType "number" || String.eqb expectedType "integer")
     && String.eqb (typeof value) "number"
     && match maximum property with
        | Some n => Z.ltb n (numValue value)
        | None => false
        end
  then propFail ("Field '" +:+ fieldPath +:+ "' must be at most "
                 +:+ pretty (default 0%Z (maximum property))) else
  let arrayItems :=
    match items property with
    | Some itemSchema =>
        if String.eqb expectedType "array" && isArray value
        then
          let '(itemErrors, validatedItems) :=
            itemsLoop validateProperty itemSchema fieldPath (arrItems value) 0 ([], []) in
          if Nat.ltb 0 (length itemErrors)
          then propFail (join "; " itemErrors)
          else propOk (JArr validatedItems)
        else propOk value
    | None => propOk value
    end in
  match properties property with
  | Some props =>
      if String.eqb expectedType "object"
      then
        let nestedResult :=
          validateObjectWith validateProperty value props (required property) in
        if negb (isValid nestedResult)
        then propFail ("Field '" +:+ fieldPath +:+ "' validation failed: "
                       +:+ match vr_errors nestedResult with
                           | Some errs => join ", " errs
                           | None => "undefined"
                           end)
        else mkPropertyResult true (JObj <$> vr_data nestedResult) None
      else arrayItems
  | None => arrayItems
  end.

Definition validateAgainstOpenAPISchema (data : JRecord) (schema : OpenAPISchema)
  : ValidationResult :=
  validateObjectWith validateProperty (JObj data) (schema_properties schema)
    (schema_required schema).

Definition validateAgainstSchema (data : JRecord) (schema : ParametersSchema)
  : ValidationResult :=
  let openAPISchema := normalizeToOpenAPISchema schema in
  validateAgainstOpenAPISchema data openAPISchema.


(** ** Well-formed data, in the words of the specification

    The validity that section 4.1 of the specification describes, written
    without reference to the validator: presence, primitive type match, enum
    membership, length and numeric bounds, nested objects and array items,
    and no field that the schema does not declare. A field is present when
    the record has it as its own, and declared when the schema has a
    property of that name. *)

(** Primitive type match. A type name outside the six of the schema language
    constrains nothing. *)
Definition hasType (t : string) (v : JValue) : Prop :=
  if decide (t = "string") then ∃ s, v = JStr s
  else if decide (t = "number" ∨ t = "integer") then ∃ n, v = JNum n
  else if decide (t = "boolean") then ∃ b, v = JBool b
  else if decide (t = "array") then ∃ l, v = JArr l
  else if decide (t = "object") then ∃ m, v = JObj m
  else True.

Definition inEnum (vals : list EnumValue) (v : JValue) : Prop :=
  (∃ s, v = JStr s ∧ EStr s ∈ vals) ∨ (∃ n, v = JNum n ∧ ENum n ∈ vals).

Definition withinBounds (property : OpenAPISchemaProperty) (v : JValue) : Prop :=
  (∀ s, type property = "string" → v = JStr s →
     (∀ n, minLength property = Some n → n ≤ utf16Length s) ∧
     (∀ n, maxLength property = Some n → utf16Length s ≤ n)) ∧
  (∀ x, type property = "number" ∨ type property = "integer" → v = JNum x →
     (∀ n, minimum property = Some n → (n ≤ x)%Z) ∧
     (∀ n, maximum property = Some n → (x ≤ n)%Z)).

Section RecordConforms.
Variable conforms : JValue -> OpenAPISchemaProperty -> Prop.

(** Every declared field that the record holds conforms to its
    declaration. *)
Fixpoint fieldsConform (data : JRecord)
    (props : list (string * OpenAPISchemaProperty)) : Prop :=
  match props with
  | [] => True
  | (fieldName, property) :: rest =>
      (∀ v, data !! fieldName = Some v → conforms v property)
      ∧ fieldsConform data rest
  end.

(** All required fields are present, every field present is declared and
    holds a value, and the declared fields conform. *)
Definition recordConformsWith (data : JRecord)
    (props : list (string * OpenAPISchemaProperty)) (req : option (list string)) : Prop :=
  (∀ f, f ∈ requiredFields req → is_Some (data !! f))
  ∧ (∀ k v, data !! k = Some v → isNullish v = false ∧ ownProperty props k = true)
  ∧ fieldsConform data props.
End RecordConforms.

Fixpoint conformsTo (value : JValue) (property : OpenAPISchemaProperty) {struct property}
  : Prop :=
  isNullish value = false
  ∧ hasType (type property) value
  ∧ (∀ vals, enum property = Some vals → inEnum vals value)
  ∧ withinBounds property value
  ∧ match properties property with
    | Some props =>
        type property = "object" →
        recordConformsWith conformsTo (asRecord value) props (required property)
    | None => True
    end
  ∧ match items property with
    | Some itemSchema =>
        type property = "array" → Forall (fun v => conformsTo v itemSchema) (arrItems value)
    | None => True
    end.

(** A record conforms to a schema. *)
Definition recordConforms (data : JRecord) (schema : OpenAPISchema) : Prop :=
  recordConformsWith conformsTo data (schema_properties schema) (schema_required schema).


(** ** The two results of the property loop, described separately

    [fieldErrorsWith] lists what the second loop of
    [validateAgainstOpenAPISchema] pushes on [errors], [validatedFieldsWith]
    is what it leaves in [validatedData]. They are used to state what
    [propertiesLoop] computes. *)

Section Derived.
Variable vp : JValue -> OpenAPISchemaProperty -> string -> PropertyResult.

(** The field is optional and not provided: the loop skips it. *)
Definition skipped (data : JValue) (req : list string) (fieldName : string) : bool :=
  negb (includes req fieldName) && isNullish (getField data fieldName).

(** The entry pushed for a declared field that fails validation. *)
Definition fieldError (data : JValue) (fieldName : string)
    (property : OpenAPISchemaProperty) : string :=
  str_or (pr_error (vp (getField data fieldName) property fieldName))
         ("Invalid field: " +:+ fieldName).

Definition fieldErrorsWith (data : JValue) (req : list string)
    (props : list (string * OpenAPISchemaProperty)) : list string :=
  flat_map (fun kp : string * OpenAPISchemaProperty =>
    if skipped data req (fst kp) then []
    else if negb (pr_isValid (vp (getField data (fst kp)) (snd kp) (fst kp)))
         then [fieldError data (fst kp) (snd kp)]
         else []) props.

Definition validatedFieldsWith (data : JValue) (req : list string)
    (props : list (string * OpenAPISchemaProperty)) (acc : JRecord) : JRecord :=
  fold_left (fun (m : JRecord) (kp : string * OpenAPISchemaProperty) =>
    let value := getField data (fst kp) in
    let result := vp value (snd kp) (fst kp) in
    if skipped data req (fst kp) then m
    else if negb (pr_isValid result) then m
         else setField m (fst kp) (nullish_or (pr_validatedValue result) value)) props acc.
End Derived.


(** ** What the validator accepts

    A declarative description of the values and records on which the
    validator finds no error. It differs from [conformsTo] in two points,
    read off [validateAgainstOpenAPISchema]: a declared field that is
    optional and holds no value ([skipped]) is passed over, and a field is
    read and looked for as JavaScript does it, members of [Object.prototype]
    included ([getField], [hasField], [declared]). *)

(** The type test of [validateProperty]: [Object.prototype] is an object
    too. *)
Definition typeAccepted (t : string) (v : JValue) : Prop :=
  hasType t v ∨ (t = "object" ∧ v = JObjectPrototype).

Section RecordAccepted.
Variable accepts : JValue -> OpenAPISchemaProperty -> Prop.

(** The field is optional and not provided. *)
Definition passedOver (data : JValue) (req : list string) (fieldName : string) : Prop :=
  includes req fieldName = false ∧ isNullish (getField data fieldName) = true.

Fixpoint fieldsAccepted (data : JValue) (req : list string)
    (props : list (string * OpenAPISchemaProperty)) : Prop :=
  match props with
  | [] => True
  | (fieldName, property) :: rest =>
      (passedOver data req fieldName ∨ accepts (getField data fieldName) property)
      ∧ fieldsAccepted data req rest
  end.

Definition recordAcceptedWith (data : JValue)
    (props : list (string * OpenAPISchemaProperty)) (req : option (list string)) : Prop :=
  (∀ f, f ∈ requiredFields req →
        hasField data f = true ∧ isNullish (getField data f) = false)
  ∧ (∀ k, is_Some (asRecord data !! k) → declared props k = true)
  ∧ fieldsAccepted data (requiredFields req) props.
End RecordAccepted.

Fixpoint acceptedBy (value : JValue) (property : OpenAPISchemaProperty) {struct property}
  : Prop :=
  isNullish value = false
  ∧ typeAccepted (type property) value
  ∧ (∀ vals, enum property = Some vals → inEnum vals value)
  ∧ withinBounds property value
  ∧ match properties property with
    | Some props =>
        type property = "object" →
        recordAcceptedWith acceptedBy value props (required property)
    | None => True
    end
  ∧ match items property with
    | Some itemSchema =>
        type property = "array" → Forall (fun v => acceptedBy v itemSchema) (arrItems value)
    | None => True
    end.

Definition recordAccepted (data : JRecord) (schema : OpenAPISchema) : Prop :=
  recordAcceptedWith acceptedBy (JObj data) (schema_properties schema)
    (schema_required schema).


(** ** Schemas with ordinary keys

    The properties of a schema are the entries of an object, so no key occurs
    twice, at any depth: the association lists of the model have this shape
    when they come from a schema object. A key is ordinary when it is not
    the name of a member of [Object.prototype]; a field of that name is read
    from the data itself or not at all. *)

Section AllProperties.
Variable P : OpenAPISchemaProperty -> Prop.

Fixpoint allProperties (props : list (string * OpenAPISchemaProperty)) : Prop :=
  match props with
  | [] => True
  | (_, property) :: rest => P property ∧ allProperties rest
  end.
End AllProperties.

Definition ordinaryNames (names : list string) : Prop :=
  NoDup names ∧ Forall (fun key => inObjectPrototype key = false) names.

Fixpoint ordinaryKeys (property : OpenAPISchemaProperty) : Prop :=
  match properties property with
  | Some props => ordinaryNames (map fst props) ∧ allProperties ordinaryKeys props
  | None => True
  end
  ∧ match items property with
    | Some itemSchema => ordinaryKeys itemSchema
    | None => True
    end.

Definition schemaOrdinaryKeys (schema : OpenAPISchema) : Prop :=
  ordinaryNames (map fst (schema_properties schema))
  ∧ allProperties ordinaryKeys (schema_properties schema).

(** A validator of properties settles on [property]: whenever it accepts a
    value, it returns the same validated value at every field path, and it
    accepts that validated value unchanged. *)
Definition settles (vp : JValue -> OpenAPISchemaProperty -> string -> PropertyResult)
    (property : OpenAPISchemaProperty) : Prop :=
  ∀ v path, pr_isValid (vp v property path) = true →
    ∃ v', isNullish v' = false
          ∧ (∀ path', vp v property path' = mkPropertyResult true (Some v') None)
          ∧ (∀ path', vp v' property path' = mkPropertyResult true (Some v') None).


(** ** Errors *)

(** A thrown value, kept with its class and message. [AgentError] is the
    class of that name in [types/zod.types.ts]: a message, an optional tool
    name and an optional retry count. [OrchestratorError] is the class of
    that name in the type definitions of the orchestrator: a message and an
    optional step number. [PlainError] is any other [Error], thrown by a
    tool, by the gateway or by a built-in, with its [name] ("Error",
    "TypeError", ...) and its message. *)
Inductive Exn : Type :=
  | AgentError (message : string) (toolName : option string) (attempts : option nat)
  | OrchestratorError (message : string) (stepNumber : option Z)
  | PlainError (name : string) (message : string).

(** [error instanceof Error ? error.message : String(error)] *)
Definition errorMessage (e : Exn) : string :=
  match e with
  | AgentError m _ _ => m
  | OrchestratorError m _ => m
  | PlainError _ m => m
  end.

(** [error.name] *)
Definition errorName (e : Exn) : string :=
  match e with
  | AgentError _ _ _ => "AgentError"
  | OrchestratorError _ _ => "OrchestratorError"
  | PlainError name _ => name
  end.

(** [String(error)] of an [Error] object ([Error.prototype.toString]): the
    name, a colon and the message, or the one of the two that is not
    empty. *)
Definition errorToString (e : Exn) : string :=
  if String.eqb (errorName e) "" then errorMessage e
  else if String.eqb (errorMessage e) "" then errorName e
  else errorName e +:+ ": " +:+ errorMessage e.

Definition isAgentError (e : Exn) : bool :=
  match e with
  | AgentError _ _ _ => true
  | _ => false
  end.

Inductive Outcome (A : Type) : Type :=
  | Returned (a : A)
  | Thrown (e : Exn).
Arguments Returned {A} a.
Arguments Thrown {A} e.

(** ** Tool calls, plans and orchestrator state *)

(** The interface [ToolCall] of [types/zod.types.ts]: the name of the tool,
    optional explicit arguments and an optional free-text context. *)
Record ToolCall : Type :=
  mkToolCall {
    tc_tool : string;
    tc_arguments : option JRecord;
    tc_context : option string;
  }.

Inductive OrchestratorStatus : Type :=
  | idle
  | planning
  | executing
  | completed
  | error.

Record ExecutionStep : Type :=
  mkExecutionStep {
    stepNumber : Z;
    step_description : string;
    toolCall : ToolCall;
    step_completed : bool;
    step_result : option JValue;
    step_error : option string;
    dependsOn : option (list Z);
  }.

Record OrchestratorState : Type :=
  mkOrchestratorState {
    userQuery : string;
    plan : option string;
    steps : list ExecutionStep;
    currentStepIndex : Z;
    status : OrchestratorStatus;
    conversationHistory : list string;
    context : JRecord;
    state_error : option string;
  }.

Record OrchestratorResult : Type :=
  mkOrchestratorResult {
    success : bool;
    finalResponse : string;
    result_steps : list ExecutionStep;
    result_state : OrchestratorState;
    result_error : option string;
  }.

(** One entry of [PlanningResponse.steps]. *)
Record PlannedStep : Type :=
  mkPlannedStep {
    ps_stepNumber : Z;
    ps_description : string;
    ps_tool : string;
    ps_arguments : option JRecord;
    ps_dependsOn : option (list Z);
  }.

Record PlanningResponse : Type :=
  mkPlanningResponse {
    pl_plan : string;
    pl_steps : option (list PlannedStep);
    pl_isComplete : bool;
  }.

Record NextStepResponse : Type :=
  mkNextStepResponse {
    shouldContinue : bool;
    nextStep : option PlannedStep;
    ns_finalResponse : option string;
    reasoning : option string;
  }.

(** ** The language-model gateway ([ILLMService]) *)

(** What a prompt is built from. The source fills a fixed text template with
    these parts; the parts are kept instead of the text. A tool is described
    by its name, its description and its parameter schema. *)
Inductive Prompt : Type :=
  | ExtractionPrompt (schema : ParametersSchema) (systemPrompt : option string)
      (distilledContext : string)
  | RetryPrompt (schema : ParametersSchema) (context0 : string) (previousError : string)
  | PlanningPrompt (query : string) (toolsDescription : list (string * string * ParametersSchema))
      (systemPrompt : option string) (previous : option (string * list ExecutionStep))
  | NextStepPrompt (state : OrchestratorState)
      (toolsDescription : list (string * string * ParametersSchema)).

(** [StructuredOutputRequest]; the sampling temperature, a constant at each
    call site, is left out. *)
Record StructuredOutputRequest : Type :=
  mkRequest {
    prompt : Prompt;
    req_description : string;
    modelOverride : option string;
  }.

Record StructuredLLMResponse (T : Type) : Type :=
  mkResponse {
    content : string;
    structuredData : option T;
    resp_isValid : bool;
    validationErrors : option (list string);
  }.
Arguments mkResponse {T} _ _ _ _.
Arguments content {T} _.
Arguments structuredData {T} _.
Arguments resp_isValid {T} _.
Arguments validationErrors {T} _.

(** What the run does to its collaborators, in order. *)
Inductive Event : Type :=
  | EvStructuredOutput (req : StructuredOutputRequest)
  | EvExecute (toolName : string) (args : JRecord)
  | EvSleep (ms : nat).

Definition isGatewayEvent (ev : Event) : bool :=
  match ev with
  | EvStructuredOutput _ => true
  | _ => false
  end.


(** ** The agent ([implementations/agent.ts]) *)

Section Engine.
(** State of the collaborators: whatever the gateway and the tools read
    and change. *)
Context {W : Type}.

(** Two built-ins of the host language. [JSON.stringify] throws on what
    it cannot serialize (a [BigInt], a cycle); [String] turns any value
    into text. *)
Context (JSON_stringify : JValue -> Outcome string).
Context (String_of : JValue -> string).

Record World : Type :=
  mkWorld {
    ext : W;
    trace : list Event;
  }.

(** An [async] method: it runs on a world and returns or throws. *)
Definition M (A : Type) : Type := World -> Outcome A * World.

Definition ret {A} (a : A) : M A := fun w => (Returned a, w).
Definition throw {A} (e : Exn) : M A := fun w => (Thrown e, w).
(** An expression that returns or throws and touches nothing. *)
Definition evaluate {A} (o : Outcome A) : M A := fun w => (o, w).
Definition bind {A B} (m : M A) (k : A -> M B) : M B :=
  fun w =>
    match m w with
    | (Returned a, w') => k a w'
    | (Thrown e, w') => (Thrown e, w')
    end.
(** [try { m } catch (e) { h e }] *)
Definition tryCatch {A} (m : M A) (h : Exn -> M A) : M A :=
  fun w =>
    match m w with
    | (Returned a, w') => (Returned a, w')
    | (Thrown e, w') => h e w'
    end.

Notation "'let*' x ':=' m 'in' k" := (bind m (fun x => k))
  (at level 10, x name, m at level 100, k at level 200, only parsing).

(** Run a collaborator on the external state and record the event. *)
Definition perform {A} (ev : Event) (f : W -> Outcome A * W) : M A :=
  fun w =>
    let '(r, x) := f (ext w) in
    (r, mkWorld x (trace w ++ [ev])).

(** [ILLMService.getStructuredOutput<T>], at the three result types the
    engine asks for: tool arguments, a plan, a next-step decision. *)
Record ILLMService : Type :=
  mkLLMService {
    getArguments : StructuredOutputRequest -> W -> Outcome (StructuredLLMResponse JRecord) * W;
    getPlan : StructuredOutputRequest -> W -> Outcome (StructuredLLMResponse PlanningResponse) * W;
    getDecision : StructuredOutputRequest -> W -> Outcome (StructuredLLMResponse NextStepResponse) * W;
  }.

(** The interface [Tool] of [types/zod.types.ts]: name, description,
    parameter schema, the [execute] function, the optional flags [agentic]
    and [validate] and the optional system prompt. The engine tests
    [agentic] for truth, so a flag left out is [false]; it never reads
    [validate]. [execute] runs on the external state and returns or
    throws. *)
Record Tool : Type :=
  mkTool {
    tool_name : string;
    tool_description : string;
    parametersSchema : ParametersSchema;
    tool_execute : JRecord -> W -> Outcome JValue * W;
    agentic : bool;
    validate : bool;
    tool_systemPrompt : option string;
  }.

(** The fields of an [Agent] object. *)
Record Agent : Type :=
  mkAgent {
    tools : list Tool;
    maxRetries : nat;
    retryDelay : nat;
    verbose : bool;
    llmService : ILLMService;
  }.

(** The interface [AgentConfig] of [types/zod.types.ts]. The constructor
    of [Agent] tests [llmService], so it is optional here. *)
Record AgentConfig : Type :=
  mkAgentConfig {
    cfg_tools : list Tool;
    cfg_llmService : option ILLMService;
    cfg_maxRetries : option nat;
    cfg_retryDelay : option nat;
    cfg_verbose : option bool;
  }.

(** [this.tools.has(name)], [this.tools.get(name)]: the registry is a [Map]
    kept in insertion order; names are unique by construction. *)
Definition findTool (ts : list Tool) (toolName : string) : option Tool :=
  find (fun t => String.eqb (tool_name t) toolName) ts.

(** The constructor of [Agent]. *)
Definition newAgent (config : AgentConfig) : Outcome Agent :=
  if Nat.eqb (length (cfg_tools config)) 0
  then Thrown (AgentError "Agent requires at least one tool to be configured" None None)
  else
    match cfg_llmService config with
    | None => Thrown (AgentError "Agent requires an LLM service instance" None None)
    | Some llm =>
        let register (acc : Outcome (list Tool)) (tool : Tool) :=
          match acc with
          | Thrown e => Thrown e
          | Returned ts =>
              match findTool ts (tool_name tool) with
              | Some _ =>
                  Thrown (AgentError ("Duplicate tool name detected: '" +:+ tool_name tool +:+ "'")
                            None None)
              | None => Returned (ts ++ [tool])
              end
          end in
        match fold_left register (cfg_tools config) (Returned []) with
        | Thrown e => Thrown e
        | Returned ts =>
            Returned (mkAgent ts
                        (Nat.max 1 (default 3 (cfg_maxRetries config)))
                        (Nat.max 0 (default 1000 (cfg_retryDelay config)))
                        (default false (cfg_verbose config))
                        llm)
        end
    end.

Section Methods.
Variable self : Agent.

Definition sleep (ms : nat) : M unit :=
  if Nat.leb ms 0 then ret tt
  else perform (EvSleep ms) (fun x => (Returned tt, x)).

Definition getTool (toolName : string) : M Tool :=
  match findTool (tools self) toolName with
  | None => throw (AgentError ("Tool '" +:+ toolName +:+ "' not found") (Some toolName) None)
  | Some tool => ret tool
  end.

Definition getTools : list Tool := tools self.

(** [this.llmService.getStructuredOutput(request)] for tool arguments. *)
Definition askArguments (request : StructuredOutputRequest)
  : M (StructuredLLMResponse JRecord) :=
  perform (EvStructuredOutput request) (getArguments (llmService self) request).

(** [tool.execute(finalArgs)] *)
Definition runTool (tool : Tool) (finalArgs : JRecord) : M JValue :=
  perform (EvExecute (tool_name tool) finalArgs) (tool_execute tool finalArgs).

(** The part shared by the two extraction helpers once the response is
    in: reject an invalid response, validate the data strictly and, for
    a verbose agent, build the log message that shows the validated
    data. *)
Definition checkExtracted (tool : Tool) (invalidPrefix strictPrefix : string)
    (response : StructuredLLMResponse JRecord) : M JRecord :=
  if negb (resp_isValid response)
  then throw (AgentError
                (invalidPrefix +:+ " '" +:+ tool_name tool +:+ "': "
                 +:+ match validationErrors response with
                     | Some errs => join ", " errs
                     | None => "undefined"
                     end)
                (Some (tool_name tool)) None)
  else
    let extractedData := default ∅ (structuredData response) in
    let validationResult := validateAgainstSchema extractedData (parametersSchema tool) in
    if negb (isValid validationResult)
    then
      let errs := str_or (join ", " <$> vr_errors validationResult)
                         "Unknown validation error" in
      throw (AgentError
               (strictPrefix +:+ " '" +:+ tool_name tool +:+ "': " +:+ errs)
               (Some (tool_name tool)) None)
    else
      let validatedData := default ∅ (vr_data validationResult) in
      if verbose self
      then
        let* _ := evaluate (JSON_stringify (JObj validatedData)) in
        ret validatedData
      else ret validatedData.

Definition generateStructuredDataForTool (tool : Tool) (distilledContext : string)
  : M JRecord :=
  tryCatch
    (let request :=
       mkRequest (ExtractionPrompt (parametersSchema tool) (tool_systemPrompt tool)
                    distilledContext)
                 ("Extract parameters for " +:+ tool_name tool) None in
     let* response := askArguments request in
     checkExtracted tool "Failed to generate valid structured data for tool"
       "Extracted data failed strict validation for tool" response)
    (fun e =>
       throw (AgentError
                ("LLM service error for tool '" +:+ tool_name tool +:+ "': "
                 +:+ errorMessage e)
                (Some (tool_name tool)) None)).

(** [error.message || String(error)] *)
Definition previousError (err : Exn) : string :=
  str_or (Some (errorMessage err)) (errorToString err).

Definition regenerateStructuredDataWithError (tool : Tool) (context0 : string)
    (err : Exn) : M JRecord :=
  tryCatch
    (let request :=
       mkRequest (RetryPrompt (parametersSchema tool) context0 (previousError err))
                 ("Regenerate parameters for " +:+ tool_name tool +:+ " with error feedback")
                 (Some "gpt-4o-mini") in
     let* response := askArguments request in
     checkExtracted tool "Failed to regenerate valid structured data for tool"
       "Regenerated data failed strict validation for tool" response)
    (fun e =>
       throw (AgentError
                ("LLM service error while regenerating data for tool '" +:+ tool_name tool
                 +:+ "': " +:+ errorMessage e)
                (Some (tool_name tool)) None)).

(** [!!context] *)
Definition truthy (s : option string) : bool :=
  match s with
  | Some s => negb (String.eqb s "")
  | None => false
  end.

(** Lines 434-478 of [callTool]: the arguments the call goes on with. *)
Definition effectiveArguments (tool : Tool) (toolName : string) (args : JRecord)
    (context0 : option string) (orchestratorCall : bool) : M JRecord :=
  let hasArguments := Nat.ltb 0 (size args) in
  let hasContext := truthy context0 in
  if (agentic tool && negb hasArguments && hasContext) || orchestratorCall
  then
    tryCatch
      (generateStructuredDataForTool tool
         (str_or context0 "Generate Arguments for the given tool."))
      (fun extractionError =>
         throw (AgentError
                  ("Failed to extract parameters for agentic tool '" +:+ toolName +:+ "': "
                   +:+ errorMessage extractionError)
                  (Some toolName) None))
  else if agentic tool && hasArguments then ret args
  else if agentic tool && negb hasContext
  then throw (AgentError
                ("Agentic tool '" +:+ toolName
                 +:+ "' requires either 'arguments' or 'context' to be provided")
                (Some toolName) None)
  else ret args.

(** The regeneration block of a retry (lines 505-551): on any failure the
    previous arguments stay. *)
Definition regenerateOnRetry (tool : Tool) (toolName : string) (context0 : option string)
    (lastError : Exn) (finalArgs : JRecord) : M JRecord :=
  tryCatch
    (let* regeneratedArgs :=
       regenerateStructuredDataWithError tool (default "" context0) lastError in
     let regeneratedValidationResult :=
       validateAgainstSchema regeneratedArgs (parametersSchema tool) in
     if negb (isValid regeneratedValidationResult)
     then
       let errs := str_or (join ", " <$> vr_errors regeneratedValidationResult)
                          "Unknown validation error" in
       throw (AgentError
                ("Regenerated data validation failed for '" +:+ toolName +:+ "': " +:+ errs)
                (Some toolName) None)
     else ret (default regeneratedArgs (vr_data regeneratedValidationResult)))
    (fun regenerationError => ret finalArgs).

(** The retry loop (lines 502-586). [remaining] counts the attempts still
    to make, so attempt [attempt] runs while [attempt <= maxRetries]. *)
Fixpoint retryLoop (tool : Tool) (toolName : string) (context0 : option string)
    (shouldRegenerateOnRetry : bool) (remaining attempt : nat)
    (finalArgs : JRecord) (lastError : option Exn) : M JValue :=
  match remaining with
  | 0 =>
      throw (AgentError
               ("Tool '" +:+ toolName +:+ "' failed after " +:+ pretty (maxRetries self)
                +:+ " attempts: "
                +:+ match lastError with
                    | Some e => errorMessage e
                    | None => "undefined"
                    end)
               (Some toolName) (Some (maxRetries self)))
  | S remaining' =>
      let* finalArgs' :=
        match lastError with
        | Some e =>
            if Nat.ltb 1 attempt && shouldRegenerateOnRetry
            then regenerateOnRetry tool toolName context0 e finalArgs
            else ret finalArgs
        | None => ret finalArgs
        end in
      tryCatch (runTool tool finalArgs')
        (fun e =>
           let* _ := (if Nat.ltb attempt (maxRetries self)
                      then sleep (retryDelay self) else ret tt) in
           retryLoop tool toolName context0 shouldRegenerateOnRetry
             remaining' (S attempt) finalArgs' (Some e))
  end.

Definition callTool (toolCall : ToolCall) (orchestratorCall : bool) : M JValue :=
  let toolName := tc_tool toolCall in
  let args := default ∅ (tc_arguments toolCall) in
  let context0 := tc_context toolCall in
  (* the message of the first log statement is built, verbose or not *)
  let* _ := evaluate (JSON_stringify (JObj args)) in
  let* tool := getTool toolName in
  let hasArguments := Nat.ltb 0 (size args) in
  let hasContext := truthy context0 in
  if negb hasArguments && negb hasContext
  then throw (AgentError
                ("Tool call for '" +:+ toolName
                 +:+ "' requires either 'arguments' or 'context' to be provided")
                (Some toolName) None)
  else
    let* finalArgs := effectiveArguments tool toolName args context0 orchestratorCall in
    let validationResult := validateAgainstSchema finalArgs (parametersSchema tool) in
    if negb (isValid validationResult)
    then
      let errs := str_or (join ", " <$> vr_errors validationResult)
                         "Unknown validation error" in
      throw (AgentError
               ("Tool call validation failed for '" +:+ toolName +:+ "': " +:+ errs)
               (Some toolName) None)
    else
      let finalArgs := default finalArgs (vr_data validationResult) in
      let shouldRegenerateOnRetry := agentic tool && negb hasArguments && hasContext in
      retryLoop tool toolName context0 shouldRegenerateOnRetry
        (maxRetries self) 1 finalArgs None.

(** The loop of [callTools]; the inner call is [this.callTool(toolCall)],
    whose second parameter takes its default. *)
Fixpoint callToolsLoop (toolCalls : list ToolCall) (results : list JValue)
  : M (list JValue) :=
  match toolCalls with
  | [] => ret results
  | toolCall :: rest =>
      let* result :=
        tryCatch (callTool toolCall false)
          (fun e =>
             if isAgentError e then throw e
             else throw (AgentError
                           ("Unexpected error in tool chain: " +:+ errorToString e)
                           None None)) in
      callToolsLoop rest (results ++ [result])
  end.

Definition callTools (toolCalls : list ToolCall) (orchestratorCall : bool)
  : M (list JValue) :=
  callToolsLoop toolCalls [].

Definition validateToolCall (toolCall : ToolCall) : bool * option (list string) :=
  let args := default ∅ (tc_arguments toolCall) in
  match findTool (tools self) (tc_tool toolCall) with
  | None => (false, Some ["Tool '" +:+ tc_tool toolCall +:+ "' not found"])
  | Some tool =>
      let validationResult := validateAgainstSchema args (parametersSchema tool) in
      let errs := if negb (isValid validationResult)
                  then default [] (vr_errors validationResult) else [] in
      (Nat.eqb (length errs) 0, if Nat.ltb 0 (length errs) then Some errs else None)
  end.
End Methods.


(** *** Changing the registry

    [addTool] and [removeTool] of [Agent] update [this.tools] in place;
    here they return the agent after the update. They carry the name of
    their class. *)
Definition set_tools (self : Agent) (ts : list Tool) : Agent :=
  mkAgent ts (maxRetries self) (retryDelay self) (verbose self) (llmService self).

Definition Agent_addTool (self : Agent) (tool : Tool) : Outcome Agent :=
  match findTool (tools self) (tool_name tool) with
  | Some _ =>
      Thrown (AgentError ("Tool '" +:+ tool_name tool +:+ "' already exists") None None)
  | None => Returned (set_tools self (tools self ++ [tool]))
  end.

(** [this.tools.delete(toolName)] and its result. *)
Definition Agent_removeTool (self : Agent) (toolName : string) : bool * Agent :=
  match findTool (tools self) toolName with
  | Some _ =>
      (true, set_tools self
               (filter (fun t => String.eqb (tool_name t) toolName = false) (tools self)))
  | None => (false, self)
  end.

(** The names in the registry, in insertion order. *)
Definition toolNames (self : Agent) : list string := map tool_name (tools self).


(** ** The orchestrator ([Orchestrator]) *)

(** *** Numbers

    The nearest double to an integer: every integer below [2^53] in
    magnitude is a double; beyond, the 53 leading bits are kept and the
    rest is rounded to nearest, ties to even. (The overflow to [Infinity],
    from [2^1024] on, is not represented.) *)
Definition toDouble (n : Z) : Z :=
  let a := Z.abs n in
  if (a <? 2 ^ 53)%Z then n
  else
    let ulp := (2 ^ (Z.log2 a - 52))%Z in
    let q := (a / ulp)%Z in
    let r := (a mod ulp)%Z in
    let q' := if (2 * r <? ulp)%Z then q
              else if (ulp <? 2 * r)%Z then (q + 1)%Z
              else if Z.even q then q else (q + 1)%Z in
    (Z.sgn n * (q' * ulp))%Z.

(** [a + b] and [a - b] on numbers. *)
Definition jsAdd (a b : Z) : Z := toDouble (a + b).
Definition jsSub (a b : Z) : Z := toDouble (a - b).

(** [values.map((v) => JSON.stringify(v))]: the first failure is thrown. *)
Fixpoint stringifyAll (values : list JValue) : Outcome (list string) :=
  match values with
  | [] => Returned []
  | v :: rest =>
      match JSON_stringify v with
      | Thrown e => Thrown e
      | Returned s =>
          match stringifyAll rest with
          | Thrown e => Thrown e
          | Returned l => Returned (s :: l)
          end
      end
  end.

(** [s.result] *)
Definition resultOfStep (s : ExecutionStep) : JValue :=
  default JUndefined (step_result s).

(** The fields of an [Orchestrator] object that the engine reads; [verbose]
    and [planningTemperature] go with the logging and the sampling
    temperature. The state is passed to the methods and returned by them. *)
Record Orchestrator : Type :=
  mkOrchestrator {
    agent : Agent;
    maxSteps : nat;
    maxIterations : nat;
  }.

Record OrchestratorConfig : Type :=
  mkOrchestratorConfig {
    cfg_agent : option Agent;
    cfg_maxSteps : option nat;
    cfg_maxIterations : option nat;
  }.

Definition newOrchestrator (config : OrchestratorConfig) : Outcome Orchestrator :=
  match cfg_agent config with
  | None => Thrown (OrchestratorError "Orchestrator requires an agent instance" None)
  | Some a =>
      Returned (mkOrchestrator a
                  (Nat.max 1 (default 10 (cfg_maxSteps config)))
                  (Nat.max 1 (default 5 (cfg_maxIterations config))))
  end.

Definition createInitialState (query : string) : OrchestratorState :=
  mkOrchestratorState query None [] 0 idle [] ∅ None.

(** Field updates of the state and of a step. *)
Definition set_status (s : OrchestratorStatus) (st : OrchestratorState) : OrchestratorState :=
  mkOrchestratorState (userQuery st) (plan st) (steps st) (currentStepIndex st) s
    (conversationHistory st) (context st) (state_error st).
Definition set_plan (p : string) (st : OrchestratorState) : OrchestratorState :=
  mkOrchestratorState (userQuery st) (Some p) (steps st) (currentStepIndex st) (status st)
    (conversationHistory st) (context st) (state_error st).
Definition set_steps (l : list ExecutionStep) (st : OrchestratorState) : OrchestratorState :=
  mkOrchestratorState (userQuery st) (plan st) l (currentStepIndex st) (status st)
    (conversationHistory st) (context st) (state_error st).
Definition set_currentStepIndex (i : Z) (st : OrchestratorState) : OrchestratorState :=
  mkOrchestratorState (userQuery st) (plan st) (steps st) i (status st)
    (conversationHistory st) (context st) (state_error st).
Definition push_history (line : string) (st : OrchestratorState) : OrchestratorState :=
  mkOrchestratorState (userQuery st) (plan st) (steps st) (currentStepIndex st) (status st)
    (conversationHistory st ++ [line]) (context st) (state_error st).
Definition set_context (k : string) (v : JValue) (st : OrchestratorState) : OrchestratorState :=
  mkOrchestratorState (userQuery st) (plan st) (steps st) (currentStepIndex st) (status st)
    (conversationHistory st) (<[k := v]> (context st)) (state_error st).
Definition set_error (e : string) (st : OrchestratorState) : OrchestratorState :=
  mkOrchestratorState (userQuery st) (plan st) (steps st) (currentStepIndex st) (status st)
    (conversationHistory st) (context st) (Some e).

Definition complete_step (r : JValue) (s : ExecutionStep) : ExecutionStep :=
  mkExecutionStep (stepNumber s) (step_description s) (toolCall s) true (Some r)
    (step_error s) (dependsOn s).
Definition fail_step (msg : string) (s : ExecutionStep) : ExecutionStep :=
  mkExecutionStep (stepNumber s) (step_description s) (toolCall s) (step_completed s)
    (step_result s) (Some msg) (dependsOn s).
Definition renumber (n : Z) (s : ExecutionStep) : ExecutionStep :=
  mkExecutionStep n (step_description s) (toolCall s) (step_completed s)
    (step_result s) (step_error s) (dependsOn s).

(** A method of the orchestrator: it also reads and writes [this.state],
    and what it wrote stays written when it throws. *)
Definition OM (A : Type) : Type :=
  OrchestratorState -> World -> Outcome A * OrchestratorState * World.

Section OrchestratorMethods.
Variable self : Orchestrator.

(** [steps.filter((s) => s.completed)] *)
Definition completedOf (l : list ExecutionStep) : list ExecutionStep :=
  filter (fun s => step_completed s = true) l.

Definition toolsDescription : list (string * string * ParametersSchema) :=
  map (fun t => (tool_name t, tool_description t, parametersSchema t))
      (getTools (agent self)).

(** [completedStepsInfo] in [generatePlan]: the lines that show the
    results of the completed steps in the prompt of a regeneration. *)
Definition completedStepsInfo (previousPlan : option PlanningResponse)
    (completedSteps : option (list ExecutionStep)) : Outcome (list string) :=
  match previousPlan, completedSteps with
  | Some _, Some done => stringifyAll (map resultOfStep done)
  | _, _ => Returned []
  end.

Definition generatePlan (query : string) (systemPrompt : option string)
    (previousPlan : option PlanningResponse)
    (completedSteps : option (list ExecutionStep)) : OM PlanningResponse :=
  fun st w =>
    let isRegeneration := bool_decide (is_Some previousPlan) in
    let st := set_status planning st in
    let request :=
      mkRequest
        (PlanningPrompt query toolsDescription systemPrompt
           (match previousPlan, completedSteps with
            | Some prev, Some done => Some (pl_plan prev, done)
            | _, _ => None
            end))
        (if isRegeneration then "Regenerated action plan for agent orchestrator"
         else "Action plan for agent orchestrator")
        None in
    let failed (msg : string) :=
      Thrown (OrchestratorError ("Planning failed: " +:+ msg) None) in
    (* the prompt of a regeneration shows the results of the completed
       steps; it is built before the [try] *)
    match completedStepsInfo previousPlan completedSteps with
    | Thrown e => (Thrown e, st, w)
    | Returned _ =>
        match perform (EvStructuredOutput request)
                (getPlan (llmService (agent self)) request) w with
        | (Thrown e, w') => (failed (errorMessage e), st, w')
        | (Returned response, w') =>
            match (if resp_isValid response then structuredData response else None) with
            | None =>
                (failed ("Failed to generate valid plan: "
                         +:+ match validationErrors response with
                             | Some errs => join ", " errs
                             | None => "undefined"
                             end), st, w')
            | Some planData =>
                let st := set_plan (pl_plan planData) st in
                let st := push_history
                            ((if isRegeneration then "Plan regenerated: "
                              else "Plan generated: ")
                             +:+ pl_plan planData) st in
                (Returned planData, st, w')
            end
        end
    end.

Definition convertToExecutionSteps (planResponse : PlanningResponse)
  : list ExecutionStep :=
  map (fun step =>
         mkExecutionStep (ps_stepNumber step) (ps_description step)
           (mkToolCall (ps_tool step) (Some (default ∅ (ps_arguments step))) None)
           false None None (Some (default [] (ps_dependsOn step))))
      (default [] (pl_steps planResponse)).

(** The two parts of the prompt of [determineNextStep] that are
    serialized: the results of the completed steps, then the context
    ([JSON.stringify] with an indentation, which throws on the same
    values). *)
Definition stateInfo (st : OrchestratorState) : Outcome (list string * string) :=
  match stringifyAll (map resultOfStep (completedOf (steps st))) with
  | Thrown e => Thrown e
  | Returned completedSteps =>
      match JSON_stringify (JObj (context st)) with
      | Thrown e => Thrown e
      | Returned contextText => Returned (completedSteps, contextText)
      end
  end.

Definition determineNextStep : OM NextStepResponse :=
  fun st w =>
    let request :=
      mkRequest (NextStepPrompt st toolsDescription)
                "Next step decision for agent orchestrator" None in
    let failed (msg : string) :=
      Thrown (OrchestratorError ("Next step decision failed: " +:+ msg) None) in
    (* the prompt is built before the [try] *)
    match stateInfo st with
    | Thrown e => (Thrown e, st, w)
    | Returned _ =>
        match perform (EvStructuredOutput request)
                (getDecision (llmService (agent self)) request) w with
        | (Thrown e, w') => (failed (errorMessage e), st, w')
        | (Returned response, w') =>
            match (if resp_isValid response then structuredData response else None) with
            | None =>
                (failed ("Failed to determine next step: "
                         +:+ match validationErrors response with
                             | Some errs => join ", " errs
                             | None => "undefined"
                             end), st, w')
            | Some decision => (Returned decision, st, w')
            end
        end
    end.

(** [this.state.steps.find((s) => s.stepNumber === depNum)] *)
Definition findStep (l : list ExecutionStep) (depNum : Z) : option ExecutionStep :=
  find (fun s => Z.eqb (stepNumber s) depNum) l.

(** [depStep && depStep.completed] *)
Definition depCompleted (l : list ExecutionStep) (depNum : Z) : bool :=
  match findStep l depNum with
  | Some depStep => step_completed depStep
  | None => false
  end.

(** The rendering of one dependency result in the distilled context:
    the text of a string, a number or a boolean, [JSON.stringify] of an
    array or an object ([null] included), and [String] of anything else
    and of what [JSON.stringify] throws on. *)
Definition renderResult (r : JValue) : string :=
  match r with
  | JStr s => s
  | JNum n => pretty n
  | JBool b => if b then "true" else "false"
  | JArr _ | JObj _ | JNull | JObjectPrototype =>
      match JSON_stringify r with
      | Returned text => text
      | Thrown _ => String_of r
      end
  | JUndefined | JFunction _ => String_of r
  end.

Definition distillContextForAgenticTool (st : OrchestratorState) (step : ExecutionStep)
  : string :=
  let context0 := "Task: " +:+ userQuery st in
  let context1 := context0 +:+ "

Current action: " +:+ step_description step in
  let dataPoints :=
    flat_map (fun depStepNum =>
      match findStep (steps st) depStepNum with
      | Some depStep =>
          match step_result depStep with
          | Some r =>
              if step_completed depStep && negb (match r with JUndefined => true | _ => false end)
              then ["Step " +:+ pretty (stepNumber depStep) +:+ " ("
                    +:+ step_description depStep +:+ "):" +:+ "
" +:+ renderResult r]
              else []
          | None => []
          end
      | None => []
      end) (default [] (dependsOn step)) in
  if Nat.ltb 0 (length dataPoints)
  then context1 +:+ "

Available data from previous steps:
" +:+ join "

" dataPoints
  else context1.

(** [executeStep(step)], where [step] is the object at index [i] of
    [this.state.steps]; what the method writes to the step is written
    there. *)
Definition executeStep (i : nat) (step : ExecutionStep) : OM JValue :=
  fun st w =>
    let unsatisfiedDeps :=
      filter (fun depNum => negb (depCompleted (steps st) depNum) = true)
             (default [] (dependsOn step)) in
    if Nat.ltb 0 (length unsatisfiedDeps)
    then (Thrown (OrchestratorError
                    ("Step " +:+ pretty (stepNumber step) +:+ " depends on steps "
                     +:+ join ", " (map pretty unsatisfiedDeps)
                     +:+ " which are not yet completed")
                    (Some (stepNumber step))), st, w)
    else
      let st := set_status executing st in
      let tool := find (fun t => String.eqb (tool_name t) (tc_tool (toolCall step)))
                       (getTools (agent self)) in
      let isAgentic := match tool with Some t => agentic t | None => false end in
      let distilledContext :=
        if isAgentic then distillContextForAgenticTool st step else userQuery st in
      let toolCallWithContext :=
        if isAgentic
           && match tc_arguments (toolCall step) with
              | Some a => Nat.eqb (size a) 0
              | None => true
              end
        then mkToolCall (tc_tool (toolCall step)) (tc_arguments (toolCall step))
               (Some distilledContext)
        else toolCall step in
      match callTool (agent self) toolCallWithContext true w with
      | (Returned result, w') =>
          let st := set_steps (<[i := complete_step result step]> (steps st)) st in
          let st := set_context ("step_" +:+ pretty (stepNumber step) +:+ "_result") result st in
          let st := push_history ("Step " +:+ pretty (stepNumber step) +:+ " completed: "
                                  +:+ step_description step) st in
          (Returned result, st, w')
      | (Thrown e, w') =>
          let msg := errorMessage e in
          let st := set_steps (<[i := fail_step msg step]> (steps st)) st in
          let st := push_history ("Step " +:+ pretty (stepNumber step) +:+ " failed: " +:+ msg) st in
          (Thrown (OrchestratorError
                     ("Step " +:+ pretty (stepNumber step) +:+ " execution failed: " +:+ msg)
                     (Some (stepNumber step))), st, w')
      end.

(** The steps of [this.state.steps] with their positions: a position is
    what a reference to a step object is in the source. *)
Definition indexed (l : list ExecutionStep) : list (nat * ExecutionStep) :=
  zip (seq 0 (length l)) l.

(** [step.dependsOn] empty or all completed. *)
Definition executable (l : list ExecutionStep) (step : ExecutionStep) : bool :=
  match default [] (dependsOn step) with
  | [] => true
  | deps => forallb (depCompleted l) deps
  end.

(** [reduce((min, step) => step.stepNumber < min.stepNumber ? step : min)] *)
Definition lowest (first : nat * ExecutionStep) (rest : list (nat * ExecutionStep))
  : nat * ExecutionStep :=
  fold_left (fun min step =>
               if Z.ltb (stepNumber (snd step)) (stepNumber (snd min)) then step else min)
            rest first.

Definition findNextExecutableStep (st : OrchestratorState) : option (nat * ExecutionStep) :=
  let pendingSteps :=
    filter (fun s => negb (step_completed (snd s)) = true) (indexed (steps st)) in
  match pendingSteps with
  | [] => None
  | firstPending :: _ =>
      let executableSteps :=
        filter (fun s => executable (steps st) (snd s) = true) pendingSteps in
      match executableSteps with
      | [] => Some firstPending
      | first :: rest => Some (lowest first rest)
      end
  end.

(** [Math.max(...this.state.steps.map((s) => s.stepNumber), 0)] *)
Definition maxStepNumber (l : list ExecutionStep) : Z :=
  fold_right Z.max 0%Z (map stepNumber l).

(** Lines 1560-1583 of [execute]: the steps after a replanning. *)
Definition mergeRegeneratedPlan (old : list ExecutionStep) (planResponse : PlanningResponse)
  : list ExecutionStep :=
  let completedSteps := completedOf old in
  let newSteps :=
    imap (fun index step => renumber (jsAdd (jsAdd (maxStepNumber old) (Z.of_nat index)) 1) step)
         (convertToExecutionSteps planResponse) in
  completedSteps
  ++ filter (fun newStep =>
               negb (existsb (fun cs => Z.eqb (stepNumber cs) (stepNumber newStep))
                             completedSteps) = true)
            newSteps.

Definition maxPlanRegenerations : nat := 3.

Definition resultOf (ok : bool) (response : string) (err : option string)
    (st : OrchestratorState) : OrchestratorResult :=
  mkOrchestratorResult ok response (completedOf (steps st)) st err.

(** What one turn of the [while] loop of [execute] ends in. *)
Inductive LoopStep : Type :=
  | Finish (r : OrchestratorResult)
  | Continue (planRegenerationCount : nat) (planResponse : PlanningResponse)
      (st : OrchestratorState)
  | Raise (e : Exn) (st : OrchestratorState).

(** The body of the [while] loop of [execute] (lines 1488-1590). *)
Definition executeIteration (query : string) (systemPrompt : option string)
    (planRegenerationCount : nat) (planResponse : PlanningResponse)
    (st : OrchestratorState) (w : World) : LoopStep * World :=
  match findNextExecutableStep st with
  | None =>
      let st := set_status completed st in
      match determineNextStep st w with
      | (Returned finalDecision, st, w') =>
          (Finish (resultOf true
                     (str_or (ns_finalResponse finalDecision)
                             "All planned steps completed successfully.")
                     None st), w')
      | (Thrown e, st, w') => (Raise e st, w')
      end
  | Some (i, nextStep) =>
      if Nat.leb (maxSteps self) (length (steps st))
      then
        let st := set_status completed st in
        (Finish (resultOf true "Execution completed (reached maximum steps limit)."
                   None st), w)
      else
        let st := set_currentStepIndex (jsSub (stepNumber nextStep) 1) st in
        match executeStep i nextStep st w with
        | (Returned _, st, w') => (Continue planRegenerationCount planResponse st, w')
        | (Thrown stepError, st, w') =>
            if Nat.leb maxPlanRegenerations planRegenerationCount
            then
              let st := set_status error st in
              let msg := errorMessage stepError in
              let st := set_error msg st in
              (Finish (resultOf false
                         ("Execution failed after " +:+ pretty maxPlanRegenerations
                          +:+ " plan regenerations: " +:+ msg)
                         (Some msg) st), w')
            else
              let completedSteps := completedOf (steps st) in
              let planRegenerationCount := S planRegenerationCount in
              match generatePlan query systemPrompt (Some planResponse)
                      (Some completedSteps) st w' with
              | (Thrown e, st, w'') => (Raise e st, w'')
              | (Returned planResponse, st, w'') =>
                  let st := set_steps (mergeRegeneratedPlan (steps st) planResponse) st in
                  (Continue planRegenerationCount planResponse st, w'')
              end
        end
  end.

(** The outer [catch] of [execute]. *)
Definition executionFailed (e : Exn) (st : OrchestratorState) : OrchestratorResult :=
  let st := set_status error st in
  let msg := errorMessage e in
  let st := set_error msg st in
  resultOf false ("Execution failed: " +:+ msg) (Some msg) st.

(** The [while] loop of [execute] and the code after it. One unit of
    [fuel] pays for one evaluation of the loop condition. *)
Fixpoint executeLoop (fuel : nat) (query : string) (systemPrompt : option string)
    (planRegenerationCount : nat) (planResponse : PlanningResponse)
    (st : OrchestratorState) (w : World) : option (OrchestratorResult * World) :=
  match fuel with
  | 0 => None
  | S fuel' =>
      if Nat.leb planRegenerationCount maxPlanRegenerations
      then
        match executeIteration query systemPrompt planRegenerationCount planResponse st w with
        | (Finish r, w') => Some (r, w')
        | (Continue planRegenerationCount' planResponse' st', w') =>
            executeLoop fuel' query systemPrompt planRegenerationCount' planResponse' st' w'
        | (Raise e st', w') => Some (executionFailed e st', w')
        end
      else
        let st := set_status completed st in
        Some (resultOf true "Execution completed (reached maximum plan regenerations)."
                None st, w)
  end.

Definition execute (fuel : nat) (query : string) (systemPrompt : option string)
    (w : World) : option (OrchestratorResult * World) :=
  let st := createInitialState query in
  match generatePlan query systemPrompt None None st w with
  | (Thrown e, st, w') => Some (executionFailed e st, w')
  | (Returned planResponse, st, w') =>
      let st := set_steps (convertToExecutionSteps planResponse) st in
      if pl_isComplete planResponse && Nat.eqb (length (steps st)) 0
      then
        let st := set_status completed st in
        Some (mkOrchestratorResult true
                "Task completed successfully without requiring tool calls."
                [] st None, w')
      else executeLoop fuel query systemPrompt 0 planResponse st w'
  end.
End OrchestratorMethods.


(** *** Resuming a run ([continue], [reset]) *)

(** [reset()]: the state it leaves. *)
Definition reset : OrchestratorState := createInitialState "".

(** What one turn of the [while] loop of [continue] ends in: a [return],
    a [break], the next turn, or an exception for the outer [catch]. *)
Inductive Turn : Type :=
  | Done (r : OrchestratorResult)
  | Break (st : OrchestratorState)
  | Next (st : OrchestratorState)
  | Failed (e : Exn) (st : OrchestratorState).

(** The successful results of [continue]: the status is set, then the
    result is built on the state. *)
Definition finished (response : string) (st : OrchestratorState) : OrchestratorResult :=
  resultOf true response None (set_status completed st).

Section Continue.
Variable self : Orchestrator.

(** The step the loop of [continue] goes on with: the one the decision
    asks for, pushed on [this.state.steps], or the first step that is
    not completed. *)
Definition stepToExecute (decision : NextStepResponse) (st : OrchestratorState)
  : option (nat * ExecutionStep) * OrchestratorState :=
  match nextStep decision with
  | Some next =>
      let newStep :=
        mkExecutionStep (Z.of_nat (length (steps st)) + 1)%Z (ps_description next)
          (mkToolCall (ps_tool next) (Some (default ∅ (ps_arguments next))) None)
          false None None None in
      (Some (length (steps st), newStep), set_steps (steps st ++ [newStep]) st)
  | None =>
      (find (fun s => negb (step_completed (snd s))) (indexed (steps st)), st)
  end.

(** [determineNextStep()] followed by the test of [shouldContinue]: the
    result when the decision is to stop, the decision otherwise. *)
Definition decideNext (fallback : string) (st : OrchestratorState) (w : World)
  : (Turn + NextStepResponse) * OrchestratorState * World :=
  match determineNextStep self st w with
  | (Thrown e, st, w') => (inl (Failed e st), st, w')
  | (Returned decision, st, w') =>
      if negb (shouldContinue decision)
      then (inl (Done (finished (str_or (ns_finalResponse decision) fallback) st)), st, w')
      else (inr decision, st, w')
  end.

(** The body of the [while] loop of [continue]. *)
Definition continueIteration (st : OrchestratorState) (w : World) : Turn * World :=
  if Nat.leb (maxSteps self) (length (steps st)) then (Break st, w)
  else
    let allStepsCompleted :=
      Nat.ltb 0 (length (steps st)) && forallb step_completed (steps st) in
    match (if allStepsCompleted
           then decideNext "All steps completed successfully." st w
           else (inr (mkNextStepResponse true None None None), st, w)) with
    | (inl turn, _, w) => (turn, w)
    | (inr _, st, w) =>
        match decideNext "Task completed successfully." st w with
        | (inl turn, _, w) => (turn, w)
        | (inr decision, st, w) =>
            match stepToExecute decision st with
            | (None, st) =>
                match decideNext "All planned steps completed successfully." st w with
                | (inl turn, _, w) => (turn, w)
                | (inr _, st, w) => (Break st, w)
                end
            | (Some (i, step), st) =>
                let st := set_currentStepIndex (jsSub (stepNumber step) 1) st in
                match executeStep self i step st w with
                | (Thrown e, st, w) => (Failed e st, w)
                | (Returned _, st, w) =>
                    if forallb step_completed (steps st)
                    then
                      match decideNext "All steps completed successfully." st w with
                      | (inl turn, _, w) => (turn, w)
                      | (inr _, st, w) => (Break st, w)
                      end
                    else (Next st, w)
                end
            end
        end
    end.

(** The [while] loop of [continue], the code after it and the outer
    [catch]; [remaining] is [maxIterations - iterations]. *)
Fixpoint continueLoop (remaining : nat) (st : OrchestratorState) (w : World)
  : OrchestratorResult * World :=
  match remaining with
  | 0 => (finished "Execution completed (reached maximum iterations)." st, w)
  | S remaining' =>
      match continueIteration st w with
      | (Done r, w') => (r, w')
      | (Break st', w') =>
          (finished "Execution completed (reached maximum iterations)." st', w')
      | (Next st', w') => continueLoop remaining' st' w'
      | (Failed e st', w') => (executionFailed e st', w')
      end
  end.

Definition continue (st : OrchestratorState) (w : World)
  : Outcome OrchestratorResult * World :=
  match status st with
  | completed => (Returned (resultOf true "Execution already completed." None st), w)
  | idle =>
      (Thrown (OrchestratorError
                 "Cannot continue: No execution in progress. Call execute() first." None),
       w)
  | _ =>
      let '(r, w') := continueLoop (maxIterations self) st w in
      (Returned r, w')
  end.
End Continue.

End Engine.

Arguments World W : clear implicits.
Arguments M W A : clear implicits.
Arguments ILLMService W : clear implicits.
Arguments Tool W : clear implicits.
Arguments Agent W : clear implicits.
Arguments AgentConfig W : clear implicits.
Arguments Orchestrator W : clear implicits.
Arguments OrchestratorConfig W : clear implicits.
Arguments OM W A : clear implicits.


(** ** Observing a run through its trace *)

Definition isExecuteEvent (ev : Event) : bool :=
  match ev with
  | EvExecute _ _ => true
  | _ => false
  end.

(** The world [w'] continues [w]: its trace is that of [w] followed by
    events that all satisfy [P]. *)
Definition continues {W : Type} (P : Event -> bool) (w w' : World W) : Prop :=
  ∃ evs, trace w' = trace w ++ evs ∧ forallb P evs = true.


Definition notGateway (ev : Event) : bool := negb (isGatewayEvent ev).


(** [pendingSteps] in [findNextExecutableStep]: the steps not yet completed,
    with their positions, in the order of [this.state.steps]. *)
Definition pendingOf (st : OrchestratorState) : list (nat * ExecutionStep) :=
  filter (fun s => negb (step_completed (snd s)) = true) (indexed (steps st)).

(** The descriptions of the requests sent to the gateway, in order. *)
Definition gatewayRequests {W : Type} (w : World W) : list string :=
  flat_map (fun ev => match ev with
                      | EvStructuredOutput r => [req_description r]
                      | _ => []
                      end) (trace w).

(** [newSteps] after renumbering, in the replanning branch of [execute]. *)
Definition renumbered (old : list ExecutionStep) (planResponse : PlanningResponse)
  : list ExecutionStep :=
  imap (fun index step => renumber (jsAdd (jsAdd (maxStepNumber old) (Z.of_nat index)) 1) step)
       (convertToExecutionSteps planResponse).

(** The steps of the new plan that the replanning branch keeps: those whose
    new number is not the number of a completed step. *)
Definition replanned (old : list ExecutionStep) (planResponse : PlanningResponse)
  : list ExecutionStep :=
  filter (fun newStep =>
            negb (existsb (fun cs => Z.eqb (stepNumber cs) (stepNumber newStep))
                          (completedOf old)) = true)
         (renumbered old planResponse).


(** The number of steps still to complete. *)
Definition pendingCount (st : OrchestratorState) : nat :=
  length (filter (fun s => step_completed s = false) (steps st)).


(** The record is what the validator hands back for some record that
    validates against the schema. *)
Definition validatedData (schema : ParametersSchema) (a : JRecord) : Prop :=
  ∃ raw, validateAgainstSchema raw schema = mkValidationResult true (Some a) None.

(** The declared properties have ordinary names and the validator [vp] of
    properties hands back every field of the record as it is. *)
Definition handedBack (vp : JValue -> OpenAPISchemaProperty -> string -> PropertyResult)
    (data : JRecord) (props : list (string * OpenAPISchemaProperty)) : Prop :=
  Forall (fun kp => inObjectPrototype (fst kp) = false
                    ∧ ∀ v, data !! fst kp = Some v → vp v (snd kp) (fst kp) = propOk v)
         props.


(** The invocations of tools among some events, in order. *)
Definition invocations (evs : list Event) : list (string * JRecord) :=
  flat_map (fun ev => match ev with
                      | EvExecute name args => [(name, args)]
                      | _ => []
                      end) evs.

(** The call asks for extraction: the tool is agentic, no arguments are
    given and a context is. *)
Definition asksExtraction {W : Type} (tool : Tool W) (toolCall : ToolCall) : bool :=
  agentic tool && negb (Nat.ltb 0 (size (default ∅ (tc_arguments toolCall))))
  && truthy (tc_context toolCall).

(** The requests sent to the gateway among some events, in order. *)
Definition requestsIn (evs : list Event) : list StructuredOutputRequest :=
  flat_map (fun ev => match ev with
                      | EvStructuredOutput request => [request]
                      | _ => []
                      end) evs.


(** ** What a run keeps and what a result says *)

(** The result agrees with the state it carries: it lists the completed
    steps of that state, and it reports success with the status [completed]
    and no error, or failure with the status [error] and the error message
    that the state records. *)
Definition coherent (r : OrchestratorResult) : Prop :=
  result_steps r = completedOf (steps (result_state r))
  ∧ ((success r = true ∧ status (result_state r) = completed ∧ result_error r = None)
     ∨ (success r = false ∧ status (result_state r) = error
        ∧ ∃ msg, result_error r = Some msg ∧ state_error (result_state r) = Some msg)).

(** The later state answers the same query, it still has every step that
    was completed in the earlier one, as it was, and every step completed
    since then holds a result. *)
Definition keeps (st st' : OrchestratorState) : Prop :=
  userQuery st' = userQuery st
  ∧ (∀ s, s ∈ completedOf (steps st) → s ∈ completedOf (steps st'))
  ∧ (∀ s, s ∈ completedOf (steps st') →
       s ∈ completedOf (steps st) ∨ is_Some (step_result s)).

(** The requests for a plan among some events. *)
Definition isPlanningRequest (ev : Event) : bool :=
  match ev with
  | EvStructuredOutput request =>
      match prompt request with
      | PlanningPrompt _ _ _ _ => true
      | _ => false
      end
  | _ => false
  end.

Definition planningRequests (evs : list Event) : nat :=
  length (filter (fun ev => isPlanningRequest ev = true) evs).

(** What the agent does to its collaborators: invocations of tools, pauses,
    and requests to extract or regenerate arguments. *)
Definition isAgentEvent (ev : Event) : bool :=
  match ev with
  | EvStructuredOutput request =>
      match prompt request with
      | ExtractionPrompt _ _ _ | RetryPrompt _ _ _ => true
      | _ => false
      end
  | _ => true
  end.

(** The number of tool invocations and of requests for a plan that a world
    has seen. *)
Definition toolInvocations {W : Type} (w : World W) : nat :=
  length (invocations (trace w)).

Definition plansAsked {W : Type} (w : World W) : nat :=
  planningRequests (trace w).

(** The tool invocations that the loop of [execute] can still make: none
    once the list of steps has reached [maxSteps], otherwise one for each
    pending step and [maxSteps] for each regeneration left. *)
Definition callsLeft {W : Type} (self : Orchestrator W) (count : nat)
    (st : OrchestratorState) : nat :=
  if Nat.leb (maxSteps self) (length (steps st)) then 0
  else pendingCount st + (maxPlanRegenerations - count) * maxSteps self.


(** ** Sample inputs

    Concrete schemas, records, tools and gateways on which the statements
    below are evaluated. *)

Definition exampleSchema : OpenAPISchema :=
  mkSchema
    [("name", mkProperty "string" None None None None None None None (Some 1) (Some 8));
     ("age", mkProperty "integer" None None None None None (Some 0%Z) (Some 150%Z) None None);
     ("role", mkProperty "string" None None None None (Some [EStr "admin"; EStr "user"])
                None None None None);
     ("tags", mkProperty "array" None (Some (typeOnly "string")) None None None None None None None);
     ("address", mkProperty "object" None None
                   (Some [("city", typeOnly "string"); ("zip", typeOnly "number")])
                   (Some ["city"]) None None None None None)]
    (Some ["name"; "age"]).

Definition exampleParameters : ParametersSchema := OpenAPIFormat exampleSchema eq_refl.

Definition exampleRecord : JRecord :=
  <["name" := JStr "Ada"]>
    (<["age" := JNum 36]>
       (<["tags" := JArr [JStr "x"; JStr "y"]]>
          (<["address" := JObj (<["city" := JStr "London"]> ∅)]> ∅))).


(** A record with a wrongly typed field, a missing required field and an
    undeclared field. *)
Definition badRecord : JRecord :=
  <["age" := JStr "old"]> (<["nickname" := JStr "A"]> ∅).

(** A world whose external state counts the tool invocations. *)
Definition startWorld : World nat := mkWorld 0 [].

Definition addSchema : ParametersSchema :=
  SimplifiedFormat [("a", SEType "number"); ("b", SEType "number")] eq_refl.

(** A plain tool that adds its two arguments. *)
Definition addTool : Tool nat :=
  mkTool "add" "Adds two numbers" addSchema
    (fun args n =>
       (Returned (JNum (numValue (getField (JObj args) "a") + numValue (getField (JObj args) "b"))), S n))
    false true None.

Definition searchSchema : ParametersSchema :=
  SimplifiedFormat [("query", SEType "string")] eq_refl.

(** An agentic tool whose [execute] always throws. *)
Definition searchTool : Tool nat :=
  mkTool "search" "Searches the web" searchSchema
    (fun _ n => (Thrown (PlainError "Error" "network down"), S n))
    true true None.

(** A gateway that fails on every request. *)
Definition offlineGateway : ILLMService nat :=
  mkLLMService
    (fun _ n => (Thrown (PlainError "Error" "offline"), n))
    (fun _ n => (Thrown (PlainError "Error" "offline"), n))
    (fun _ n => (Thrown (PlainError "Error" "offline"), n)).

Definition searchArguments : JRecord := <["query" := JStr "rocq"]> ∅.

Definition searchPlan : PlanningResponse :=
  mkPlanningResponse "Search the web"
    (Some [mkPlannedStep 1 "Look the answer up" "search" None None]) false.

(** A gateway that always answers: the same arguments, the same one-step
    plan, and a decision to stop. *)
Definition scriptedGateway : ILLMService nat :=
  mkLLMService
    (fun _ n => (Returned (mkResponse "" (Some searchArguments) true None), n))
    (fun _ n => (Returned (mkResponse "" (Some searchPlan) true None), n))
    (fun _ n => (Returned (mkResponse ""
                             (Some (mkNextStepResponse false None (Some "Done.") None))
                             true None), n)).

Definition sampleAgent (gateway : ILLMService nat) : Agent nat :=
  mkAgent [addTool; searchTool] 2 0 false gateway.

Definition addCall : ToolCall :=
  mkToolCall "add" (Some (<["a" := JNum 5]> (<["b" := JNum 3]> ∅))) None.

Definition searchCall : ToolCall :=
  mkToolCall "search" (Some (<["query" := JStr "coq"]> ∅)) (Some "Find rocq").

Definition sampleOrchestrator : Orchestrator nat :=
  mkOrchestrator (sampleAgent scriptedGateway) 10 5.

(** Stand-ins for [JSON.stringify] and [String] on the sample runs. *)
Definition sampleStringify (v : JValue) : Outcome string := Returned "{}".
Definition sampleString (v : JValue) : string := "[object Object]".



(** A run in progress: step 1 is done, step 2 waits for it. *)
Definition doneStep : ExecutionStep :=
  mkExecutionStep 1 "Add 5 and 3" addCall true (Some (JNum 8)) None (Some []).

Definition waitingStep : ExecutionStep :=
  mkExecutionStep 2 "Look the sum up" (mkToolCall "search" (Some ∅) None)
    false None None (Some [1%Z]).

Definition runningState : OrchestratorState :=
  mkOrchestratorState "Add, then search" (Some "Add and search") [doneStep; waitingStep]
    0 executing [] (<["step_1_result" := JNum 8]> ∅) None.

(** The sample orchestrator with room for a single step. *)
Definition tightOrchestrator : Orchestrator nat :=
  mkOrchestrator (sampleAgent scriptedGateway) 1 5.


(** A plain tool that hands its arguments back. *)
Definition echoTool : Tool nat :=
  mkTool "echo" "Returns its arguments" (SimplifiedFormat [("text", SEType "string")] eq_refl)
    (fun args n => (Returned (JObj args), S n))
    false true None.

(** A call of [add] whose second argument is missing. *)
Definition shortCall : ToolCall :=
  mkToolCall "add" (Some (<["a" := JNum 5]> ∅)) None.

(** The run in progress, with one more completed step that nothing depends
    on. *)
Definition unrelatedStep : ExecutionStep :=
  mkExecutionStep 7 "Echo" (mkToolCall "echo" (Some ∅) None) true (Some (JStr "secret"))
    None None.

Definition longerState : OrchestratorState :=
  set_steps (steps runningState ++ [unrelatedStep]) runningState.




(** * Properties of the validator *)

Section ValidationFacts.

Lemma property_nested_ind (P : OpenAPISchemaProperty -> Prop) :
  (∀ t d it ps rq en mn mx ml mxl,
      (∀ i, it = Some i → P i) →
      (∀ l, ps = Some l → Forall (fun kp => P (snd kp)) l) →
      P (mkProperty t d it ps rq en mn mx ml mxl)) →
  ∀ p, P p.
Proof.
  intros step.
  refine (fix IH (p : OpenAPISchemaProperty) : P p :=
            match p with
            | mkProperty t d it ps rq en mn mx ml mxl =>
                step t d it ps rq en mn mx ml mxl
                  (match it as o return (∀ i, o = Some i → P i) with
                   | Some j => fun i e => _
                   | None => fun i e => _
                   end)
                  (match ps as o return (∀ l, o = Some l → Forall (fun kp => P (snd kp)) l) with
                   | Some l0 => fun l e =>
                       eq_ind l0 (Forall (fun kp => P (snd kp)))
                         ((fix go (l1 : list (string * OpenAPISchemaProperty))
                             : Forall (fun kp => P (snd kp)) l1 :=
                             match l1 with
                             | [] => List.Forall_nil _
                             | kp :: l2 => List.Forall_cons _ kp l2 (IH (snd kp)) (go l2)
                             end) l0) l _
                   | None => fun l e => _
                   end)
            end).
  - injection e as <-. exact (IH j).
  - discriminate e.
  - congruence.
  - discriminate e.
Qed.

Lemma str_eqb_eq (a b : string) : String.eqb a b = true ↔ a = b.
Proof. apply String.eqb_eq. Qed.

Lemma includes_true (l : list string) (s : string) : includes l s = true ↔ s ∈ l.
Proof.
  unfold includes. rewrite existsb_exists. split.
  - intros (x & Hin & Heq). apply String.eqb_eq in Heq. subst.
    by apply list_elem_of_In.
  - intros Hin. exists s. split; [by apply list_elem_of_In | apply String.eqb_refl].
Qed.

Lemma ownProperty_true (props : list (string * OpenAPISchemaProperty)) (k : string) :
  ownProperty props k = true ↔ ∃ p, (k, p) ∈ props.
Proof.
  unfold ownProperty. rewrite existsb_exists. split.
  - intros ([k' p] & Hin & Heq). apply String.eqb_eq in Heq. simpl in Heq. subst.
    exists p. by apply list_elem_of_In.
  - intros (p & Hin). exists (k, p). split; [by apply list_elem_of_In | apply String.eqb_refl].
Qed.

Lemma declared_true (props : list (string * OpenAPISchemaProperty)) (k : string) :
  declared props k = true ↔ (∃ p, (k, p) ∈ props) ∨ inObjectPrototype k = true.
Proof. unfold declared. by rewrite orb_true_iff, ownProperty_true. Qed.

Lemma ownProperty_keys (props : list (string * OpenAPISchemaProperty)) (k : string) :
  ownProperty props k = true ↔ k ∈ map fst props.
Proof.
  rewrite ownProperty_true, list_elem_of_fmap. split.
  - intros [p Hin]. by exists (k, p).
  - intros ([k' p] & -> & Hin). by exists p.
Qed.

(** A name that [Object.prototype] does not hold reads as [undefined]
    there, and an assignment to it adds a property. *)
Lemma prototypeMember_ordinary proto k :
  inObjectPrototype k = false → prototypeMember proto k = JUndefined.
Proof.
  unfold inObjectPrototype, prototypeMember. intros [H1 H2]%orb_false_iff.
  by rewrite H1, H2.
Qed.

Lemma prototypeMember_inherited k :
  inObjectPrototype k = true → isNullish (prototypeMember JObjectPrototype k) = false.
Proof.
  unfold inObjectPrototype, prototypeMember. intros H.
  destruct (String.eqb k "__proto__"); [done|]. rewrite orb_false_l in H. by rewrite H.
Qed.

Lemma setField_ordinary (obj : JRecord) k v :
  inObjectPrototype k = false → setField obj k v = <[k := v]> obj.
Proof. unfold inObjectPrototype, setField. intros [H _]%orb_false_iff. by rewrite H. Qed.

Lemma getField_Some (data : JRecord) (k : string) (v : JValue) :
  data !! k = Some v → getField (JObj data) k = v.
Proof. unfold getField. by intros ->. Qed.

Lemma getField_None (data : JRecord) (k : string) :
  data !! k = None → inObjectPrototype k = false → getField (JObj data) k = JUndefined.
Proof. unfold getField. intros -> Hk. by apply prototypeMember_ordinary. Qed.

Lemma getField_ordinary (data : JRecord) (k : string) :
  inObjectPrototype k = false → getField (JObj data) k = default JUndefined (data !! k).
Proof.
  intros Hk. destruct (data !! k) as [v|] eqn:E.
  - by rewrite (getField_Some _ _ _ E).
  - by rewrite (getField_None _ _ E Hk).
Qed.

Lemma hasField_true (data : JRecord) (k : string) :
  hasField (JObj data) k = true ↔ is_Some (data !! k) ∨ inObjectPrototype k = true.
Proof. unfold hasField. by rewrite orb_true_iff, bool_decide_eq_true. Qed.

Lemma hasField_own (data : JRecord) (k : string) :
  is_Some (data !! k) → hasField (JObj data) k = true.
Proof. intros H. apply hasField_true. by left. Qed.

End ValidationFacts.

Section LoopFacts.
Variable vp : JValue -> OpenAPISchemaProperty -> string -> PropertyResult.

Lemma propertiesLoop_spec data req props acc :
  propertiesLoop vp data req props acc
  = (fst acc ++ fieldErrorsWith vp data req props,
     validatedFieldsWith vp data req props (snd acc)).
Proof.
  revert acc. induction props as [|[f p] rest IH]; intros [errs m]; simpl.
  - by rewrite app_nil_r.
  - unfold skipped. simpl.
    destruct (negb (includes req f) && isNullish (getField data f)); [apply IH|].
    destruct (negb (pr_isValid (vp (getField data f) p f))); rewrite IH; simpl.
    + unfold fieldError. by rewrite <- app_assoc.
    + done.
Qed.

Lemma validateObjectWith_spec data props rq :
  let errs := requiredErrors data (requiredFields rq)
              ++ fieldErrorsWith vp data (requiredFields rq) props
              ++ extraErrors data props in
  validateObjectWith vp data props rq
  = match errs with
    | [] => mkValidationResult true
              (Some (validatedFieldsWith vp data (requiredFields rq) props ∅)) None
    | _ => mkValidationResult false None (Some errs)
    end.
Proof.
  intros errs. unfold validateObjectWith. rewrite propertiesLoop_spec. simpl.
  rewrite <- app_assoc. fold errs. by destruct errs.
Qed.
End LoopFacts.

Lemma requiredErrors_elem data req f :
  f ∈ req → (hasField data f = false ∨ isNullish (getField data f) = true) →
  ("Missing required field: " +:+ f) ∈ requiredErrors data req.
Proof.
  intros Hin Hmiss. unfold requiredErrors.
  apply list_elem_of_In, in_flat_map. exists f. split; [by apply list_elem_of_In|].
  destruct Hmiss as [-> | ->]; simpl; [left; done|].
  rewrite orb_true_r. by left.
Qed.

Lemma fieldErrorsWith_elem vp data req props f p :
  (f, p) ∈ props → skipped data req f = false →
  pr_isValid (vp (getField data f) p f) = false →
  fieldError vp data f p ∈ fieldErrorsWith vp data req props.
Proof.
  intros Hin Hskip Hinv. unfold fieldErrorsWith.
  apply list_elem_of_In, in_flat_map. exists (f, p). split; [by apply list_elem_of_In|].
  simpl. rewrite Hskip, Hinv. simpl. by left.
Qed.

Lemma extraErrors_elem data props k :
  is_Some (asRecord data !! k) → declared props k = false →
  ("Unexpected field: " +:+ k) ∈ extraErrors data props.
Proof.
  intros [v Hv] Hd. unfold extraErrors.
  apply list_elem_of_In, in_flat_map. exists (k, v). split.
  - apply list_elem_of_In. by apply elem_of_map_to_list.
  - simpl. rewrite Hd. simpl. by left.
Qed.

Lemma requiredErrors_inv data req e :
  e ∈ requiredErrors data req →
  ∃ f, f ∈ req ∧ (hasField data f = false ∨ isNullish (getField data f) = true)
       ∧ e = "Missing required field: " +:+ f.
Proof.
  unfold requiredErrors. intros He. apply list_elem_of_In, in_flat_map in He.
  destruct He as (f & Hf & He). exists f. split; [by apply list_elem_of_In|].
  destruct (hasField data f) eqn:Hh; simpl in He.
  - destruct (isNullish (getField data f)) eqn:Hn; simpl in He; [|done].
    destruct He as [<-|[]]. auto.
  - destruct He as [<-|[]]. auto.
Qed.

Lemma fieldErrorsWith_inv vp data req props e :
  e ∈ fieldErrorsWith vp data req props →
  ∃ f p, (f, p) ∈ props ∧ skipped data req f = false
         ∧ pr_isValid (vp (getField data f) p f) = false
         ∧ e = fieldError vp data f p.
Proof.
  unfold fieldErrorsWith. intros He. apply list_elem_of_In, in_flat_map in He.
  destruct He as ([f p] & Hf & He). simpl in He. exists f, p.
  split; [by apply list_elem_of_In|].
  destruct (skipped data req f); [done|].
  destruct (pr_isValid (vp (getField data f) p f)); simpl in He; [done|].
  destruct He as [<-|[]]. auto.
Qed.

Lemma extraErrors_inv data props e :
  e ∈ extraErrors data props →
  ∃ k, is_Some (asRecord data !! k) ∧ declared props k = false
       ∧ e = "Unexpected field: " +:+ k.
Proof.
  unfold extraErrors. intros He. apply list_elem_of_In, in_flat_map in He.
  destruct He as ([k v] & Hk & He). simpl in He. exists k.
  apply list_elem_of_In, elem_of_map_to_list in Hk.
  split; [by exists v|].
  destruct (declared props k); simpl in He; [done|].
  destruct He as [<-|[]]. auto.
Qed.

Lemma hasType_checks t v :
  isNullish v = false → hasType t v →
  (String.eqb t "integer" && negb (String.eqb (typeof v) "number") = false)
  ∧ (String.eqb t "number" && negb (String.eqb (typeof v) "number") = false)
  ∧ (String.eqb t "string" && negb (String.eqb (typeof v) "string") = false)
  ∧ (String.eqb t "boolean" && negb (String.eqb (typeof v) "boolean") = false)
  ∧ (String.eqb t "array" && negb (isArray v) = false)
  ∧ (String.eqb t "object" && negb (isObjectValue v) = false).
Proof.
  intros Hn. unfold hasType.
  repeat case_decide.
  - intros [s ->]. subst t. repeat split; reflexivity.
  - intros [n ->]. destruct H0 as [-> | ->]; repeat split; reflexivity.
  - intros [b ->]. subst t. repeat split; reflexivity.
  - intros [l ->]. subst t. repeat split; reflexivity.
  - intros [m ->]. subst t. repeat split; reflexivity.
  - intros _.
    assert (String.eqb t "integer" = false) as -> by (apply String.eqb_neq; tauto).
    assert (String.eqb t "number" = false) as -> by (apply String.eqb_neq; tauto).
    assert (String.eqb t "string" = false) as -> by (by apply String.eqb_neq).
    assert (String.eqb t "boolean" = false) as -> by (by apply String.eqb_neq).
    assert (String.eqb t "array" = false) as -> by (by apply String.eqb_neq).
    assert (String.eqb t "object" = false) as -> by (by apply String.eqb_neq).
    repeat split; reflexivity.
Qed.

Lemma inEnum_includes vals v : inEnum vals v → enumIncludes vals v = true.
Proof.
  intros [(s & -> & Hin) | (n & -> & Hin)]; simpl; apply existsb_exists.
  - exists (EStr s). split; [by apply list_elem_of_In | apply String.eqb_refl].
  - exists (ENum n). split; [by apply list_elem_of_In | apply Z.eqb_refl].
Qed.

Lemma typeAccepted_checks t v :
  isNullish v = false → typeAccepted t v →
  (String.eqb t "integer" && negb (String.eqb (typeof v) "number") = false)
  ∧ (String.eqb t "number" && negb (String.eqb (typeof v) "number") = false)
  ∧ (String.eqb t "string" && negb (String.eqb (typeof v) "string") = false)
  ∧ (String.eqb t "boolean" && negb (String.eqb (typeof v) "boolean") = false)
  ∧ (String.eqb t "array" && negb (isArray v) = false)
  ∧ (String.eqb t "object" && negb (isObjectValue v) = false).
Proof.
  intros Hn [Ht | [-> ->]]; [by apply hasType_checks|]. repeat split; reflexivity.
Qed.

Lemma withinBounds_checks p v :
  withinBounds p v →
  (String.eqb (type p) "string" && String.eqb (typeof v) "string"
     && match minLength p with Some n => Nat.ltb (strLength v) n | None => false end = false)
  ∧ (String.eqb (type p) "string" && String.eqb (typeof v) "string"
     && match maxLength p with Some n => Nat.ltb n (strLength v) | None => false end = false)
  ∧ ((String.eqb (type p) "number" || String.eqb (type p) "integer")
     && String.eqb (typeof v) "number"
     && match minimum p with Some n => Z.ltb (numValue v) n | None => false end = false)
  ∧ ((String.eqb (type p) "number" || String.eqb (type p) "integer")
     && String.eqb (typeof v) "number"
     && match maximum p with Some n => Z.ltb n (numValue v) | None => false end = false).
Proof.
  intros [Hs Hz].
  repeat split.
  - destruct (String.eqb (type p) "string") eqn:E; [|done].
    apply String.eqb_eq in E. destruct v; try (by rewrite andb_false_r).
    simpl. destruct (Hs s E eq_refl) as [Hmin _].
    destruct (minLength p) as [n|]; [|done]. apply Nat.ltb_ge. by apply Hmin.
  - destruct (String.eqb (type p) "string") eqn:E; [|done].
    apply String.eqb_eq in E. destruct v; try (by rewrite andb_false_r).
    simpl. destruct (Hs s E eq_refl) as [_ Hmax].
    destruct (maxLength p) as [n|]; [|done]. apply Nat.ltb_ge. by apply Hmax.
  - destruct (String.eqb (type p) "number" || String.eqb (type p) "integer") eqn:E; [|done].
    assert (type p = "number" ∨ type p = "integer") as Hor.
    { apply orb_true_iff in E as [E|E]; apply String.eqb_eq in E; auto. }
    destruct v; try (by rewrite andb_false_r).
    simpl. destruct (Hz n Hor eq_refl) as [Hmin _].
    destruct (minimum p) as [m|]; [|done]. apply Z.ltb_ge. by apply Hmin.
  - destruct (String.eqb (type p) "number" || String.eqb (type p) "integer") eqn:E; [|done].
    assert (type p = "number" ∨ type p = "integer") as Hor.
    { apply orb_true_iff in E as [E|E]; apply String.eqb_eq in E; auto. }
    destruct v; try (by rewrite andb_false_r).
    simpl. destruct (Hz n Hor eq_refl) as [_ Hmax].
    destruct (maximum p) as [m|]; [|done]. apply Z.ltb_ge. by apply Hmax.
Qed.
Section ConformanceFacts.
Variable vp : JValue -> OpenAPISchemaProperty -> string -> PropertyResult.

Lemma itemsLoop_conforms itemSchema path vals i acc :
  Forall (fun v => ∀ path', vp v itemSchema path' = propOk v) vals →
  itemsLoop vp itemSchema path vals i acc = (fst acc, snd acc ++ vals).
Proof.
  intros HF. revert i acc. induction HF as [|v vals Hv _ IH]; intros i [errs done_]; simpl.
  - by rewrite app_nil_r.
  - rewrite Hv. simpl. rewrite IH. simpl.
    destruct (isNullish v); by rewrite <- app_assoc.
Qed.

Lemma nullish_or_same v : nullish_or (Some v) v = v.
Proof. unfold nullish_or. by destruct (isNullish v). Qed.

Section Fields.
Variables (data : JRecord) (req : list string).
Hypothesis Hreq : ∀ f, f ∈ req → is_Some (data !! f).
Hypothesis Hval : ∀ k v, data !! k = Some v → isNullish v = false.

Lemma skipped_present f v : data !! f = Some v → skipped (JObj data) req f = false.
Proof.
  intros Hf. unfold skipped. rewrite (getField_Some _ _ _ Hf), (Hval _ _ Hf).
  apply andb_false_r.
Qed.

Lemma skipped_absent f :
  inObjectPrototype f = false → data !! f = None → skipped (JObj data) req f = true.
Proof.
  intros Ho Hf. unfold skipped. rewrite (getField_None _ _ Hf Ho). simpl.
  rewrite andb_true_r. apply negb_true_iff.
  destruct (includes req f) eqn:E; [|done].
  apply includes_true, Hreq in E. rewrite Hf in E. by destruct E.
Qed.

Lemma fieldErrorsWith_conforms props :
  handedBack vp data props → fieldErrorsWith vp (JObj data) req props = [].
Proof.
  induction 1 as [|[f p] props [Ho Hp] _ IH]; [done|]. simpl in *.
  rewrite IH, app_nil_r.
  destruct (data !! f) as [v|] eqn:Hf.
  - rewrite (skipped_present _ _ Hf), (getField_Some _ _ _ Hf), (Hp v eq_refl). done.
  - by rewrite (skipped_absent _ Ho Hf).
Qed.

Lemma validatedFieldsWith_conforms props acc k :
  handedBack vp data props →
  validatedFieldsWith vp (JObj data) req props acc !! k
  = if ownProperty props k && bool_decide (is_Some (data !! k)) then data !! k
    else acc !! k.
Proof.
  intros HF. revert acc. induction HF as [|[f p] props [Ho Hp] _ IH]; intros acc; [done|].
  unfold validatedFieldsWith, ownProperty in *. simpl in *. rewrite IH. clear IH.
  destruct (String.eqb f k) eqn:Efk; simpl.
  - apply String.eqb_eq in Efk. subst f.
    destruct (data !! k) as [v|] eqn:Hk.
    + rewrite bool_decide_eq_true_2 by eauto. rewrite andb_true_r.
      rewrite (skipped_present _ _ Hk), (getField_Some _ _ _ Hk), (Hp v eq_refl).
      cbn [pr_isValid pr_validatedValue propOk negb]. rewrite nullish_or_same.
      rewrite setField_ordinary by done.
      destruct (existsb _ props); [done|]. by rewrite lookup_insert_eq.
    + rewrite bool_decide_eq_false_2 by (by intros []).
      rewrite andb_false_r. by rewrite (skipped_absent _ Ho Hk).
  - apply String.eqb_neq in Efk.
    destruct (existsb _ props && bool_decide (is_Some (data !! k))); [done|].
    destruct (skipped (JObj data) req f); [done|].
    destruct (negb _); [done|]. rewrite setField_ordinary by done.
    by rewrite lookup_insert_ne.
Qed.
End Fields.

Lemma requiredErrors_conforms (data : JRecord) req :
  (∀ f, f ∈ req → is_Some (data !! f)) →
  (∀ k v, data !! k = Some v → isNullish v = false) →
  requiredErrors (JObj data) req = [].
Proof.
  intros Hreq Hval. unfold requiredErrors.
  induction req as [|f req IH]; [done|]. simpl.
  rewrite IH by (intros; apply Hreq; by right).
  destruct (Hreq f) as [v Hv]; [by left|].
  rewrite (hasField_own data f) by eauto.
  by rewrite (getField_Some _ _ _ Hv), (Hval _ _ Hv).
Qed.

Lemma extraErrors_conforms data props :
  (∀ k v, asRecord data !! k = Some v → declared props k = true) →
  extraErrors data props = [].
Proof.
  intros Hd. unfold extraErrors.
  assert (Forall (fun kv => declared props (fst kv) = true) (map_to_list (asRecord data)))
    as HF.
  { apply Forall_forall. intros [k v] Hin. apply elem_of_map_to_list in Hin. by eapply Hd. }
  induction HF as [|[k v] l Hk _ IH]; [done|]. simpl in *. by rewrite Hk, IH.
Qed.

Lemma validateObjectWith_conforms (data : JRecord) props rq :
  (∀ f, f ∈ requiredFields rq → is_Some (data !! f)) →
  (∀ k v, data !! k = Some v → isNullish v = false ∧ ownProperty props k = true) →
  handedBack vp data props →
  validateObjectWith vp (JObj data) props rq = mkValidationResult true (Some data) None.
Proof.
  intros Hreq Hval HF. rewrite validateObjectWith_spec.
  rewrite requiredErrors_conforms, (fieldErrorsWith_conforms data), extraErrors_conforms;
    try done; try (intros k v Hk; by apply (Hval k v)).
  2:{ intros k v Hk. unfold declared. by destruct (Hval k v Hk) as [_ ->]. }
  simpl. do 2 f_equal. apply map_eq. intros k.
  rewrite (validatedFieldsWith_conforms data); try done;
    try (intros k' v Hk; by apply (Hval k' v)).
  destruct (data !! k) as [v|] eqn:Hk.
  - destruct (Hval k v Hk) as [_ ->]. by rewrite bool_decide_eq_true_2 by eauto.
  - rewrite bool_decide_eq_false_2 by (by intros []).
    by rewrite andb_false_r, lookup_empty.
Qed.
End ConformanceFacts.

Lemma fieldsConform_handedBack data props :
  fieldsConform conformsTo data props →
  Forall (fun key => inObjectPrototype key = false) (map fst props) →
  Forall (fun kp => ∀ v path, conformsTo v (snd kp) → validateProperty v (snd kp) path = propOk v)
         props →
  handedBack validateProperty data props.
Proof.
  intros Hc Ho HF. induction HF as [|[f p] props Hp _ IH]; [constructor|].
  simpl in Hc, Ho. destruct Hc as [Hf Hrest]. apply Forall_cons in Ho as [Ho Hos].
  constructor; [|by apply IH].
  simpl in *. split; [done|]. intros v Hv. apply Hp. by apply Hf.
Qed.

Lemma allProperties_Forall (P : OpenAPISchemaProperty → Prop) props :
  allProperties P props ↔ Forall (fun kp => P (snd kp)) props.
Proof.
  induction props as [|[k p] props IH]; simpl; [by split|].
  rewrite IH, Forall_cons. done.
Qed.

Lemma conforms_validateProperty p :
  ordinaryKeys p →
  ∀ v path, conformsTo v p → validateProperty v p path = propOk v.
Proof.
  induction p as [t d it ps rq en mn mx ml mxl IHit IHps] using property_nested_ind.
  intros Hkeys v path Hc.
  set (p := mkProperty t d it ps rq en mn mx ml mxl) in *.
  assert (Hc' := Hc). simpl in Hc'. simpl in Hkeys. destruct Hkeys as [Hkps Hkit].
  destruct Hc' as (Hn & Ht & He & Hb & Hps & Hit).
  destruct (hasType_checks t v Hn Ht) as (C1 & C2 & C3 & C4 & C5 & C6).
  destruct (withinBounds_checks p v Hb) as (B1 & B2 & B3 & B4).
  subst p. simpl in B1, B2, B3, B4. simpl.
  rewrite Hn, C1, C2, C3, C4, C5, C6.
  assert (match en with Some vals => negb (enumIncludes vals v) | None => false end = false)
    as ->.
  { destruct en as [vals|]; [|done]. by rewrite (inEnum_includes _ _ (He vals eq_refl)). }
  rewrite B1, B2, B3, B4.
  assert ((match it with
           | Some itemSchema =>
               if String.eqb t "array" && isArray v
               then
                 let '(itemErrors, validatedItems) :=
                   itemsLoop validateProperty itemSchema path (arrItems v) 0 ([], []) in
                 if Nat.ltb 0 (length itemErrors)
                 then propFail (join "; " itemErrors)
                 else propOk (JArr validatedItems)
               else propOk v
           | None => propOk v
           end) = propOk v) as Harr.
  { destruct it as [itemSchema|]; [|done].
    destruct (String.eqb t "array") eqn:Et; [|done].
    destruct v; try done. simpl.
    apply String.eqb_eq in Et.
    rewrite itemsLoop_conforms; [done|].
    specialize (Hit Et). simpl in Hit.
    eapply Forall_impl; [exact Hit|]. intros x Hx path'. by apply (IHit itemSchema). }
  destruct ps as [props|]; [|exact Harr].
  destruct (String.eqb t "object") eqn:Et; [|exact Harr].
  apply String.eqb_eq in Et. specialize (Hps Et).
  destruct Hps as (Hreq & Hval & Hfields).
  destruct Hkps as [[_ Hord] Hall]. apply allProperties_Forall in Hall.
  unfold hasType in Ht. subst t. simpl in Ht. destruct Ht as [m ->]. simpl in *.
  rewrite validateObjectWith_conforms; try done.
  apply fieldsConform_handedBack; [done | done |].
  specialize (IHps props eq_refl). rewrite Forall_forall in *.
  intros kp Hin w path' Hw. by apply IHps; [|apply Hall|].
Qed.


(** * Properties of the agent *)

Section AgentFacts.
Context {W : Type}.
Variable JSON_stringify : JValue → Outcome string.
Variable String_of : JValue → string.
Implicit Types (w : World W) (self : Agent W) (tool : Tool W).

Lemma continues_refl P w : continues P w w.
Proof. exists []. by rewrite app_nil_r. Qed.

Lemma continues_trans P w1 w2 w3 :
  continues P w1 w2 → continues P w2 w3 → continues P w1 w3.
Proof.
  intros (e1 & H1 & F1) (e2 & H2 & F2). exists (e1 ++ e2).
  rewrite H2, H1, <- app_assoc. split; [done|].
  rewrite forallb_app. by rewrite F1, F2.
Qed.

Lemma perform_continues {A} P ev (f : W → Outcome A * W) w r w' :
  P ev = true → perform ev f w = (r, w') → continues P w w'.
Proof.
  intros HP. unfold perform. destruct (f (ext w)) as [r0 x]. intros [= ? ?]; subst.
  exists [ev]. simpl. by rewrite HP.
Qed.

Lemma sleep_continues P ms w r w' :
  P (EvSleep ms) = true → sleep ms w = (r, w') → continues P w w'.
Proof.
  intros HP. unfold sleep. destruct (Nat.leb ms 0).
  - intros [= ? ?]; subst. apply continues_refl.
  - by apply perform_continues.
Qed.



Lemma bind_ret_l {A B} (a : A) (k : A → M W B) w : bind (ret a) k w = k a w.
Proof. reflexivity. Qed.

Lemma bind_evaluate_Returned {A B} (a : A) (k : A → M W B) w :
  bind (evaluate (Returned a)) k w = k a w.
Proof. reflexivity. Qed.

Lemma bind_evaluate_Thrown {A B} (e : Exn) (k : A → M W B) w :
  bind (evaluate (Thrown e)) k w = (Thrown e, w).
Proof. reflexivity. Qed.

Lemma continues_weaken (P Q : Event → bool) w w' :
  (∀ ev, P ev = true → Q ev = true) → continues P w w' → continues Q w w'.
Proof.
  intros HPQ (evs & Htr & Hall). exists evs. split; [done|].
  rewrite forallb_forall in *. intros ev Hin. by apply HPQ, Hall.
Qed.

Lemma retryLoop_S self tool name ctx should remaining attempt args lastError :
  retryLoop JSON_stringify self tool name ctx should (S remaining) attempt args lastError
  = bind (match lastError with
          | Some e =>
              if Nat.ltb 1 attempt && should
              then regenerateOnRetry JSON_stringify self tool name ctx e args
              else ret args
          | None => ret args
          end)
      (fun finalArgs' =>
         tryCatch (runTool tool finalArgs')
           (fun e =>
              bind (if Nat.ltb attempt (maxRetries self)
                    then sleep (retryDelay self) else ret tt)
                (fun _ => retryLoop JSON_stringify self tool name ctx should remaining (S attempt)
                            finalArgs' (Some e)))).
Proof. reflexivity. Qed.

(** Without regeneration the retry loop never reads the gateway. *)
Lemma retryLoop_gateway_irrelevant ts mr rd vb (llm1 llm2 : ILLMService W)
      tool name ctx remaining attempt args lastError w :
  retryLoop JSON_stringify (mkAgent ts mr rd vb llm1) tool name ctx false remaining attempt
    args lastError w
  = retryLoop JSON_stringify (mkAgent ts mr rd vb llm2) tool name ctx false remaining attempt
      args lastError w.
Proof.
  revert attempt args lastError w.
  induction remaining as [|remaining IH]; intros attempt args lastError w; [done|].
  rewrite !retryLoop_S, andb_false_r.
  assert (match lastError with Some _ => ret args | None => ret args end = @ret W _ args) as ->
    by (by destruct lastError).
  rewrite !bind_ret_l. unfold tryCatch.
  destruct (runTool tool args w) as [[v|e] w1]; [done|]. unfold bind.
  cbn [maxRetries retryDelay].
  destruct ((if Nat.ltb attempt mr then sleep rd else ret tt) w1) as [[[]|e'] w2] eqn:Hs;
    [apply IH | ]. done.
Qed.

Lemma runTool_continues tool args w r w' :
  runTool tool args w = (r, w') → continues notGateway w w'.
Proof. by apply perform_continues. Qed.

Lemma retryLoop_no_gateway self tool name ctx remaining attempt args lastError w r w' :
  retryLoop JSON_stringify self tool name ctx false remaining attempt args lastError w = (r, w') →
  continues notGateway w w'.
Proof.
  revert attempt args lastError w.
  induction remaining as [|remaining IH]; intros attempt args lastError w.
  - simpl. intros [= ? ?]; subst. apply continues_refl.
  - rewrite retryLoop_S, andb_false_r.
    assert (match lastError with Some _ => ret args | None => ret args end = @ret W _ args)
      as -> by (by destruct lastError).
    rewrite bind_ret_l. unfold tryCatch.
    destruct (runTool tool args w) as [[v|e] w1] eqn:Hrun.
    + intros [= ? ?]; subst. by eapply runTool_continues.
    + unfold bind. destruct ((if Nat.ltb attempt (maxRetries self) then sleep (retryDelay self) else ret tt) w1)
        as [[[]|e'] w2] eqn:Hs.
      * intros Hloop. eapply continues_trans; [by eapply runTool_continues|].
        eapply continues_trans; [|by eapply IH].
        destruct (Nat.ltb attempt (maxRetries self)).
        -- by eapply sleep_continues.
        -- injection Hs as <-. apply continues_refl.
      * intros [= ? ?]; subst. eapply continues_trans; [by eapply runTool_continues|].
        destruct (Nat.ltb attempt (maxRetries self)).
        -- by eapply sleep_continues.
        -- discriminate Hs.
Qed.

End AgentFacts.

Section AgentRuns.
Context {W : Type}.
Variable JSON_stringify : JValue → Outcome string.
Variable String_of : JValue → string.
Implicit Types (w : World W) (self : Agent W) (tool : Tool W).

Lemma askArguments_continues self request w r w' :
  askArguments self request w = (r, w') → continues isGatewayEvent w w'.
Proof. by apply perform_continues. Qed.

Lemma evaluate_world {A} (o : Outcome A) w r w' :
  evaluate o w = (r, w') → r = o ∧ w' = w.
Proof. by intros [= ? ?]. Qed.

Lemma checkExtracted_world self tool p1 p2 response w r w' :
  checkExtracted JSON_stringify self tool p1 p2 response w = (r, w') → w' = w.
Proof.
  unfold checkExtracted.
  destruct (negb (resp_isValid response)); [by intros [= ? ?]|].
  destruct (negb (isValid _)); [by intros [= ? ?]|].
  destruct (verbose self); [|by intros [= ? ?]].
  unfold bind, evaluate. destruct (JSON_stringify _); by intros [= ? ?].
Qed.

Lemma generateStructuredDataForTool_continues self tool ctx w r w' :
  generateStructuredDataForTool JSON_stringify self tool ctx w = (r, w') → continues isGatewayEvent w w'.
Proof.
  unfold generateStructuredDataForTool, tryCatch, bind.
  destruct (askArguments self _ w) as [[resp|e] w1] eqn:Hask.
  - destruct (checkExtracted JSON_stringify self tool _ _ resp w1) as [[d|e] w2] eqn:Hc.
    + apply checkExtracted_world in Hc as ->. intros [= ? ?]; subst.
      by eapply askArguments_continues.
    + apply checkExtracted_world in Hc as ->. intros [= ? ?]; subst.
      by eapply askArguments_continues.
  - intros [= ? ?]; subst. by eapply askArguments_continues.
Qed.

Lemma regenerateStructuredDataWithError_continues self tool ctx err w r w' :
  regenerateStructuredDataWithError JSON_stringify self tool ctx err w = (r, w') →
  continues isGatewayEvent w w'.
Proof.
  unfold regenerateStructuredDataWithError, tryCatch, bind.
  destruct (askArguments self _ w) as [[resp|e] w1] eqn:Hask.
  - destruct (checkExtracted JSON_stringify self tool _ _ resp w1) as [[d|e] w2] eqn:Hc.
    + apply checkExtracted_world in Hc as ->. intros [= ? ?]; subst.
      by eapply askArguments_continues.
    + apply checkExtracted_world in Hc as ->. intros [= ? ?]; subst.
      by eapply askArguments_continues.
  - intros [= ? ?]; subst. by eapply askArguments_continues.
Qed.

(** The regeneration block never throws. *)
Lemma regenerateOnRetry_returns self tool name ctx err args w :
  ∃ args' w', regenerateOnRetry JSON_stringify self tool name ctx err args w = (Returned args', w')
              ∧ continues isGatewayEvent w w'.
Proof.
  unfold regenerateOnRetry, tryCatch, bind.
  destruct (regenerateStructuredDataWithError JSON_stringify self tool _ err w) as [[d|e] w1] eqn:Hr;
    apply regenerateStructuredDataWithError_continues in Hr.
  - destruct (negb (isValid _)); eexists _, _; split; done.
  - eexists _, _; split; done.
Qed.

Lemma effectiveArguments_continues self tool name args ctx oc w r w' :
  effectiveArguments JSON_stringify self tool name args ctx oc w = (r, w') →
  continues isGatewayEvent w w'.
Proof.
  unfold effectiveArguments.
  destruct (agentic tool && negb _ && truthy ctx || oc).
  - unfold tryCatch.
    destruct (generateStructuredDataForTool JSON_stringify self tool _ w) as [[d|e] w1] eqn:Hg;
      apply generateStructuredDataForTool_continues in Hg; intros [= ? ?]; by subst.
  - destruct (agentic tool && _); [intros [= ? ?]; subst; apply continues_refl|].
    destruct (agentic tool && _); intros [= ? ?]; subst; apply continues_refl.
Qed.








(** A run of the retry loop only adds to the trace. *)
Lemma retryLoop_extends self tool name ctx should remaining :
  ∀ attempt args lastError w r w',
    retryLoop JSON_stringify self tool name ctx should remaining attempt args lastError w
    = (r, w') →
    ∃ evs, trace w' = trace w ++ evs.
Proof.
  induction remaining as [|remaining IH]; intros attempt args lastError w r w'.
  { simpl. intros [= <- <-]. exists []. by rewrite app_nil_r. }
  rewrite retryLoop_S. unfold bind at 1.
  destruct (match lastError with
            | Some e => if Nat.ltb 1 attempt && should
                        then regenerateOnRetry JSON_stringify self tool name ctx e args
                        else ret args
            | None => ret args
            end w) as [r1 w1] eqn:Hprep.
  assert (∃ args' evs1, r1 = Returned args' ∧ trace w1 = trace w ++ evs1)
    as (args' & evs1 & -> & Htr1).
  { assert (ret args w = (r1, w1) →
            ∃ args' evs1, r1 = Returned args' ∧ trace w1 = trace w ++ evs1) as Hret.
    { intros [= <- <-]. exists args, []. by rewrite app_nil_r. }
    destruct lastError as [e|]; [|by apply Hret].
    destruct (Nat.ltb 1 attempt && should); [|by apply Hret].
    destruct (regenerateOnRetry_returns self tool name ctx e args w)
      as (a & w0 & Heq & (evs1 & Htr & _)).
    rewrite Heq in Hprep. injection Hprep as <- <-. by exists a, evs1. }
  unfold tryCatch, runTool, perform.
  destruct (tool_execute tool args' (ext w1)) as [[v|e] x].
  - intros [= <- <-]. simpl. rewrite Htr1, <- app_assoc. eauto.
  - unfold bind.
    set (w2 := mkWorld x (trace w1 ++ [EvExecute (tool_name tool) args'])).
    destruct ((if Nat.ltb attempt (maxRetries self) then sleep (retryDelay self) else ret tt)
                w2) as [r3 w3] eqn:Hsleep.
    assert (r3 = Returned tt ∧ ∃ evs3, trace w3 = trace w2 ++ evs3) as (-> & evs3 & Htr3).
    { destruct (Nat.ltb attempt (maxRetries self)).
      - unfold sleep in Hsleep. destruct (Nat.leb (retryDelay self) 0).
        + injection Hsleep as <- <-. split; [done|]. exists []. by rewrite app_nil_r.
        + unfold perform in Hsleep. injection Hsleep as <- <-. split; [done|]. by eexists.
      - injection Hsleep as <- <-. split; [done|]. exists []. by rewrite app_nil_r. }
    intros Hloop. apply IH in Hloop as (evs4 & Htr4).
    rewrite Htr4, Htr3. unfold w2. simpl. rewrite Htr1, <- !app_assoc. eauto.
Qed.

(** The first attempt runs the tool on the arguments that the loop is
    given. *)
Lemma retryLoop_runs_first self tool name ctx should remaining args w r w' :
  retryLoop JSON_stringify self tool name ctx should (S remaining) 1 args None w = (r, w') →
  ∃ evs, trace w' = trace w ++ EvExecute (tool_name tool) args :: evs.
Proof.
  rewrite retryLoop_S, bind_ret_l. unfold tryCatch, runTool, perform.
  destruct (tool_execute tool args (ext w)) as [[v|e] x].
  - intros [= <- <-]. by exists [].
  - unfold bind.
    set (w2 := mkWorld x (trace w ++ [EvExecute (tool_name tool) args])).
    destruct ((if Nat.ltb 1 (maxRetries self) then sleep (retryDelay self) else ret tt) w2)
      as [r3 w3] eqn:Hsleep.
    assert (r3 = Returned tt ∧ ∃ evs3, trace w3 = trace w2 ++ evs3) as (-> & evs3 & Htr3).
    { destruct (Nat.ltb 1 (maxRetries self)).
      - unfold sleep in Hsleep. destruct (Nat.leb (retryDelay self) 0).
        + injection Hsleep as <- <-. split; [done|]. exists []. by rewrite app_nil_r.
        + unfold perform in Hsleep. injection Hsleep as <- <-. split; [done|]. by eexists.
      - injection Hsleep as <- <-. split; [done|]. exists []. by rewrite app_nil_r. }
    intros Hloop. apply retryLoop_extends in Hloop as (evs4 & Htr4).
    exists (evs3 ++ evs4). rewrite Htr4, Htr3. unfold w2. simpl.
    by rewrite <- !app_assoc.
Qed.

(** A valid result carries data, an invalid one none. *)
Lemma validateAgainstSchema_data raw schema :
  match vr_data (validateAgainstSchema raw schema) with
  | Some d => validateAgainstSchema raw schema = mkValidationResult true (Some d) None
  | None => ∃ e errs, validateAgainstSchema raw schema
                      = mkValidationResult false None (Some (e :: errs))
  end.
Proof.
  unfold validateAgainstSchema, validateAgainstOpenAPISchema.
  rewrite validateObjectWith_spec.
  destruct (requiredErrors _ _ ++ _ ++ _); simpl; eauto.
Qed.
End AgentRuns.


(** * Properties of the orchestrator *)

Section OrchestratorFacts.
Context {W : Type}.
Variable JSON_stringify : JValue → Outcome string.
Variable String_of : JValue → string.
Implicit Types (st : OrchestratorState) (l : list ExecutionStep).

Lemma elem_of_zip_seq l n i (s : ExecutionStep) :
  (i, s) ∈ zip (seq n (length l)) l ↔ n ≤ i ∧ l !! (i - n) = Some s.
Proof.
  revert n. induction l as [|x l IH]; intros n; simpl.
  - split; [by intros ?%elem_of_nil | by intros [_ ?]].
  - rewrite elem_of_cons, IH. split.
    + intros [[= -> ->] | [Hle Hl]].
      * split; [lia|]. by rewrite Nat.sub_diag.
      * split; [lia|]. replace (i - n) with (S (i - S n)) by lia. done.
    + intros [Hle Hl]. destruct (decide (i = n)) as [->|Hne].
      * left. rewrite Nat.sub_diag in Hl. simpl in Hl. by injection Hl as ->.
      * right. split; [lia|]. replace (i - n) with (S (i - S n)) in Hl by lia. done.
Qed.

Lemma elem_of_indexed l i s : (i, s) ∈ indexed l ↔ l !! i = Some s.
Proof.
  unfold indexed. rewrite elem_of_zip_seq. rewrite Nat.sub_0_r. split; [by intros [_ ?]|].
  intros H. split; [lia | done].
Qed.

Lemma lowest_spec first rest :
  lowest first rest ∈ first :: rest
  ∧ ∀ x, x ∈ first :: rest → (stepNumber (snd (lowest first rest)) ≤ stepNumber (snd x))%Z.
Proof.
  revert first. induction rest as [|y rest IH]; intros first; simpl.
  - split; [by left|]. intros x Hx. apply list_elem_of_singleton in Hx as ->. lia.
  - unfold lowest in *. simpl.
    destruct (Z.ltb (stepNumber (snd y)) (stepNumber (snd first))) eqn:E.
    + apply Z.ltb_lt in E. destruct (IH y) as [Hin Hmin]. split.
      * right. exact Hin.
      * intros x Hx. apply elem_of_cons in Hx as [-> | Hx].
        -- specialize (Hmin y ltac:(by left)). lia.
        -- by apply Hmin.
    + apply Z.ltb_ge in E. destruct (IH first) as [Hin Hmin]. split.
      * apply elem_of_cons in Hin as [-> | Hin]; [by left | by right; right].
      * intros x Hx. apply elem_of_cons in Hx as [-> | Hx].
        -- by apply Hmin; left.
        -- apply elem_of_cons in Hx as [-> | Hx].
           ++ specialize (Hmin first ltac:(by left)). lia.
           ++ by apply Hmin; right.
Qed.



Lemma executable_true l step d :
  executable l step = true → d ∈ default [] (dependsOn step) → depCompleted l d = true.
Proof.
  unfold executable. destruct (default [] (dependsOn step)) as [|d0 deps];
    [by intros _ ?%elem_of_nil|].
  intros Hf Hin. rewrite forallb_forall in Hf. apply Hf. by apply list_elem_of_In.
Qed.
End OrchestratorFacts.

Section SelectionFacts.
Context {W : Type}.
Variable JSON_stringify : JValue → Outcome string.
Variable String_of : JValue → string.
Implicit Types (st : OrchestratorState) (l : list ExecutionStep) (self : Orchestrator W).

Lemma elem_of_pendingOf st i s :
  (i, s) ∈ pendingOf st ↔ steps st !! i = Some s ∧ step_completed s = false.
Proof.
  unfold pendingOf. rewrite list_elem_of_filter, elem_of_indexed. simpl.
  rewrite negb_true_iff. tauto.
Qed.

(** What [findNextExecutableStep] returns, by cases. *)
Lemma findNextExecutableStep_cases st :
  (pendingOf st = [] ∧ findNextExecutableStep st = None)
  ∨ (∃ firstPending rest,
        pendingOf st = firstPending :: rest
        ∧ filter (fun s => executable (steps st) (snd s) = true) (pendingOf st) = []
        ∧ findNextExecutableStep st = Some firstPending)
  ∨ (∃ first rest,
        filter (fun s => executable (steps st) (snd s) = true) (pendingOf st) = first :: rest
        ∧ findNextExecutableStep st = Some (lowest first rest)).
Proof.
  unfold findNextExecutableStep. fold (pendingOf st).
  destruct (pendingOf st) as [|firstPending rest] eqn:Hp; [by left|]. right.
  destruct (filter _ (firstPending :: rest)) as [|first others] eqn:He.
  - left. by exists firstPending, rest.
  - right. by exists first, others.
Qed.

Lemma findNextExecutableStep_pending st i step :
  findNextExecutableStep st = Some (i, step) →
  steps st !! i = Some step ∧ step_completed step = false.
Proof.
  intros Hnext. apply elem_of_pendingOf.
  destruct (findNextExecutableStep_cases st)
    as [[_ H] | [(fp & rest & Hp & _ & H) | (first & rest & He & H)]];
    rewrite H in Hnext; try discriminate; injection Hnext as Hnext.
  - rewrite Hp, <- Hnext. by left.
  - destruct (lowest_spec first rest) as [Hin _]. rewrite Hnext, <- He in Hin.
    by apply list_elem_of_filter in Hin as [_ Hin].
Qed.

Lemma findNextExecutableStep_None st :
  findNextExecutableStep st = None ↔ ∀ s, s ∈ steps st → step_completed s = true.
Proof.
  split.
  - intros Hnext s Hs. apply list_elem_of_lookup in Hs as [i Hi].
    destruct (step_completed s) eqn:Hc; [done|]. exfalso.
    assert ((i, s) ∈ pendingOf st) as Hin by (by apply elem_of_pendingOf).
    destruct (findNextExecutableStep_cases st)
      as [[Hp _] | [(fp & rest & _ & _ & H) | (first & rest & _ & H)]];
      [|congruence|congruence].
    rewrite Hp in Hin. by apply elem_of_nil in Hin.
  - intros Hall.
    destruct (findNextExecutableStep st) as [[i step]|] eqn:Hnext; [|done].
    apply findNextExecutableStep_pending in Hnext as [Hi Hc].
    rewrite (Hall step) in Hc; [done|]. by eapply list_elem_of_lookup_2.
Qed.





(** A step whose dependencies are met is run through [callTool] with the
    extraction flag set, on the tool and the explicit arguments of the
    step. *)
Lemma executeStep_forces_extraction self i step st :
  Forall (fun d => depCompleted (steps st) d = true) (default [] (dependsOn step)) →
  ∃ call,
    tc_tool call = tc_tool (toolCall step)
    ∧ tc_arguments call = tc_arguments (toolCall step)
    ∧ ∀ w : World W,
        snd (executeStep JSON_stringify String_of self i step st w)
        = snd (callTool JSON_stringify (agent self) call true w).
Proof.
  intros Hdeps.
  assert (filter (fun depNum => negb (depCompleted (steps st) depNum) = true)
                 (default [] (dependsOn step)) = []) as Hnone.
  { induction Hdeps as [|d deps Hd _ IH]; [done|].
    rewrite filter_cons, IH. destruct (decide _) as [Hn|]; [|done].
    by rewrite Hd in Hn. }
  unfold executeStep. rewrite Hnone. cbn [length Nat.ltb Nat.leb].
  set (call := if _ && _ then mkToolCall _ _ _ else toolCall step).
  exists call. split; [|split].
  - subst call. by destruct (_ && _).
  - subst call. by destruct (_ && _).
  - intros w.
    by destruct (callTool JSON_stringify (agent self) call true w) as [[result|err] w1].
Qed.
End SelectionFacts.

Section ReplanFacts.
Context {W : Type}.
Variable JSON_stringify : JValue → Outcome string.
Variable String_of : JValue → string.
Implicit Types (st : OrchestratorState) (l : list ExecutionStep) (self : Orchestrator W).

Lemma generatePlan_steps self query sp prev completedSteps st (w : World W) r st' w' :
  generatePlan JSON_stringify self query sp prev completedSteps st w = (r, st', w') → steps st' = steps st.
Proof.
  unfold generatePlan.
  destruct (completedStepsInfo _ _ _) as [info|e0]; [|by intros [= ? ? ?]; subst].
  destruct (perform _ _ w) as [[response|e] w1]; [|by intros [= ? ? ?]; subst].
  destruct (if resp_isValid response then structuredData response else None);
    by intros [= ? ? ?]; subst.
Qed.

Lemma filter_insert_same {A} (P : A → bool) (l : list A) i x y :
  l !! i = Some x → P x = false → P y = false →
  filter (fun a => P a = true) (<[i := y]> l) = filter (fun a => P a = true) l.
Proof.
  revert i. induction l as [|a l IH]; intros i Hi Hx Hy; [done|].
  destruct i as [|i]; simpl in *.
  - injection Hi as ->. rewrite !filter_cons_False; [done| |]; by rewrite ?Hx, ?Hy.
  - rewrite !filter_cons. destruct (decide (P a = true)); by rewrite (IH i).
Qed.

Lemma filter_all {A} (P : A → Prop) `{∀ x, Decision (P x)} (l : list A) :
  Forall P l → filter P l = l.
Proof.
  induction 1 as [|x l Hx _ IH]; [done|]. by rewrite filter_cons_True, IH.
Qed.

Lemma filter_none {A} (P : A → Prop) `{∀ x, Decision (P x)} (l : list A) :
  Forall (fun x => ¬ P x) l → filter P l = [].
Proof.
  induction 1 as [|x l Hx _ IH]; [done|]. by rewrite filter_cons_False, IH.
Qed.

Lemma map_insert_same {A B} (f : A → B) (l : list A) i x y :
  l !! i = Some x → f y = f x → map f (<[i := y]> l) = map f l.
Proof.
  revert i. induction l as [|a l IH]; intros i Hi Hf; [done|].
  destruct i as [|i]; simpl in *.
  - injection Hi as ->. by rewrite Hf.
  - by rewrite (IH i).
Qed.

(** A failed step leaves the completed steps and all step numbers as they
    were. *)
Lemma executeStep_failure self i step st (w : World W) e st' w' :
  steps st !! i = Some step → step_completed step = false →
  executeStep JSON_stringify String_of self i step st w = (Thrown e, st', w') →
  completedOf (steps st') = completedOf (steps st)
  ∧ map stepNumber (steps st') = map stepNumber (steps st).
Proof.
  intros Hi Hc. unfold executeStep.
  destruct (Nat.ltb 0 _); [by intros [= ? ? ?]; subst|].
  destruct (callTool _ _ _ true w) as [[result|err] w1]; [by intros [= ? ? ?]|].
  intros [= ? ? ?]; subst. cbn [steps push_history set_steps set_status].
  split.
  - unfold completedOf. by eapply filter_insert_same.
  - by eapply map_insert_same.
Qed.

Lemma executeStep_success_count self i step st (w : World W) v st' w' :
  executeStep JSON_stringify String_of self i step st w = (Returned v, st', w') →
  steps st' = <[i := complete_step v step]> (steps st).
Proof.
  unfold executeStep.
  destruct (Nat.ltb 0 _); [by intros [= ? ? ?]|].
  destruct (callTool _ _ _ true w) as [[result|err] w1]; [|by intros [= ? ? ?]].
  by intros [= ? ? ?]; subst.
Qed.





Lemma renumbered_lookup old planResponse k :
  renumbered old planResponse !! k
  = (fun p => mkExecutionStep (jsAdd (jsAdd (maxStepNumber old) (Z.of_nat k)) 1)
                (ps_description p)
                (mkToolCall (ps_tool p) (Some (default ∅ (ps_arguments p))) None)
                false None None (Some (default [] (ps_dependsOn p))))
    <$> default [] (pl_steps planResponse) !! k.
Proof.
  unfold renumbered. rewrite list_lookup_imap.
  unfold convertToExecutionSteps. rewrite list_lookup_fmap.
  by destruct (default [] (pl_steps planResponse) !! k).
Qed.

Lemma length_renumbered old planResponse :
  length (renumbered old planResponse) = length (default [] (pl_steps planResponse)).
Proof.
  unfold renumbered. rewrite length_imap. unfold convertToExecutionSteps.
  by rewrite length_map.
Qed.


Lemma elem_of_renumbered old planResponse s :
  s ∈ renumbered old planResponse → step_completed s = false.
Proof.
  intros Hs. apply list_elem_of_lookup in Hs as [k Hk].
  rewrite renumbered_lookup in Hk.
  destruct (default [] (pl_steps planResponse) !! k) as [p|]; [|done].
  by injection Hk as <-.
Qed.


Lemma mergeRegeneratedPlan_spec old planResponse :
  mergeRegeneratedPlan old planResponse
  = completedOf old ++ replanned old planResponse.
Proof. reflexivity. Qed.

Lemma elem_of_replanned old planResponse s :
  s ∈ replanned old planResponse → step_completed s = false.
Proof.
  unfold replanned. intros [_ Hs]%list_elem_of_filter. by eapply elem_of_renumbered.
Qed.

Lemma length_replanned old planResponse :
  length (replanned old planResponse) ≤ length (default [] (pl_steps planResponse)).
Proof.
  rewrite <- (length_renumbered old). unfold replanned. apply length_filter.
Qed.


Lemma completedOf_replanned old planResponse :
  completedOf (replanned old planResponse) = [].
Proof.
  unfold completedOf. apply filter_none. apply Forall_forall. intros s Hs.
  apply elem_of_replanned in Hs. by rewrite Hs.
Qed.

Lemma completedOf_idemp l : completedOf (completedOf l) = completedOf l.
Proof.
  unfold completedOf. apply filter_all. apply Forall_forall. intros s Hs.
  by apply list_elem_of_filter in Hs as [Hs _].
Qed.

Lemma completedOf_merge old planResponse :
  completedOf (mergeRegeneratedPlan old planResponse) = completedOf old.
Proof.
  rewrite mergeRegeneratedPlan_spec. unfold completedOf at 1. rewrite filter_app.
  fold (completedOf (completedOf old)). fold (completedOf (replanned old planResponse)).
  by rewrite completedOf_idemp, completedOf_replanned, app_nil_r.
Qed.
End ReplanFacts.


(** * Termination of [execute] *)

Section Termination.
Context {W : Type}.
Variable JSON_stringify : JValue → Outcome string.
Variable String_of : JValue → string.
Implicit Types (st : OrchestratorState) (self : Orchestrator W).

Lemma filter_insert_fewer {A} (P : A → Prop) `{∀ x, Decision (P x)} (l : list A) i x y :
  l !! i = Some x → P x → ¬ P y →
  length (filter P (<[i := y]> l)) < length (filter P l).
Proof.
  revert i. induction l as [|a l IH]; intros i Hi Hx Hy; [done|].
  destruct i as [|i]; simpl in *.
  - injection Hi as ->. rewrite filter_cons_False, filter_cons_True by done. simpl. lia.
  - rewrite !filter_cons. specialize (IH i Hi Hx Hy).
    destruct (decide (P a)); simpl; lia.
Qed.

(** A turn of the loop that goes on either completed a pending step or
    made one more regeneration. *)
Lemma executeIteration_progress self query sp count planResponse st (w : World W)
      count' planResponse' st' w' :
  executeIteration JSON_stringify String_of self query sp count planResponse st w
  = (Continue count' planResponse' st', w') →
  (count' = count ∧ pendingCount st' < pendingCount st)
  ∨ (count' = S count ∧ count < maxPlanRegenerations).
Proof.
  unfold executeIteration.
  destruct (findNextExecutableStep st) as [[i nextStep]|] eqn:Hnext.
  2:{ destruct (determineNextStep JSON_stringify self _ w) as [[[d|e] st1] w1]; by intros [= ? ? ?]. }
  destruct (Nat.leb (maxSteps self) (length (steps st))); [by intros [= ? ? ?]|].
  apply findNextExecutableStep_pending in Hnext as [Hi Hc].
  destruct (executeStep _ _ self i nextStep _ w) as [[[v|stepError] st1] w1] eqn:Hexec.
  - intros [= ? ? ? ?]; subst. left. split; [done|].
    apply executeStep_success_count in Hexec. cbn [steps set_currentStepIndex] in Hexec.
    unfold pendingCount. rewrite Hexec.
    eapply filter_insert_fewer; [exact Hi | done | done].
  - destruct (Nat.leb maxPlanRegenerations count) eqn:E; [by intros [= ? ? ?]|].
    apply Nat.leb_gt in E.
    destruct (generatePlan JSON_stringify self query sp _ _ st1 w1) as [[[p|e] st2] w2];
      [|by intros [= ? ? ?]].
    intros [= ? ? ? ?]; subst. right. split; [done | lia].
Qed.

Lemma executeLoop_terminates self query sp :
  ∀ n count, maxPlanRegenerations - count = n → count ≤ maxPlanRegenerations →
  ∀ m st, pendingCount st = m →
  ∀ planResponse (w : World W),
  ∃ fuel r w',
    executeLoop JSON_stringify String_of self fuel query sp count planResponse st w = Some (r, w').
Proof.
  induction n as [|n IHn]; intros count Hn Hcount;
    (induction m as [m IHm] using lt_wf_ind; intros st Hm planResponse w;
     assert (Nat.leb count maxPlanRegenerations = true) as Hcond by (by apply Nat.leb_le);
     destruct (executeIteration JSON_stringify String_of self query sp count planResponse st w)
       as [[r | count' planResponse' st' | e st'] w'] eqn:Hturn;
     [ exists 1, r, w'; cbn [executeLoop]; by rewrite Hcond, Hturn
     | apply executeIteration_progress in Hturn as Hprog
     | exists 1, (executionFailed e st'), w'; cbn [executeLoop]; by rewrite Hcond, Hturn ]).
  - destruct Hprog as [[-> Hlt] | [_ Hlt]]; [|lia].
    destruct (IHm (pendingCount st') ltac:(lia) st' eq_refl planResponse' w')
      as (fuel & r & w'' & Hrun).
    exists (S fuel), r, w''. cbn [executeLoop]. by rewrite Hcond, Hturn.
  - destruct Hprog as [[-> Hlt] | [-> Hlt]].
    + destruct (IHm (pendingCount st') ltac:(lia) st' eq_refl planResponse' w')
        as (fuel & r & w'' & Hrun).
      exists (S fuel), r, w''. cbn [executeLoop]. by rewrite Hcond, Hturn.
    + destruct (IHn (S count) ltac:(lia) ltac:(lia) (pendingCount st') st' eq_refl
                  planResponse' w') as (fuel & r & w'' & Hrun).
      exists (S fuel), r, w''. cbn [executeLoop]. by rewrite Hcond, Hturn.
Qed.

Lemma executeLoop_more_fuel self query sp fuel :
  ∀ count planResponse st (w : World W) r w',
  executeLoop JSON_stringify String_of self fuel query sp count planResponse st w = Some (r, w') →
  executeLoop JSON_stringify String_of self (S fuel) query sp count planResponse st w = Some (r, w').
Proof.
  induction fuel as [|fuel IH]; intros count planResponse st w r w'; [done|].
  intros Hrun. cbn [executeLoop] in Hrun |- *.
  destruct (Nat.leb count maxPlanRegenerations); [|done].
  destruct (executeIteration JSON_stringify String_of self query sp count planResponse st w)
    as [[r0 | count' planResponse' st' | e st'] w0]; [done| |done].
  by apply IH.
Qed.

(** Every run of [execute] ends: with enough fuel the model returns a
    result, and more fuel does not change it. *)
Theorem execute_terminates self query sp (w : World W) :
  ∃ fuel r w',
    execute JSON_stringify String_of self fuel query sp w = Some (r, w')
    ∧ ∀ fuel', fuel ≤ fuel' → execute JSON_stringify String_of self fuel' query sp w = Some (r, w').
Proof.
  assert (∃ fuel r w', execute JSON_stringify String_of self fuel query sp w = Some (r, w'))
    as (fuel & r & w' & Hrun).
  { unfold execute.
    destruct (generatePlan JSON_stringify self query sp None None _ w) as [[[p|e] st1] w1];
      [|by exists 0; eexists _, _].
    destruct (pl_isComplete p && _); [by exists 0; eexists _, _|].
    by eapply (executeLoop_terminates self query sp _ 0 eq_refl ltac:(lia) _ _ eq_refl). }
  exists fuel, r, w'. split; [done|].
  intros fuel' Hle. induction Hle as [|fuel' _ IH]; [done|].
  revert IH. unfold execute.
  destruct (generatePlan JSON_stringify self query sp None None _ w) as [[[p|e] st1] w1]; [|done].
  destruct (pl_isComplete p && _); [done|]. apply executeLoop_more_fuel.
Qed.
(** What a turn of the loop that goes on leaves in [steps]: the chosen
    step completed in place, or the completed steps followed by the steps
    kept of the new plan. *)
Lemma executeIteration_steps self query sp count planResponse st (w : World W)
      count' planResponse' st' w' :
  executeIteration JSON_stringify String_of self query sp count planResponse st w
  = (Continue count' planResponse' st', w') →
  ∃ i nextStep,
    steps st !! i = Some nextStep ∧ step_completed nextStep = false
    ∧ length (steps st) < maxSteps self
    ∧ ((∃ v, steps st' = <[i := complete_step v nextStep]> (steps st))
       ∨ steps st' = completedOf (steps st) ++ replanned (steps st) planResponse').
Proof.
  unfold executeIteration.
  destruct (findNextExecutableStep st) as [[i nextStep]|] eqn:Hnext.
  2:{ destruct (determineNextStep JSON_stringify self _ w) as [[[d|e] st1] w1]; by intros [= ? ? ?]. }
  destruct (Nat.leb (maxSteps self) (length (steps st))) eqn:Hlen; [by intros [= ? ? ?]|].
  apply Nat.leb_gt in Hlen.
  apply findNextExecutableStep_pending in Hnext as [Hi Hc].
  intros Hturn. exists i, nextStep. split; [done|]. split; [done|]. split; [done|].
  revert Hturn.
  destruct (executeStep _ _ self i nextStep _ w) as [[[v|stepError] st1] w1] eqn:Hexec.
  - intros [= ? ? ? ?]; subst. left. exists v.
    by apply executeStep_success_count in Hexec.
  - apply executeStep_failure in Hexec as [Hdone Hnums]; [|done|done].
    cbn [steps set_currentStepIndex] in Hdone, Hnums.
    destruct (Nat.leb maxPlanRegenerations count); [by intros [= ? ? ?]|].
    destruct (generatePlan JSON_stringify self query sp _ _ st1 w1) as [[[p|e] st2] w2] eqn:Hplan;
      [|by intros [= ? ? ?]].
    apply generatePlan_steps in Hplan.
    intros [= ? ? ? ?]; subst. right. cbn [steps set_steps].
    rewrite Hplan, mergeRegeneratedPlan_spec, Hdone. f_equal.
    unfold replanned, renumbered, maxStepNumber. by rewrite Hdone, Hnums.
Qed.

Lemma length_completedOf_lt (l : list ExecutionStep) i s :
  l !! i = Some s → step_completed s = false → length (completedOf l) < length l.
Proof.
  intros Hi Hc. unfold completedOf. eapply length_filter_lt.
  - by eapply list_elem_of_lookup_2.
  - by rewrite Hc.
Qed.
End Termination.


(** * Evaluating the statements on the sample inputs *)

Ltac solve_lookup H :=
  vm_compute in H; first [discriminate H | injection H as <-].

Ltac solve_elem H :=
  apply elem_of_map_to_list in H; vm_compute in H;
  repeat (apply elem_of_cons in H as [H | H]; [injection H as -> ->; split; reflexivity |]);
  by apply elem_of_nil in H.

Ltac solve_required H :=
  repeat (apply elem_of_cons in H as [-> | H]; [vm_compute; eauto |]);
  try by apply elem_of_nil in H.

Ltac solve_hasType := unfold hasType; simpl; eauto.

Ltac solve_bounds :=
  unfold withinBounds; simpl; split;
  [ intros s Ht Hs; first [discriminate Ht | discriminate Hs | injection Hs as <-];
    split; intros n Hn; first [discriminate Hn | injection Hn as <-; simpl; lia]
  | intros x Ht Hx; first [destruct Ht; discriminate | discriminate Hx | injection Hx as <-];
    split; intros n Hn; first [discriminate Hn | injection Hn as <-; lia] ].

Ltac solve_enum :=
  intros vals Hvals; first [discriminate Hvals | injection Hvals as <-];
  unfold inEnum; first [left; eexists; split; [reflexivity | set_solver]
                       | right; eexists; split; [reflexivity | set_solver]].

Ltac solve_leaf :=
  split; [reflexivity|]; split; [solve_hasType|]; split; [solve_enum|];
  split; [solve_bounds|]; done.

Lemma exampleRecord_conforms :
  recordConforms exampleRecord (normalizeToOpenAPISchema exampleParameters).
Proof.
  split; [|split].
  - intros f Hf. simpl in Hf. solve_required Hf.
  - intros k v Hk. solve_elem Hk.
  - simpl.
    split; [intros v Hv; solve_lookup Hv|].
    { solve_leaf. }
    split; [intros v Hv; solve_lookup Hv|].
    { solve_leaf. }
    split; [intros v Hv; solve_lookup Hv|].
    split; [intros v Hv; solve_lookup Hv|].
    { split; [reflexivity|]. split; [solve_hasType|]. split; [solve_enum|].
      split; [solve_bounds|]. split; [done|]. intros _. simpl.
      apply List.Forall_cons; [solve_leaf|].
      apply List.Forall_cons; [solve_leaf|]. apply List.Forall_nil. }
    split; [intros v Hv; solve_lookup Hv|done].
    { split; [reflexivity|]. split; [solve_hasType|]. split; [solve_enum|].
      split; [solve_bounds|]. split; [|done]. intros _. simpl.
      split; [|split].
      - intros f Hf. simpl in Hf. solve_required Hf.
      - intros k v Hk. solve_elem Hk.
      - simpl. split; [intros v Hv; solve_lookup Hv|].
        { solve_leaf. }
        split; [intros v Hv; solve_lookup Hv|done]. }
Qed.


(** * The claims about validation *)

(** Claim C3, on inputs where the code departs from it. The schema
    declares one required string field [query]; the record gives a number
    for it and carries a field [constructor] that the schema does not
    declare. Validation fails, and the error list holds the entry of the
    invalid field only: the test [key in schema.properties] finds
    [constructor] in [Object.prototype], so the undeclared field is not
    reported. In the same way, when the schema also requires a field
    [toString] and the record lacks it, the test [fieldName in data] finds
    the inherited member and the missing field is not reported; a record
    that has nothing but this omission validates. *)
Theorem inherited_names_escape_the_error_list :
  validateAgainstSchema (<["query" := JNum 5]> (<["constructor" := JStr "x"]> ∅))
    (OpenAPIFormat (mkSchema [("query", typeOnly "string")] (Some ["query"])) eq_refl)
  = mkValidationResult false None (Some ["Field 'query' must be a string, got number"])
  ∧ validateAgainstSchema (<["query" := JNum 5]> ∅)
      (OpenAPIFormat (mkSchema [("query", typeOnly "string")] (Some ["query"; "toString"]))
         eq_refl)
    = mkValidationResult false None (Some ["Field 'query' must be a string, got number"])
  ∧ validateAgainstSchema (<["query" := JStr "rocq"]> ∅)
      (OpenAPIFormat (mkSchema [("query", typeOnly "string")] (Some ["query"; "toString"]))
         eq_refl)
    = mkValidationResult true (Some (<["query" := JStr "rocq"]> ∅)) None.
Proof. repeat split; reflexivity. Qed.

(** Claim C7, on an input where the code departs from it. The schema
    declares a required string field [name] and an optional string field
    [constructor]; the record holds [name] and nothing else, so every
    required field is present and correctly typed and no field is
    undeclared. Validation fails all the same: the read [data[fieldName]]
    finds the member [constructor] of [Object.prototype], a function. *)
Theorem inherited_member_is_read_as_a_field :
  let schema :=
    mkSchema [("name", typeOnly "string"); ("constructor", typeOnly "string")]
             (Some ["name"]) in
  let data : JRecord := <["name" := JStr "Ada"]> ∅ in
  recordConforms data schema
  ∧ validateAgainstSchema data (OpenAPIFormat schema eq_refl)
    = mkValidationResult false None
        (Some ["Field 'constructor' must be a string, got function"]).
Proof.
  intros schema data. split; [|reflexivity]. subst schema data.
  split; [|split].
  - intros f Hf. simpl in Hf. solve_required Hf.
  - intros k v Hk. solve_elem Hk.
  - simpl. split; [intros v Hv; solve_lookup Hv|].
    { solve_leaf. }
    split; [intros v Hv; solve_lookup Hv | done].
Qed.


(** * The claims about the agent *)

Section AgentClaims.
Context {W : Type}.
Variable JSON_stringify : JValue → Outcome string.
Variable String_of : JValue → string.

(** Claim C8. For a registered tool that is not agentic, a call with
    non-empty explicit arguments and no forced extraction never invokes the
    gateway: the outcome and the final world are the same under any two
    gateways, and no gateway request is added to the trace. *)
Theorem explicit_call_never_asks_gateway
    (ts : list (Tool W)) (mr rd : nat) (vb : bool) (llm1 llm2 : ILLMService W)
    (toolCall : ToolCall) (tool : Tool W) (args : JRecord) (w : World W) :
  findTool ts (tc_tool toolCall) = Some tool →
  agentic tool = false →
  tc_arguments toolCall = Some args →
  0 < size args →
  callTool JSON_stringify (mkAgent ts mr rd vb llm1) toolCall false w
  = callTool JSON_stringify (mkAgent ts mr rd vb llm2) toolCall false w
  ∧ ∀ r w', callTool JSON_stringify (mkAgent ts mr rd vb llm1) toolCall false w = (r, w') →
      continues notGateway w w'.
Proof.
  intros Hfind Hag Hargs Hsize.
  assert (Nat.ltb 0 (size args) = true) as Hlt by (by apply Nat.ltb_lt).
  unfold callTool. rewrite Hargs. change (default ∅ (Some args)) with args.
  destruct (JSON_stringify (JObj args)) as [text|e].
  2:{ rewrite !bind_evaluate_Thrown. split; [done|].
      intros r w' [= <- <-]. apply continues_refl. }
  rewrite !bind_evaluate_Returned. unfold getTool. cbn [tools]. rewrite Hfind.
  rewrite !bind_ret_l. rewrite Hlt. cbn [negb andb].
  unfold effectiveArguments. rewrite Hlt, Hag. cbn [negb andb orb]. rewrite !bind_ret_l.
  cbn [maxRetries]. unfold throw.
  destruct (negb (isValid (validateAgainstSchema args (parametersSchema tool)))).
  - split; [done|]. intros r w' [= <- <-]. apply continues_refl.
  - split; [apply retryLoop_gateway_irrelevant|].
    intros r w'. apply retryLoop_no_gateway.
Qed.


(** Claim C9. On a retry of a call whose arguments came from extraction,
    when the regeneration fails (the helper throws, or the regenerated data
    does not validate) the loop goes on: the previous arguments are kept
    and [execute] is invoked with them on that attempt. *)
Theorem failed_regeneration_keeps_arguments (self : Agent W) (tool : Tool W)
    (toolName : string) (context0 : option string) (remaining attempt : nat)
    (finalArgs : JRecord) (lastError : Exn) (w w1 : World W) :
  1 < attempt →
  (∃ err, regenerateStructuredDataWithError JSON_stringify self tool (default "" context0) lastError w
          = (Thrown err, w1))
  ∨ (∃ regenerated,
       regenerateStructuredDataWithError JSON_stringify self tool (default "" context0) lastError w
       = (Returned regenerated, w1)
       ∧ isValid (validateAgainstSchema regenerated (parametersSchema tool)) = false) →
  regenerateOnRetry JSON_stringify self tool toolName context0 lastError finalArgs w = (Returned finalArgs, w1)
  ∧ retryLoop JSON_stringify self tool toolName context0 true (S remaining) attempt finalArgs (Some lastError) w
    = match tool_execute tool finalArgs (ext w1) with
      | (Returned result, x) =>
          (Returned result, mkWorld x (trace w1 ++ [EvExecute (tool_name tool) finalArgs]))
      | (Thrown e, x) =>
          bind (if Nat.ltb attempt (maxRetries self) then sleep (retryDelay self) else ret tt)
            (fun _ => retryLoop JSON_stringify self tool toolName context0 true remaining (S attempt)
                        finalArgs (Some e))
            (mkWorld x (trace w1 ++ [EvExecute (tool_name tool) finalArgs]))
      end.
Proof.
  intros Hatt Hregen.
  assert (regenerateOnRetry JSON_stringify self tool toolName context0 lastError finalArgs w
          = (Returned finalArgs, w1)) as Hkeep.
  { unfold regenerateOnRetry, tryCatch, bind.
    destruct Hregen as [(err & ->) | (d & -> & ->)]; reflexivity. }
  split; [exact Hkeep|].
  rewrite retryLoop_S. apply Nat.ltb_lt in Hatt. rewrite Hatt. cbn [andb].
  unfold bind at 1. rewrite Hkeep. unfold tryCatch, runTool, perform.
  destruct (tool_execute tool finalArgs (ext w1)) as [[result|e] x]; reflexivity.
Qed.


(** Claim C2. With forced extraction the call asks the gateway for the
    arguments, with a request built from the context and the tool alone,
    and the tool then runs on what the gateway returned, once validated:
    the explicit arguments of the call are discarded, so two calls that
    differ only in them behave alike. When the gateway fails or returns
    nothing valid the call fails and the tool does not run. A direct call
    with non-empty explicit arguments asks no one: the tool runs on these
    arguments, once validated, also when it is agentic. The orchestrator
    runs every step whose dependencies are met through [callTool] with
    forced extraction. The agent is taken with at least one attempt and
    log messages that can be built. *)
Theorem forced_extraction_replaces_arguments (self : Agent W) (tool : Tool W)
    (toolName : string) (context0 : option string) (args : JRecord) (w : World W) :
  let request :=
    mkRequest (ExtractionPrompt (parametersSchema tool) (tool_systemPrompt tool)
                 (str_or context0 "Generate Arguments for the given tool."))
              ("Extract parameters for " +:+ tool_name tool) None in
  let asked (x : W) := mkWorld x (trace w ++ [EvStructuredOutput request]) in
  let validated (d : JRecord) := vr_data (validateAgainstSchema d (parametersSchema tool)) in
  let forced := callTool JSON_stringify self (mkToolCall toolName (Some args) context0) true in
  let direct := callTool JSON_stringify self (mkToolCall toolName (Some args) context0) false in
  let rejected (r : Outcome JValue) :=
    ∃ msg, r = Thrown (AgentError ("Tool call validation failed for '" +:+ toolName
                                   +:+ "': " +:+ msg) (Some toolName) None) in
  findTool (tools self) toolName = Some tool →
  1 ≤ maxRetries self →
  (∀ d : JRecord, ∃ text, JSON_stringify (JObj d) = Returned text) →
  (0 < size args ∨ truthy context0 = true →
   match getArguments (llmService self) request (ext w) with
   | (Returned response, x) =>
       match (if resp_isValid response
              then validated (default ∅ (structuredData response)) else None) with
       | Some extracted =>
           match validated extracted with
           | Some finalArgs =>
               ∃ r w' evs,
                 forced w = (r, w')
                 ∧ trace w' = trace w ++ EvStructuredOutput request
                                      :: EvExecute (tool_name tool) finalArgs :: evs
           | None => ∃ r, forced w = (r, asked x) ∧ rejected r
           end
       | None =>
           ∃ msg, forced w
                  = (Thrown (AgentError ("Failed to extract parameters for agentic tool '"
                                         +:+ toolName +:+ "': " +:+ msg)
                               (Some toolName) None), asked x)
       end
   | (Thrown e, x) =>
       ∃ msg, forced w
              = (Thrown (AgentError ("Failed to extract parameters for agentic tool '"
                                     +:+ toolName +:+ "': " +:+ msg)
                           (Some toolName) None), asked x)
   end)
  ∧ (∀ args', 0 < size args → 0 < size args' →
       callTool JSON_stringify self (mkToolCall toolName (Some args') context0) true w
       = forced w)
  ∧ (0 < size args →
     match validated args with
     | Some finalArgs =>
         ∃ r w' evs,
           direct w = (r, w')
           ∧ trace w' = trace w ++ EvExecute (tool_name tool) finalArgs :: evs
     | None => ∃ r, direct w = (r, w) ∧ rejected r
     end)
  ∧ (∀ (orchestrator : Orchestrator W) (i : nat) (step : ExecutionStep)
       (st : OrchestratorState),
       agent orchestrator = self →
       Forall (fun d => depCompleted (steps st) d = true) (default [] (dependsOn step)) →
       ∃ call,
         tc_tool call = tc_tool (toolCall step)
         ∧ tc_arguments call = tc_arguments (toolCall step)
         ∧ ∀ w0, snd (executeStep JSON_stringify String_of orchestrator i step st w0)
                 = snd (callTool JSON_stringify self call true w0)).
Proof.
  intros request asked validated forced direct rejected Hfind Hretries Hser.
  destruct (Hser args) as [text Htext].
  destruct (maxRetries self) as [|retries] eqn:Hmax; [lia|].
  (* the call up to the effective arguments *)
  assert (∀ oc, 0 < size args ∨ truthy context0 = true →
            callTool JSON_stringify self (mkToolCall toolName (Some args) context0) oc w
            = bind (effectiveArguments JSON_stringify self tool toolName args context0 oc)
                (fun finalArgs =>
                   let validationResult :=
                     validateAgainstSchema finalArgs (parametersSchema tool) in
                   if negb (isValid validationResult)
                   then throw (AgentError
                                 ("Tool call validation failed for '" +:+ toolName +:+ "': "
                                  +:+ str_or (join ", " <$> vr_errors validationResult)
                                             "Unknown validation error")
                                 (Some toolName) None)
                   else retryLoop JSON_stringify self tool toolName context0
                          (agentic tool && negb (Nat.ltb 0 (size args)) && truthy context0)
                          (S retries) 1
                          (default finalArgs (vr_data validationResult)) None) w) as Hcall.
  { intros oc Hinput. unfold callTool. cbn [tc_tool tc_arguments tc_context].
    change (default ∅ (Some args)) with args.
    rewrite Htext, bind_evaluate_Returned. unfold getTool. rewrite Hfind, bind_ret_l.
    assert (negb (Nat.ltb 0 (size args)) && negb (truthy context0) = false) as ->.
    { destruct Hinput as [H | ->]; [|apply andb_false_r].
      apply Nat.ltb_lt in H. by rewrite H. }
    by rewrite Hmax. }
  (* what the call does once the effective arguments are there *)
  assert (∀ oc finalArgs0 w1,
            0 < size args ∨ truthy context0 = true →
            effectiveArguments JSON_stringify self tool toolName args context0 oc w
            = (Returned finalArgs0, w1) →
            match validated finalArgs0 with
            | Some finalArgs =>
                ∃ r w' evs,
                  callTool JSON_stringify self (mkToolCall toolName (Some args) context0) oc w
                  = (r, w')
                  ∧ trace w' = trace w1 ++ EvExecute (tool_name tool) finalArgs :: evs
            | None =>
                ∃ r, callTool JSON_stringify self (mkToolCall toolName (Some args) context0)
                       oc w = (r, w1) ∧ rejected r
            end) as Hrun.
  { intros oc finalArgs0 w1 Hinput Heff.
    pose proof (validateAgainstSchema_data finalArgs0 (parametersSchema tool)) as Hdata.
    unfold validated.
    destruct (vr_data (validateAgainstSchema finalArgs0 (parametersSchema tool)))
      as [finalArgs|] eqn:Hd;
      rewrite (Hcall oc Hinput); unfold bind at 1; rewrite Heff; cbv beta iota zeta.
    - rewrite Hdata. cbn [isValid vr_data negb default from_option id].
      destruct (retryLoop JSON_stringify self tool toolName context0
                  (agentic tool && negb (Nat.ltb 0 (size args)) && truthy context0)
                  (S retries) 1 finalArgs None w1) as [r w'] eqn:Hloop.
      apply retryLoop_runs_first in Hloop as Htr. destruct Htr as [evs Htr].
      by exists r, w', evs.
    - destruct Hdata as (e & errs & ->). cbn [isValid negb]. unfold throw, rejected. eauto. }
  split; [|split; [|split]].
  - (* forced extraction *)
    intros Hinput.
    assert (∀ r0 w1,
              generateStructuredDataForTool JSON_stringify self tool
                (str_or context0 "Generate Arguments for the given tool.") w = (Thrown r0, w1) →
              ∃ msg, forced w
                     = (Thrown (AgentError ("Failed to extract parameters for agentic tool '"
                                            +:+ toolName +:+ "': " +:+ msg)
                                  (Some toolName) None), w1)) as Hfailed.
    { intros r0 w1 Hgen. unfold forced. rewrite (Hcall true Hinput).
      unfold bind at 1, effectiveArguments. rewrite orb_true_r. unfold tryCatch.
      rewrite Hgen. unfold throw. eauto. }
    assert (∀ d w1,
              generateStructuredDataForTool JSON_stringify self tool
                (str_or context0 "Generate Arguments for the given tool.") w = (Returned d, w1) →
              effectiveArguments JSON_stringify self tool toolName args context0 true w
              = (Returned d, w1)) as Hgot.
    { intros d w1 Hgen. unfold effectiveArguments. rewrite orb_true_r. unfold tryCatch.
      by rewrite Hgen. }
    revert Hfailed Hgot.
    unfold generateStructuredDataForTool, tryCatch, bind, askArguments, perform.
    fold request.
    destruct (getArguments (llmService self) request (ext w)) as [[response|e] x].
    2:{ intros Hfailed _. by eapply Hfailed. }
    fold (asked x). unfold checkExtracted.
    destruct (resp_isValid response); cbn [negb].
    2:{ intros Hfailed _. by eapply Hfailed. }
    pose proof (validateAgainstSchema_data (default ∅ (structuredData response))
                  (parametersSchema tool)) as Hdata.
    unfold validated at 1.
    destruct (vr_data (validateAgainstSchema (default ∅ (structuredData response))
                         (parametersSchema tool))) as [extracted|] eqn:Hd.
    + rewrite Hdata. cbn [isValid vr_data negb default from_option id].
      destruct (Hser extracted) as [shown Hshown].
      assert ((if verbose self
               then bind (evaluate (JSON_stringify (JObj extracted)))
                      (fun _ => ret extracted)
               else ret extracted) (asked x) = (Returned extracted, asked x)) as ->.
      { destruct (verbose self); [|done]. by rewrite Hshown. }
      intros _ Hgot. specialize (Hrun true extracted (asked x) Hinput (Hgot _ _ eq_refl)).
      destruct (validated extracted) as [finalArgs|]; [|exact Hrun].
      destruct Hrun as (r & w' & evs & Hres & Htr). exists r, w', evs.
      split; [exact Hres|]. rewrite Htr. unfold asked. simpl. by rewrite <- app_assoc.
    + destruct Hdata as (e & errs & ->). cbn [isValid negb].
      intros Hfailed _. by eapply Hfailed.
  - (* the explicit arguments play no part *)
    intros args' H1 H2. destruct (Hser args') as [text' Htext'].
    apply Nat.ltb_lt in H1, H2. unfold forced, callTool.
    cbn [tc_tool tc_arguments tc_context].
    change (default ∅ (Some args)) with args. change (default ∅ (Some args')) with args'.
    rewrite Htext, Htext', !bind_evaluate_Returned.
    unfold bind at 1 3. destruct (getTool self toolName w) as [[t|e] w1]; [|done].
    rewrite H1, H2. cbn [negb andb].
    unfold bind, effectiveArguments. by rewrite !orb_true_r, !andb_false_r.
  - (* a direct call *)
    intros Hsize.
    assert (effectiveArguments JSON_stringify self tool toolName args context0 false w
            = (Returned args, w)) as Heff.
    { apply Nat.ltb_lt in Hsize. unfold effectiveArguments.
      rewrite Hsize. cbn [negb]. rewrite andb_false_r, orb_false_r. cbn [orb andb].
      rewrite andb_true_r. by destruct (agentic tool). }
    exact (Hrun false args w (or_introl Hsize) Heff).
  - (* the orchestrator *)
    intros orchestrator i step st <- Hdeps.
    by apply executeStep_forces_extraction.
Qed.
End AgentClaims.


(** * The claims about the orchestrator *)

Section OrchestratorClaims.
Context {W : Type}.
Variable JSON_stringify : JValue → Outcome string.
Variable String_of : JValue → string.




(** Claim C1, amended. Reaching the step-count ceiling ends the run with
    status [completed] and [success = true], and a response saying that the
    limit was reached: this is what a turn of the loop does when
    [steps.length >= maxSteps] and a step is pending, and in a run of
    [execute] a step is pending whenever a turn starts at the ceiling.
    Reaching the plan-regeneration ceiling, that is a step failing once
    [maxPlanRegenerations] regenerations have been made, ends the run with
    status [error] and [success = false]. The regeneration count never
    exceeds the ceiling, so the loop is never left through its
    condition. *)
Theorem ceilings_end_the_run (self : Orchestrator W) (query : string)
    (systemPrompt : option string) (count fuel : nat) (planResponse : PlanningResponse)
    (st : OrchestratorState) (w : World W) :
  count ≤ maxPlanRegenerations →
  (maxSteps self ≤ length (steps st) → pendingOf st ≠ [] →
     ∃ r, executeLoop JSON_stringify String_of self (S fuel) query systemPrompt count planResponse st w
          = Some (r, w)
          ∧ success r = true
          ∧ status (result_state r) = completed
          ∧ finalResponse r = "Execution completed (reached maximum steps limit)."
          ∧ result_error r = None)
  ∧ (∀ i nextStep stepError st1 w1,
       findNextExecutableStep st = Some (i, nextStep) →
       length (steps st) < maxSteps self →
       count = maxPlanRegenerations →
       executeStep JSON_stringify String_of self i nextStep
         (set_currentStepIndex (jsSub (stepNumber nextStep) 1) st) w = (Thrown stepError, st1, w1) →
       ∃ r, executeLoop JSON_stringify String_of self (S fuel) query systemPrompt count planResponse st w
            = Some (r, w1)
            ∧ success r = false
            ∧ status (result_state r) = error
            ∧ finalResponse r
              = "Execution failed after 3 plan regenerations: " +:+ errorMessage stepError
            ∧ result_error r = Some (errorMessage stepError))
  ∧ (∀ count' planResponse' st' w',
       executeIteration JSON_stringify String_of self query systemPrompt count planResponse st w
       = (Continue count' planResponse' st', w') →
       count' ≤ maxPlanRegenerations
       ∧ (maxSteps self ≤ length (steps st') → pendingOf st' ≠ []))
  ∧ (∀ plan st0,
       1 ≤ maxSteps self →
       maxSteps self ≤ length (convertToExecutionSteps plan) →
       pendingOf (set_steps (convertToExecutionSteps plan) st0) ≠ []).
Proof.
  intros Hcount.
  assert (Nat.leb count maxPlanRegenerations = true) as Hcond by (by apply Nat.leb_le).
  split; [|split; [|split]].
  - intros Hceil Hpending. apply Nat.leb_le in Hceil.
    destruct (findNextExecutableStep_cases st)
      as [[Hp _] | [(fp & rest & _ & _ & Hnext) | (first & rest & _ & Hnext)]]; [done| |].
    + destruct fp as [i nextStep].
      eexists. cbn [executeLoop]. rewrite Hcond. unfold executeIteration.
      rewrite Hnext, Hceil. split; [reflexivity|]. by repeat split.
    + destruct (lowest first rest) as [i nextStep].
      eexists. cbn [executeLoop]. rewrite Hcond. unfold executeIteration.
      rewrite Hnext, Hceil. split; [reflexivity|]. by repeat split.
  - intros i nextStep stepError st1 w1 Hnext Hlen -> Hexec. apply Nat.leb_gt in Hlen.
    eexists. cbn [executeLoop]. rewrite Hcond. unfold executeIteration.
    rewrite Hnext, Hlen, Hexec. cbn [Nat.leb maxPlanRegenerations].
    split; [reflexivity|]. by repeat split.
  - intros count' planResponse' st' w' Hturn. split.
    + apply executeIteration_progress in Hturn as [[-> _] | [-> Hlt]]; lia.
    + apply (executeIteration_steps JSON_stringify String_of) in Hturn
        as (i & nextStep & Hi & Hc & Hlen & [[v Hsame] | Hnew]).
      * intros Hceil. rewrite Hsame, length_insert in Hceil. lia.
      * intros Hceil. rewrite Hnew, length_app in Hceil.
        pose proof (length_completedOf_lt (steps st) i nextStep Hi Hc) as Hdone.
        destruct (replanned (steps st) planResponse') as [|s new] eqn:Hren;
          [simpl in Hceil; lia|].
        intros Hnone.
        assert (s ∈ replanned (steps st) planResponse') as Hs by (rewrite Hren; by left).
        apply elem_of_replanned in Hs.
        assert (s ∈ steps st') as Hin.
        { rewrite Hnew. apply elem_of_app. right. by left. }
        apply list_elem_of_lookup in Hin as [k Hk].
        assert ((k, s) ∈ pendingOf st') as Hp by (by apply elem_of_pendingOf).
        rewrite Hnone in Hp. by apply elem_of_nil in Hp.
  - intros plan st0 Hone Hceil Hnone. cbn [steps set_steps] in *.
    destruct (convertToExecutionSteps plan) as [|s l] eqn:Hconv; [simpl in Hceil; lia|].
    assert (step_completed s = false) as Hc.
    { unfold convertToExecutionSteps in Hconv.
      destruct (default [] (pl_steps plan)) as [|p ps]; [done|].
      simpl in Hconv. by injection Hconv as <- _. }
    assert ((0, s) ∈ pendingOf (set_steps (s :: l) st0)) as Hp
      by (by apply elem_of_pendingOf).
    rewrite Hnone in Hp. by apply elem_of_nil in Hp.
Qed.
End OrchestratorClaims.


(** * The agent claims on the sample inputs *)


Lemma sampleStringify_returns (d : JRecord) :
  ∃ text, sampleStringify (JObj d) = Returned text.
Proof. by eexists. Qed.

Lemma forced_extraction_replaces_arguments_witness :
  (∃ r w' evs,
     callTool sampleStringify (sampleAgent scriptedGateway) searchCall true startWorld = (r, w')
     ∧ trace w'
       = trace startWorld
         ++ EvStructuredOutput
              (mkRequest (ExtractionPrompt searchSchema None "Find rocq")
                         "Extract parameters for search" None)
            :: EvExecute "search" searchArguments :: evs)
  ∧ callTool sampleStringify (sampleAgent scriptedGateway)
      (mkToolCall "search" (Some (<["anything" := JNull]> ∅)) (Some "Find rocq")) true startWorld
    = callTool sampleStringify (sampleAgent scriptedGateway) searchCall true startWorld.
Proof.
  destruct (forced_extraction_replaces_arguments sampleStringify sampleString
              (sampleAgent scriptedGateway)
              searchTool "search" (Some "Find rocq") (<["query" := JStr "coq"]> ∅) startWorld)
    as (Hforced & Hsame & _).
  - reflexivity.
  - simpl. lia.
  - exact sampleStringify_returns.
  - split.
    + apply Hforced. left. vm_compute. lia.
    + apply Hsame; vm_compute; lia.
Defined.


Lemma explicit_call_never_asks_gateway_witness :
  callTool sampleStringify (sampleAgent offlineGateway) addCall false startWorld
  = callTool sampleStringify (sampleAgent scriptedGateway) addCall false startWorld.
Proof.
  apply (explicit_call_never_asks_gateway sampleStringify [addTool; searchTool] 2 0 false
           offlineGateway
           scriptedGateway addCall addTool (<["a" := JNum 5]> (<["b" := JNum 3]> ∅))
           startWorld).
  - reflexivity.
  - reflexivity.
  - reflexivity.
  - vm_compute. lia.
Defined.

Lemma failed_regeneration_keeps_arguments_witness :
  ∃ w1,
    regenerateOnRetry sampleStringify (sampleAgent offlineGateway) searchTool "search" (Some "Find rocq")
      (PlainError "Error" "network down") searchArguments startWorld
    = (Returned searchArguments, w1).
Proof.
  eexists.
  apply (failed_regeneration_keeps_arguments sampleStringify (sampleAgent offlineGateway)
           searchTool "search"
           (Some "Find rocq") 0 2 searchArguments (PlainError "Error" "network down") startWorld).
  - lia.
  - left. eexists. reflexivity.
Defined.

(** [callTools] on the sample calls: given [orchestratorCall = true] it still
    runs the explicit arguments of [addCall], where [callTool] with forced
    extraction asks the gateway and fails on what it extracts. *)
Lemma callTools_on_sample_calls :
  fst (callTools sampleStringify (sampleAgent scriptedGateway) [addCall] true startWorld)
  = Returned [JNum 8]
  ∧ gatewayRequests (snd (callTools sampleStringify (sampleAgent scriptedGateway) [addCall] true startWorld))
    = []
  ∧ gatewayRequests (snd (callTool sampleStringify (sampleAgent scriptedGateway) addCall true startWorld))
    = ["Extract parameters for add"].
Proof. by vm_compute. Qed.


(** * The orchestrator claims on the sample inputs *)




Lemma ceilings_end_the_run_witness :
  ∃ r, executeLoop sampleStringify sampleString tightOrchestrator 1 "Add, then search" None 0 searchPlan
         runningState startWorld = Some (r, startWorld)
       ∧ success r = true
       ∧ status (result_state r) = completed
       ∧ finalResponse r = "Execution completed (reached maximum steps limit).".
Proof.
  destruct (ceilings_end_the_run sampleStringify sampleString tightOrchestrator "Add, then search" None
              0 0 searchPlan runningState startWorld) as (Hceiling & _).
  - unfold maxPlanRegenerations. lia.
  - destruct Hceiling as (r & Hrun & Hok & Hstatus & Hresponse & _).
    + simpl. lia.
    + vm_compute. discriminate.
    + exists r. by repeat split.
Defined.

(** Claim C1 fails as stated: a run whose step keeps failing makes its three
    plan regenerations and then ends with status [error], not [completed]. *)
Lemma regeneration_ceiling_ends_in_error :
  ∃ r w',
    execute sampleStringify sampleString sampleOrchestrator 20 "What is Rocq?" None startWorld = Some (r, w')
    ∧ length (filter (fun d => d = "Regenerated action plan for agent orchestrator")
                     (gatewayRequests w')) = maxPlanRegenerations
    ∧ ¬ (status (result_state r) = completed ∧ success r = true)
    ∧ status (result_state r) = error
    ∧ success r = false
    ∧ finalResponse r
      = "Execution failed after 3 plan regenerations: Step 4 execution failed: Tool 'search' failed after 2 attempts: network down".
Proof.
  vm_compute. eexists _, _. split; [reflexivity|].
  split; [reflexivity|]. split; [by intros [? ?]|]. by repeat split.
Qed.


(** * Further properties of the validator *)

Section AcceptanceFacts.

Lemma checks_typeAccepted t v :
  isNullish v = false →
  String.eqb t "integer" && negb (String.eqb (typeof v) "number") = false →
  String.eqb t "number" && negb (String.eqb (typeof v) "number") = false →
  String.eqb t "string" && negb (String.eqb (typeof v) "string") = false →
  String.eqb t "boolean" && negb (String.eqb (typeof v) "boolean") = false →
  String.eqb t "array" && negb (isArray v) = false →
  String.eqb t "object" && negb (isObjectValue v) = false →
  typeAccepted t v.
Proof.
  intros Hn C1 C2 C3 C4 C5 C6. unfold typeAccepted, hasType.
  repeat case_decide; subst; try (by left).
  - left. destruct v; try done; eauto.
  - left. destruct H0; subst; destruct v; try done; eauto.
  - left. destruct v; try done; eauto.
  - left. destruct v; try done; eauto.
  - destruct v; try done; [left; eauto | by right].
Qed.

Lemma includes_inEnum vals v : enumIncludes vals v = true → inEnum vals v.
Proof.
  unfold enumIncludes, inEnum. destruct v; try done; rewrite existsb_exists.
  - intros ([s'|n'] & Hin & Heq); [done|]. apply Z.eqb_eq in Heq. subst.
    right. exists n. split; [done | by apply list_elem_of_In].
  - intros ([s'|n'] & Hin & Heq); [|done]. apply String.eqb_eq in Heq. subst.
    left. exists s. split; [done | by apply list_elem_of_In].
Qed.

Lemma checks_withinBounds p v :
  (String.eqb (type p) "string" && String.eqb (typeof v) "string"
     && match minLength p with Some n => Nat.ltb (strLength v) n | None => false end = false) →
  (String.eqb (type p) "string" && String.eqb (typeof v) "string"
     && match maxLength p with Some n => Nat.ltb n (strLength v) | None => false end = false) →
  ((String.eqb (type p) "number" || String.eqb (type p) "integer")
     && String.eqb (typeof v) "number"
     && match minimum p with Some n => Z.ltb (numValue v) n | None => false end = false) →
  ((String.eqb (type p) "number" || String.eqb (type p) "integer")
     && String.eqb (typeof v) "number"
     && match maximum p with Some n => Z.ltb n (numValue v) | None => false end = false) →
  withinBounds p v.
Proof.
  intros B1 B2 B3 B4. split.
  - intros s Hs ->. rewrite Hs in B1, B2. simpl in B1, B2. split.
    + intros n Hn. rewrite Hn in B1. by apply Nat.ltb_ge in B1.
    + intros n Hn. rewrite Hn in B2. by apply Nat.ltb_ge in B2.
  - intros x Hx ->.
    assert (String.eqb (type p) "number" || String.eqb (type p) "integer" = true) as E.
    { destruct Hx as [-> | ->]; reflexivity. }
    rewrite E in B3, B4. simpl in B3, B4. split.
    + intros n Hn. rewrite Hn in B3. by apply Z.ltb_ge in B3.
    + intros n Hn. rewrite Hn in B4. by apply Z.ltb_ge in B4.
Qed.

Section Loops.
Variable vp : JValue -> OpenAPISchemaProperty -> string -> PropertyResult.

Lemma itemsLoop_errors itemSchema path (Q : JValue → Prop) vals i acc :
  (∀ v path', pr_isValid (vp v itemSchema path') = true ↔ Q v) →
  fst (itemsLoop vp itemSchema path vals i acc) = [] ↔ fst acc = [] ∧ Forall Q vals.
Proof.
  intros HQ. revert i acc. induction vals as [|v vals IH]; intros i [errs ok]; simpl.
  - split; [by intros -> | by intros [-> _]].
  - destruct (pr_isValid (vp v itemSchema _)) eqn:Hv; simpl; rewrite IH; simpl.
    + apply HQ in Hv. split; [intros [-> HF]; by split; [|constructor] |].
      intros [-> HF]. split; [done|]. by inversion HF.
    + split.
      * intros [Hnil _]. by destruct errs.
      * intros [_ HF]. inversion HF as [|? ? Hq]; subst.
        rewrite (proj2 (HQ v _) Hq) in Hv. done.
Qed.

Lemma requiredErrors_nil data req :
  requiredErrors data req = []
  ↔ ∀ f, f ∈ req → hasField data f = true ∧ isNullish (getField data f) = false.
Proof.
  unfold requiredErrors. induction req as [|f req IH]; simpl.
  - split; [by intros _ f ?%elem_of_nil | done].
  - destruct (negb (hasField data f) || isNullish (getField data f)) eqn:E; simpl.
    + split; [done|]. intros H. destruct (H f) as [Hs Hn]; [by left|].
      by rewrite Hs, Hn in E.
    + rewrite IH. apply orb_false_iff in E as [Hh Hn].
      apply negb_false_iff in Hh. split.
      * intros H g [-> | Hg]%elem_of_cons; [done | by apply H].
      * intros H g Hg. apply H. by right.
Qed.

Lemma extraErrors_nil data props :
  extraErrors data props = []
  ↔ ∀ k, is_Some (asRecord data !! k) → declared props k = true.
Proof.
  unfold extraErrors. split.
  - intros Hnil k [v Hk]. destruct (declared props k) eqn:Hd; [done|]. exfalso.
    assert (("Unexpected field: " +:+ k) ∈ @nil string) as Hin; [|by apply elem_of_nil in Hin].
    rewrite <- Hnil. apply list_elem_of_In, in_flat_map. exists (k, v).
    split; [by apply list_elem_of_In, elem_of_map_to_list|]. simpl. rewrite Hd. by left.
  - intros H. apply extraErrors_conforms. intros k v Hk. apply H. by exists v.
Qed.

Lemma fieldErrorsWith_nil (A : JValue → OpenAPISchemaProperty → Prop) data req props :
  Forall (fun kp => ∀ v path, pr_isValid (vp v (snd kp) path) = true ↔ A v (snd kp)) props →
  fieldErrorsWith vp data req props = [] ↔ fieldsAccepted A data req props.
Proof.
  induction 1 as [|[f p] props Hp _ IH]; simpl; [done|].
  rewrite app_nil, IH. simpl in Hp.
  unfold skipped, passedOver.
  destruct (negb (includes req f) && isNullish (getField data f)) eqn:E.
  - apply andb_true_iff in E as [E1 E2]. apply negb_true_iff in E1.
    split; [intros [_ ?]; split; [by left|done] | intros [_ ?]; by split].
  - destruct (pr_isValid (vp (getField data f) p f)) eqn:Hv; simpl.
    + apply Hp in Hv. split; [intros [_ ?]; split; [by right|done] | intros [_ ?]; by split].
    + split; [by intros [? _]|]. intros [[[E1 E2] | Ha] _].
      * rewrite E1, E2 in E. done.
      * rewrite (proj2 (Hp _ _) Ha) in Hv. done.
Qed.

Lemma validateObjectWith_valid (A : JValue → OpenAPISchemaProperty → Prop) data props rq :
  Forall (fun kp => ∀ v path, pr_isValid (vp v (snd kp) path) = true ↔ A v (snd kp)) props →
  isValid (validateObjectWith vp data props rq) = true ↔ recordAcceptedWith A data props rq.
Proof.
  intros HF. rewrite validateObjectWith_spec. unfold recordAcceptedWith.
  rewrite <- requiredErrors_nil, <- extraErrors_nil, <- (fieldErrorsWith_nil A) by done.
  destruct (requiredErrors data (requiredFields rq)) as [|e1 l1]; simpl.
  2:{ split; [done | by intros [? _]]. }
  destruct (fieldErrorsWith vp data (requiredFields rq) props) as [|e2 l2]; simpl.
  2:{ split; [done | by intros (_ & _ & ?)]. }
  destruct (extraErrors data props) as [|e3 l3]; simpl; [done|].
  split; [done | by intros (_ & ? & _)].
Qed.
End Loops.
End AcceptanceFacts.
Lemma validateProperty_accepts p :
  ∀ v path, pr_isValid (validateProperty v p path) = true ↔ acceptedBy v p.
Proof.
  induction p as [t d it ps rq en mn mx ml mxl IHit IHps] using property_nested_ind.
  intros v path.
  set (p := mkProperty t d it ps rq en mn mx ml mxl).
  assert (∀ itemSchema, it = Some itemSchema →
            pr_isValid
              (if String.eqb t "array" && isArray v
               then
                 let '(itemErrors, validatedItems) :=
                   itemsLoop validateProperty itemSchema path (arrItems v) 0 ([], []) in
                 if Nat.ltb 0 (length itemErrors)
                 then propFail (join "; " itemErrors)
                 else propOk (JArr validatedItems)
               else propOk v) = true
            ↔ (t = "array" → isArray v = true →
               Forall (fun x => acceptedBy x itemSchema) (arrItems v))) as Harr.
  { intros itemSchema ->.
    destruct (String.eqb t "array") eqn:Et; simpl.
    2:{ apply String.eqb_neq in Et. split; [by intros _ ? | done]. }
    apply String.eqb_eq in Et. destruct (isArray v) eqn:Ea.
    2:{ split; [by intros _ _ ? | done]. }
    pose proof (itemsLoop_errors validateProperty itemSchema path
                  (fun x => acceptedBy x itemSchema) (arrItems v) 0 ([], [])
                  (IHit itemSchema eq_refl)) as Hloop.
    destruct (itemsLoop validateProperty itemSchema path (arrItems v) 0 ([], []))
      as [itemErrors validatedItems]. simpl in Hloop.
    destruct itemErrors as [|e es]; simpl.
    - split; [|done]. intros _ _ _. by destruct (proj1 Hloop eq_refl).
    - split; [done|]. intros H. specialize (H Et eq_refl).
      discriminate (proj2 Hloop (conj eq_refl H)). }
  split.
  - (* valid: every check passed *)
    subst p. simpl.
    destruct (isNullish v) eqn:Hn; [done|].
    destruct (String.eqb t "integer" && _) eqn:C1; [done|].
    destruct (String.eqb t "number" && negb _) eqn:C2; [done|].
    destruct (String.eqb t "string" && negb _) eqn:C3; [done|].
    destruct (String.eqb t "boolean" && _) eqn:C4; [done|].
    destruct (String.eqb t "array" && negb _) eqn:C5; [done|].
    destruct (String.eqb t "object" && _) eqn:C6; [done|].
    pose proof (checks_typeAccepted t v Hn C1 C2 C3 C4 C5 C6) as Ht.
    destruct (match en with Some vals => negb (enumIncludes vals v) | None => false end)
      eqn:Cen; [done|].
    destruct (String.eqb t "string" && String.eqb (typeof v) "string"
              && match ml with Some n => Nat.ltb (strLength v) n | None => false end)
      eqn:B1; [done|].
    destruct (String.eqb t "string" && String.eqb (typeof v) "string"
              && match mxl with Some n => Nat.ltb n (strLength v) | None => false end)
      eqn:B2; [done|].
    destruct ((String.eqb t "number" || String.eqb t "integer")
              && String.eqb (typeof v) "number"
              && match mn with Some n => Z.ltb (numValue v) n | None => false end)
      eqn:B3; [done|].
    destruct ((String.eqb t "number" || String.eqb t "integer")
              && String.eqb (typeof v) "number"
              && match mx with Some n => Z.ltb n (numValue v) | None => false end)
      eqn:B4; [done|].
    intros Hrest.
    split; [done|]. split; [done|]. split.
    { intros vals [= ->]. apply includes_inEnum. by apply negb_false_iff. }
    split.
    { by apply (checks_withinBounds (mkProperty t d it ps rq en mn mx ml mxl) v). }
    assert (match it with
            | Some itemSchema =>
                t = "array" → Forall (fun x => acceptedBy x itemSchema) (arrItems v)
            | None => True
            end
            ∨ (∃ props, ps = Some props ∧ t = "object")) as Hitems.
    { destruct ps as [props|].
      - destruct (String.eqb t "object") eqn:Eo; [right; exists props; split; [done|];
          by apply String.eqb_eq|].
        left. destruct it as [itemSchema|]; [|done].
        intros Ht'. apply (Harr itemSchema eq_refl); [done | done |].
        subst t. apply andb_false_iff in C5 as [C5|C5]; [done|]. by apply negb_false_iff.
      - left. destruct it as [itemSchema|]; [|done].
        intros Ht'. apply (Harr itemSchema eq_refl); [done | done |].
        subst t. apply andb_false_iff in C5 as [C5|C5]; [done|]. by apply negb_false_iff. }
    split.
    + destruct ps as [props|]; [|done]. intros ->. simpl in Hrest.
      destruct (isValid (validateObjectWith validateProperty v props rq)) eqn:Hv;
        [|done].
      apply (validateObjectWith_valid validateProperty acceptedBy) in Hv; [done|].
      by apply IHps.
    + destruct Hitems as [H | (props & -> & ->)]; [done|].
      destruct it as [itemSchema|]; [|done]. intros [=].
  - (* accepted: no check fires *)
    intros Hacc. assert (Hacc' := Hacc). subst p. simpl in Hacc'.
    destruct Hacc' as (Hn & Ht & He & Hb & Hps & Hit).
    destruct (typeAccepted_checks t v Hn Ht) as (C1 & C2 & C3 & C4 & C5 & C6).
    destruct (withinBounds_checks (mkProperty t d it ps rq en mn mx ml mxl) v Hb)
      as (B1 & B2 & B3 & B4).
    simpl in B1, B2, B3, B4. simpl.
    rewrite Hn, C1, C2, C3, C4, C5, C6.
    assert (match en with Some vals => negb (enumIncludes vals v) | None => false end = false)
      as ->.
    { destruct en as [vals|]; [|done]. by rewrite (inEnum_includes _ _ (He vals eq_refl)). }
    rewrite B1, B2, B3, B4.
    assert (pr_isValid
              (match it with
               | Some itemSchema =>
                   if String.eqb t "array" && isArray v
                   then
                     let '(itemErrors, validatedItems) :=
                       itemsLoop validateProperty itemSchema path (arrItems v) 0 ([], []) in
                     if Nat.ltb 0 (length itemErrors)
                     then propFail (join "; " itemErrors)
                     else propOk (JArr validatedItems)
                   else propOk v
               | None => propOk v
               end) = true) as Hitems.
    { destruct it as [itemSchema|]; [|done].
      apply (Harr itemSchema eq_refl). intros Ht' _. by apply Hit. }
    destruct ps as [props|]; [|exact Hitems].
    destruct (String.eqb t "object") eqn:Eo; [|exact Hitems].
    apply String.eqb_eq in Eo. specialize (Hps Eo).
    apply (validateObjectWith_valid validateProperty acceptedBy) in Hps; [|by apply IHps].
    by rewrite Hps.
Qed.

(** Extra X1. [validateAgainstSchema] reports a record as valid exactly when
    the record is accepted by the normalised schema: every required field is
    present and not null, every field of the record is declared, and every
    declared field that is not passed over has the declared type, is listed
    in the enum, lies within the bounds and, for nested objects and arrays
    with an item schema, is accepted in turn. *)
Theorem validation_decides_acceptance (data : JRecord) (schema : ParametersSchema) :
  isValid (validateAgainstSchema data schema) = true
  ↔ recordAccepted data (normalizeToOpenAPISchema schema).
Proof.
  unfold validateAgainstSchema, validateAgainstOpenAPISchema, recordAccepted.
  apply validateObjectWith_valid. apply Forall_forall. intros kp _ v path.
  apply validateProperty_accepts.
Qed.
Section ShapeFacts.
Lemma append_nonempty (a b : string) : a ≠ "" → a +:+ b ≠ "".
Proof. destruct a; [done|]. by intros _. Qed.

Lemma join_nonempty sep (l : list string) :
  l ≠ [] → Forall (fun e => e ≠ "") l → join sep l ≠ "".
Proof.
  destruct l as [|x l]; [done|]. intros _ HF. inversion HF as [|? ? Hx _]; subst.
  simpl. destruct l; [done|]. by apply append_nonempty.
Qed.

Lemma str_or_nonempty (a : option string) (b : string) : b ≠ "" → str_or a b ≠ "".
Proof.
  intros Hb. unfold str_or. destruct a as [s|]; [|done].
  destruct (String.eqb s "") eqn:E; [done|]. by apply String.eqb_neq in E.
Qed.

Lemma str_or_Some_nonempty (s b : string) : s ≠ "" → str_or (Some s) b = s.
Proof. intros Hs. unfold str_or. apply String.eqb_neq in Hs. by rewrite Hs. Qed.

Lemma validation_errors_nonempty vp data props rq e :
  e ∈ requiredErrors data (requiredFields rq)
      ++ fieldErrorsWith vp data (requiredFields rq) props ++ extraErrors data props →
  e ≠ "".
Proof.
  intros [He | [He | He]%elem_of_app]%elem_of_app.
  - apply requiredErrors_inv in He as (f & _ & _ & ->). done.
  - apply fieldErrorsWith_inv in He as (f & p & _ & _ & _ & ->).
    unfold fieldError. by apply str_or_nonempty.
  - apply extraErrors_inv in He as (k & _ & _ & ->). done.
Qed.
End ShapeFacts.

(** Extra X2. The result of [validateAgainstSchema] has one of two shapes:
    valid, with the validated data and no error list; or invalid, with no
    data and a non-empty list of non-empty messages. In the second case the
    text [errors.join(", ") || "Unknown validation error"] that [callTool]
    builds is the joined list, never the fallback. *)
Theorem validation_result_shape (data : JRecord) (schema : ParametersSchema) :
  let res := validateAgainstSchema data schema in
  (isValid res = true ∧ (∃ sanitized, vr_data res = Some sanitized) ∧ vr_errors res = None)
  ∨ (isValid res = false ∧ vr_data res = None
     ∧ ∃ errs, vr_errors res = Some errs ∧ errs ≠ [] ∧ Forall (fun e => e ≠ "") errs
               ∧ str_or (join ", " <$> vr_errors res) "Unknown validation error"
                 = join ", " errs).
Proof.
  intros res. unfold res, validateAgainstSchema, validateAgainstOpenAPISchema.
  rewrite validateObjectWith_spec.
  set (errs := requiredErrors _ _ ++ _ ++ _).
  assert (Forall (fun e => e ≠ "") errs) as Hne.
  { apply Forall_forall. intros e He. by eapply validation_errors_nonempty. }
  destruct errs as [|e0 rest] eqn:Herrs.
  - left. simpl. eauto.
  - right. simpl. split; [done|]. split; [done|]. exists (e0 :: rest).
    split; [done|]. split; [done|]. split; [done|].
    apply str_or_Some_nonempty. by apply join_nonempty.
Qed.

Section NormalizeFacts.
Lemma normalize_simplified entries shape :
  map fst (schema_properties (normalizeToOpenAPISchema (SimplifiedFormat entries shape)))
  = map fst entries
  ∧ schema_required (normalizeToOpenAPISchema (SimplifiedFormat entries shape))
    = Some (map fst entries).
Proof.
  unfold normalizeToOpenAPISchema.
  set (step := fun (acc : list (string * OpenAPISchemaProperty) * list string)
                   (kv : string * SimpleEntry) => _).
  assert (∀ l ps rq, map fst (fst (fold_left step l (ps, rq))) = map fst ps ++ map fst l
                     ∧ snd (fold_left step l (ps, rq)) = rq ++ map fst l) as Hfold.
  { induction l as [|[k e] l IH]; intros ps rq; simpl.
    - by rewrite !app_nil_r.
    - destruct e as [p|t|]; simpl;
        match goal with
        | |- context [fold_left step l (?a, ?b)] => destruct (IH a b) as [H1 H2]
        end; rewrite H1, H2, map_app, <- !app_assoc; done. }
  destruct (Hfold entries [] []) as [H1 H2].
  destruct (fold_left step entries ([], [])) as [props req]. simpl in *.
  by rewrite H1, H2.
Qed.
End NormalizeFacts.

(** Extra X3. Under a schema in the simplified format every key is
    required. A record that validates holds a value that is not null or
    undefined under every key of the schema, read as the validator reads
    it; it has no other field, names of members of [Object.prototype]
    apart; and among the ordinary names its keys are exactly the keys of
    the schema, none of them holding null or undefined. *)
Theorem simplified_schema_fixes_the_keys (entries : list (string * SimpleEntry))
    (shape : simplified entries = true) (data : JRecord) :
  isValid (validateAgainstSchema data (SimplifiedFormat entries shape)) = true →
  (∀ k, k ∈ map fst entries → isNullish (getField (JObj data) k) = false)
  ∧ (∀ k, is_Some (data !! k) → k ∈ map fst entries ∨ inObjectPrototype k = true)
  ∧ (∀ k, inObjectPrototype k = false → (is_Some (data !! k) ↔ k ∈ map fst entries))
  ∧ (∀ k v, data !! k = Some v → k ∈ map fst entries → isNullish v = false).
Proof.
  intros Hvalid. unfold validateAgainstSchema, validateAgainstOpenAPISchema in Hvalid.
  apply (validateObjectWith_valid validateProperty acceptedBy) in Hvalid.
  2:{ apply Forall_forall. intros kp _ v path. apply validateProperty_accepts. }
  destruct Hvalid as (Hreq & Hdecl & _).
  destruct (normalize_simplified entries shape) as [Hkeys Hrq].
  rewrite Hrq in Hreq. simpl in Hreq, Hdecl.
  assert (∀ k, is_Some (data !! k) → k ∈ map fst entries ∨ inObjectPrototype k = true)
    as Hin.
  { intros k Hk. apply Hdecl, declared_true in Hk as [[p Hp] | Hk]; [left | by right].
    rewrite <- Hkeys. apply list_elem_of_fmap. by exists (k, p). }
  split; [|split; [|split]].
  - intros k Hk. by destruct (Hreq k Hk).
  - exact Hin.
  - intros k Hord. split.
    + intros Hk. destruct (Hin k Hk) as [? | Hp]; [done | congruence].
    + intros Hk. destruct (Hreq k Hk) as [Hhas _].
      apply hasField_true in Hhas as [? | Hp]; [done | congruence].
  - intros k v Hk Hkeys'. destruct (Hreq k Hkeys') as [_ Hn].
    by rewrite (getField_Some _ _ _ Hk) in Hn.
Qed.

Section Idempotence.
Variable vp : JValue -> OpenAPISchemaProperty -> string -> PropertyResult.

Lemma setField_other (obj : JRecord) f v k : f ≠ k → setField obj f v !! k = obj !! k.
Proof.
  intros Hne. unfold setField. destruct (String.eqb f "__proto__"); [done|].
  by rewrite lookup_insert_ne.
Qed.

Lemma hasField_cases data f :
  hasField data f = true → is_Some (asRecord data !! f) ∨ inObjectPrototype f = true.
Proof.
  unfold hasField. destruct data; try done; simpl; [|by right].
  rewrite orb_true_iff, bool_decide_eq_true. tauto.
Qed.

(** What the property loop leaves under a key that is not declared. *)
Lemma validatedFieldsWith_other data req props acc k :
  k ∉ map fst props →
  validatedFieldsWith vp data req props acc !! k = acc !! k.
Proof.
  revert acc. induction props as [|[f p] props IH]; intros acc Hk; [done|].
  simpl in Hk. apply not_elem_of_cons in Hk as [Hne Hk].
  unfold validatedFieldsWith in *. simpl. rewrite IH by done.
  destruct (skipped data req f); [done|]. destruct (negb _); [done|].
  by rewrite setField_other.
Qed.

(** One turn of the property loop. *)
Lemma validatedFieldsWith_cons data req f q props acc :
  validatedFieldsWith vp data req ((f, q) :: props) acc
  = validatedFieldsWith vp data req props
      (if skipped data req f then acc
       else if negb (pr_isValid (vp (getField data f) q f)) then acc
            else setField acc f (nullish_or (pr_validatedValue (vp (getField data f) q f))
                                            (getField data f))).
Proof. reflexivity. Qed.

(** What it leaves under a declared key, when the keys are distinct and
    the key is not [__proto__]. *)
Lemma validatedFieldsWith_lookup data req props acc k p :
  NoDup (map fst props) → (k, p) ∈ props → k ≠ "__proto__" →
  validatedFieldsWith vp data req props acc !! k
  = if skipped data req k then acc !! k
    else if negb (pr_isValid (vp (getField data k) p k)) then acc !! k
         else Some (nullish_or (pr_validatedValue (vp (getField data k) p k))
                               (getField data k)).
Proof.
  intros Hnd Hin Hproto. revert acc Hnd Hin.
  induction props as [|[f q] props IH]; intros acc Hnd Hin.
  { by apply elem_of_nil in Hin. }
  simpl in Hnd. apply NoDup_cons in Hnd as [Hf Hnd].
  rewrite validatedFieldsWith_cons.
  apply elem_of_cons in Hin as [[= <- <-] | Hin].
  - rewrite validatedFieldsWith_other by done.
    destruct (skipped data req k); [done|]. destruct (negb _); [done|].
    unfold setField. apply String.eqb_neq in Hproto. rewrite Hproto.
    by rewrite lookup_insert_eq.
  - assert (f ≠ k) as Hne.
    { intros ->. apply Hf. apply list_elem_of_fmap. by exists (k, p). }
    rewrite (IH _ Hnd Hin).
    assert (∀ m : JRecord,
               (if skipped data req f then m
                else if negb (pr_isValid (vp (getField data f) q f)) then m
                     else setField m f
                            (nullish_or (pr_validatedValue (vp (getField data f) q f))
                                        (getField data f))) !! k = m !! k) as Hm.
    { clear IH. intros m. destruct (skipped data req f); [done|].
      destruct (negb _); [done|]. by rewrite setField_other. }
    by rewrite !Hm.
Qed.

Lemma fieldErrorsWith_none data req props :
  fieldErrorsWith vp data req props = []
  ↔ ∀ k p, (k, p) ∈ props →
      skipped data req k = false → pr_isValid (vp (getField data k) p k) = true.
Proof.
  induction props as [|[f q] props IH]; simpl.
  { split; [|done]. intros _ k p Hin. by apply elem_of_nil in Hin. }
  rewrite app_nil, IH. split.
  - intros [Hf Hrest] k p [[= -> ->] | Hin]%elem_of_cons Hs; [|by apply Hrest].
    rewrite Hs in Hf. by destruct (pr_isValid _).
  - intros H. split.
    + destruct (skipped data req f) eqn:Hs; [done|].
      by rewrite (H f q (list_elem_of_here _ _) Hs).
    + intros k p Hin. apply H. by apply list_elem_of_further.
Qed.

(** Validating the cleaned record of a valid record changes nothing. *)
Lemma validateObjectWith_settles data props rq :
  ordinaryNames (map fst props) →
  Forall (fun kp => settles vp (snd kp)) props →
  isValid (validateObjectWith vp data props rq) = true →
  ∃ d, validateObjectWith vp data props rq = mkValidationResult true (Some d) None
       ∧ validateObjectWith vp (JObj d) props rq = mkValidationResult true (Some d) None.
Proof.
  intros [Hnd Hord] Hset. rewrite Forall_forall in Hset. rewrite Forall_forall in Hord.
  rewrite !validateObjectWith_spec.
  set (req := requiredFields rq).
  destruct (requiredErrors data req) as [|e1 l1] eqn:Hreq; [|done].
  destruct (fieldErrorsWith vp data req props) as [|e2 l2] eqn:Hfld; [|done].
  destruct (extraErrors data props) as [|e3 l3] eqn:Hext; [|done].
  simpl. intros _.
  set (d := validatedFieldsWith vp data req props ∅).
  exists d. split; [done|]. rewrite validateObjectWith_spec. cbv zeta. fold req.
  pose proof (proj1 (requiredErrors_nil data req) Hreq) as Hreq'.
  pose proof (proj1 (fieldErrorsWith_none data req props) Hfld) as Hfld'.
  pose proof (proj1 (extraErrors_nil data props) Hext) as Hext'.
  assert (∀ k p, (k, p) ∈ props → inObjectPrototype k = false) as Hplain.
  { intros k p Hin. apply Hord. apply list_elem_of_fmap. by exists (k, p). }
  assert (∀ k, inObjectPrototype k = false → k ≠ "__proto__") as Hproto.
  { intros k Hk ->. done. }
  (* the cleaned record, key by key *)
  assert (∀ k p, (k, p) ∈ props →
            (skipped data req k = true ∧ d !! k = None)
            ∨ (skipped data req k = false
               ∧ ∃ v', d !! k = Some v' ∧ isNullish v' = false
                       ∧ ∀ path, vp v' p path = mkPropertyResult true (Some v') None))
    as Hd.
  { intros k p Hin. unfold d.
    rewrite (validatedFieldsWith_lookup _ _ _ _ _ _ Hnd Hin) by eauto.
    destruct (skipped data req k) eqn:Hs; [left; by rewrite lookup_empty|].
    right. split; [done|]. pose proof (Hfld' k p Hin Hs) as Hv.
    destruct (Hset (k, p) Hin _ _ Hv) as (v' & Hn & H1 & H2).
    exists v'. rewrite H1. simpl. rewrite Hn. done. }
  assert (∀ k, k ∉ map fst props → d !! k = None) as Hd'.
  { intros k Hk. unfold d. rewrite validatedFieldsWith_other by done. apply lookup_empty. }
  assert (requiredErrors (JObj d) req = []) as ->.
  { apply requiredErrors_nil. intros f Hf. destruct (Hreq' f Hf) as [Hhas Hnn].
    destruct (decide (f ∈ map fst props)) as [Hkey | Hkey].
    - apply list_elem_of_fmap in Hkey as ([f' p] & -> & Hin). simpl.
      destruct (Hd f' p Hin) as [[Hs _] | (_ & v' & Hv' & Hn & _)].
      + unfold skipped in Hs. rewrite (proj2 (includes_true req f') Hf) in Hs. done.
      + split; [apply hasField_own; by exists v'|]. by rewrite (getField_Some _ _ _ Hv').
    - assert (inObjectPrototype f = true) as Hinh.
      { apply hasField_cases in Hhas as [Hown | ?]; [|done].
        apply Hext', declared_true in Hown as [[p Hin] | ?]; [|done].
        exfalso. apply Hkey. apply list_elem_of_fmap. by exists (f, p). }
      split; [apply hasField_true; by right|].
      unfold getField. rewrite (Hd' f Hkey). by apply prototypeMember_inherited. }
  assert (fieldErrorsWith vp (JObj d) req props = []) as ->.
  { apply fieldErrorsWith_none. intros k p Hin Hs.
    destruct (Hd k p Hin) as [[Hs' Hnone] | (_ & v' & Hv' & Hn & Hok)].
    - unfold skipped in *. rewrite (getField_None _ _ Hnone) in Hs by eauto.
      apply andb_true_iff in Hs' as [Hs' _]. rewrite Hs' in Hs. done.
    - rewrite (getField_Some _ _ _ Hv'), Hok. done. }
  assert (extraErrors (JObj d) props = []) as ->.
  { apply extraErrors_nil. intros k [v Hk]. simpl in Hk.
    destruct (decide (k ∈ map fst props)) as [Hkey | Hkey].
    - apply declared_true. left. apply list_elem_of_fmap in Hkey as ([k' p] & -> & Hin).
      by exists p.
    - by rewrite (Hd' k Hkey) in Hk. }
  simpl. f_equal. f_equal. apply map_eq. intros k.
  destruct (decide (k ∈ map fst props)) as [Hk | Hk].
  2:{ rewrite validatedFieldsWith_other by done. by rewrite Hd', lookup_empty. }
  apply list_elem_of_fmap in Hk as ((k' & p) & -> & Hin). simpl.
  rewrite (validatedFieldsWith_lookup _ _ _ _ _ _ Hnd Hin), lookup_empty by eauto.
  destruct (Hd k' p Hin) as [[Hs' Hnone] | (Hs' & v' & Hv' & Hn & Hok)].
  - rewrite Hnone. unfold skipped in *. rewrite (getField_None _ _ Hnone) by eauto.
    apply andb_true_iff in Hs' as [-> _]. done.
  - rewrite Hv'. unfold skipped in *. rewrite (getField_Some _ _ _ Hv'), Hn, Hok.
    rewrite andb_false_r. simpl. by rewrite Hn.
Qed.

(** The same for the items of an array. *)
Lemma itemsLoop_settles itemSchema path vals i acc :
  settles vp itemSchema →
  fst (itemsLoop vp itemSchema path vals i acc) = [] →
  ∃ vals', (∀ path' j acc', itemsLoop vp itemSchema path' vals j acc'
                             = (fst acc', snd acc' ++ vals'))
           ∧ (∀ path' j acc', itemsLoop vp itemSchema path' vals' j acc'
                               = (fst acc', snd acc' ++ vals')).
Proof.
  intros Hset. revert i acc. induction vals as [|v vals IH]; intros i acc; simpl.
  { intros _. exists []. split; intros ? ? [??]; simpl; by rewrite app_nil_r. }
  destruct (pr_isValid (vp v itemSchema _)) eqn:Hv; simpl.
  - intros Hnil. destruct (IH _ _ Hnil) as (vals' & H1 & H2).
    destruct (Hset _ _ Hv) as (v' & Hn & Hv1 & Hv2).
    exists (v' :: vals'). split; intros path' j [errs ok]; simpl.
    + rewrite Hv1. simpl. rewrite Hn, H1. simpl. by rewrite <- app_assoc.
    + rewrite Hv2. simpl. rewrite Hn, H2. simpl. by rewrite <- app_assoc.
  - intros Hnil. exfalso. clear IH.
    assert (∀ l j (acc0 : list string * list JValue),
               fst acc0 ≠ [] → fst (itemsLoop vp itemSchema path l j acc0) ≠ []) as Hgrow.
    { induction l as [|x xs IH]; intros j acc0 Hne; simpl; [done|].
      destruct (negb _); apply IH; simpl; [|done]. by destruct (fst acc0). }
    eapply Hgrow; [|exact Hnil]. simpl. by destruct (fst acc).
Qed.
End Idempotence.

Ltac unfold_checks :=
  cbn [validateProperty type enum minLength maxLength minimum maximum items properties
       required].
Ltac unfold_checks_in H :=
  cbn [validateProperty type enum minLength maxLength minimum maximum items properties
       required] in H.

Lemma validateProperty_settles p : ordinaryKeys p → settles validateProperty p.
Proof.
  induction p as [t d it ps rq en mn mx ml mxl IHit IHps] using property_nested_ind.
  intros Hdk v path Hvalid. simpl in Hdk. destruct Hdk as [Hdps Hdit].
  unfold_checks_in Hvalid.
  destruct (isNullish v) eqn:Hn; [done|].
  destruct (String.eqb t "integer" && negb (String.eqb (typeof v) "number")) eqn:C1; [done|].
  destruct (String.eqb t "number" && negb (String.eqb (typeof v) "number")) eqn:C2; [done|].
  destruct (String.eqb t "string" && negb (String.eqb (typeof v) "string")) eqn:C3; [done|].
  destruct (String.eqb t "boolean" && negb (String.eqb (typeof v) "boolean")) eqn:C4;
    [done|].
  destruct (String.eqb t "array" && negb (isArray v)) eqn:C5; [done|].
  destruct (String.eqb t "object" && negb (isObjectValue v)) eqn:C6; [done|].
  destruct (match en with Some vals => negb (enumIncludes vals v) | None => false end)
    eqn:Cen; [done|].
  destruct (String.eqb t "string" && String.eqb (typeof v) "string"
            && match ml with Some n => Nat.ltb (strLength v) n | None => false end)
    eqn:B1; [done|].
  destruct (String.eqb t "string" && String.eqb (typeof v) "string"
            && match mxl with Some n => Nat.ltb n (strLength v) | None => false end)
    eqn:B2; [done|].
  destruct ((String.eqb t "number" || String.eqb t "integer")
            && String.eqb (typeof v) "number"
            && match mn with Some n => Z.ltb (numValue v) n | None => false end)
    eqn:B3; [done|].
  destruct ((String.eqb t "number" || String.eqb t "integer")
            && String.eqb (typeof v) "number"
            && match mx with Some n => Z.ltb n (numValue v) | None => false end)
    eqn:B4; [done|].
  (* a value that is an object or an array passes no enum test *)
  assert (isObjectValue v = true ∨ isArray v = true → en = None) as Hen.
  { intros Hv. destruct en as [vals|]; [|done]. exfalso.
    destruct v; try done; destruct Hv; done. }
  (* the last step, for arrays with an item schema *)
  pose (arrayItems := fun (w : JValue) (fieldPath : string) =>
    match it with
    | Some itemSchema =>
        if String.eqb t "array" && isArray w
        then
          let '(itemErrors, validatedItems) :=
            itemsLoop validateProperty itemSchema fieldPath (arrItems w) 0 ([], []) in
          if Nat.ltb 0 (length itemErrors)
          then propFail (join "; " itemErrors)
          else propOk (JArr validatedItems)
        else propOk w
    | None => propOk w
    end).
  assert (pr_isValid (arrayItems v path) = true →
          ∃ v', isNullish v' = false
                ∧ (∀ path', arrayItems v path' = propOk v')
                ∧ (∀ path', arrayItems v' path' = propOk v')
                ∧ (v' = v ∨ (t = "array" ∧ isArray v = true ∧ isArray v' = true)))
    as Hitems.
  { unfold arrayItems. destruct it as [itemSchema|].
    2:{ intros _. exists v. by repeat split; try left. }
    destruct (String.eqb t "array" && isArray v) eqn:Ea.
    2:{ intros _. exists v. repeat split; try done; [| by left]. by rewrite Ea. }
    apply andb_true_iff in Ea as [Et Ea]. apply String.eqb_eq in Et.
    destruct (itemsLoop validateProperty itemSchema path (arrItems v) 0 ([], []))
      as [itemErrors validatedItems] eqn:Hloop.
    destruct itemErrors as [|e es]; [|done]. intros _.
    destruct (itemsLoop_settles validateProperty itemSchema path (arrItems v) 0 ([], []))
      as (vals' & H1 & H2).
    { by apply IHit. }
    { by rewrite Hloop. }
    exists (JArr vals'). split; [done|]. subst t. simpl.
    split; [|split]; [| |right; by destruct v].
    - intros path'. by rewrite H1.
    - intros path'. by rewrite H2. }
  destruct ps as [props|]; [destruct (String.eqb t "object") eqn:Eo|].
  - (* a nested object *)
    destruct (isValid (validateObjectWith validateProperty v props rq)) eqn:Hv;
      [|done].
    destruct Hdps as [Hnd Hall]. apply allProperties_Forall in Hall.
    destruct (validateObjectWith_settles validateProperty v props rq Hnd)
      as (d' & H1 & H2); [|done|].
    { specialize (IHps props eq_refl). rewrite Forall_forall in *.
      intros kp Hin. apply IHps; [done | by apply Hall]. }
    assert (isObjectValue v = true) as Hobj.
    { simpl in C6. by apply negb_false_iff in C6. }
    exists (JObj d'). split; [done|]. split; intros path'; unfold_checks.
    + rewrite Hn, C1, C2, C3, C4, C5, Eo, C6, Cen, B1, B2, B3, B4, H1. done.
    + rewrite (Hen (or_introl Hobj)). apply String.eqb_eq in Eo. subst t. simpl.
      by rewrite H2.
  - destruct (Hitems Hvalid) as (v' & Hn' & H1 & H2 & Hshape).
    exists v'. split; [done|]. split; intros path'; unfold_checks.
    + rewrite Hn, C1, C2, C3, C4, C5, Eo, C6, Cen, B1, B2, B3, B4. apply H1.
    + destruct Hshape as [-> | (-> & Ha & Ha')].
      * rewrite Hn, C1, C2, C3, C4, C5, Eo, C6, Cen, B1, B2, B3, B4. apply H2.
      * rewrite (Hen (or_intror Ha)). destruct v'; try done. apply H2.
  - destruct (Hitems Hvalid) as (v' & Hn' & H1 & H2 & Hshape).
    exists v'. split; [done|]. split; intros path'; unfold_checks.
    + rewrite Hn, C1, C2, C3, C4, C5, C6, Cen, B1, B2, B3, B4. apply H1.
    + destruct Hshape as [-> | (-> & Ha & Ha')].
      * rewrite Hn, C1, C2, C3, C4, C5, C6, Cen, B1, B2, B3, B4. apply H2.
      * rewrite (Hen (or_intror Ha)). destruct v'; try done. apply H2.
Qed.

Lemma validateAgainstSchema_settles (data : JRecord) (schema : ParametersSchema) :
  schemaOrdinaryKeys (normalizeToOpenAPISchema schema) →
  isValid (validateAgainstSchema data schema) = true →
  ∃ cleaned,
    validateAgainstSchema data schema = mkValidationResult true (Some cleaned) None
    ∧ validateAgainstSchema cleaned schema = mkValidationResult true (Some cleaned) None.
Proof.
  unfold validateAgainstSchema, validateAgainstOpenAPISchema.
  intros [Hnd Hall] Hvalid. apply allProperties_Forall in Hall.
  apply validateObjectWith_settles; [done | | done].
  rewrite Forall_forall in *. intros kp Hin. by apply validateProperty_settles, Hall.
Qed.

(** Extra X4. Validation is idempotent on its output: when the keys of the
    schema are distinct and are not names of members of [Object.prototype],
    at every depth, and a record validates, the validated data validates
    again and comes back unchanged. *)
Theorem validated_data_is_stable (data : JRecord) (schema : ParametersSchema) :
  schemaOrdinaryKeys (normalizeToOpenAPISchema schema) →
  isValid (validateAgainstSchema data schema) = true →
  ∃ cleaned,
    vr_data (validateAgainstSchema data schema) = Some cleaned
    ∧ validateAgainstSchema cleaned schema = mkValidationResult true (Some cleaned) None.
Proof.
  intros Hdk Hvalid.
  destruct (validateAgainstSchema_settles data schema Hdk Hvalid) as (cleaned & H1 & H2).
  exists cleaned. by rewrite H1.
Qed.

Lemma ordinaryNames_decide (names : list string) :
  bool_decide (NoDup names) && forallb (fun key => negb (inObjectPrototype key)) names = true →
  ordinaryNames names.
Proof.
  intros [Hnd Hall]%andb_true_iff. split; [by apply bool_decide_eq_true in Hnd|].
  apply Forall_forall. intros k Hk. rewrite forallb_forall in Hall.
  apply negb_true_iff, Hall. by apply list_elem_of_In.
Qed.

Lemma exampleSchema_ordinaryKeys : schemaOrdinaryKeys exampleSchema.
Proof.
  split; [by apply ordinaryNames_decide|].
  simpl. repeat split; try done; by apply ordinaryNames_decide.
Qed.

Section CleanedFacts.
Variable vp : JValue -> OpenAPISchemaProperty -> string -> PropertyResult.

(** The keys that the property loop leaves in the validated data. *)
Lemma validatedFieldsWith_keys data req props acc k :
  is_Some (validatedFieldsWith vp data req props acc !! k)
  ↔ is_Some (acc !! k)
    ∨ (k ≠ "__proto__"
       ∧ ∃ p, (k, p) ∈ props ∧ skipped data req k = false
              ∧ pr_isValid (vp (getField data k) p k) = true).
Proof.
  revert acc. induction props as [|[f q] props IH]; intros acc.
  { simpl. split; [by left|]. intros [? | (_ & p & Hin & _)]; [done|].
    by apply elem_of_nil in Hin. }
  rewrite validatedFieldsWith_cons, IH. clear IH.
  set (value := nullish_or (pr_validatedValue (vp (getField data f) q f)) (getField data f)).
  split.
  - intros [Hacc | (Hproto & p & Hin & Hs & Hv)].
    + destruct (skipped data req f) eqn:Hs; [by left|].
      destruct (pr_isValid (vp (getField data f) q f)) eqn:Hv; simpl in Hacc; [|by left].
      destruct (decide (f = k)) as [->|Hne].
      * unfold setField in Hacc. destruct (String.eqb k "__proto__") eqn:Hp; [by left|].
        apply String.eqb_neq in Hp. right. split; [done|]. exists q.
        split; [by left | done].
      * rewrite setField_other in Hacc by done. by left.
    + right. split; [done|]. exists p. split; [by right | done].
  - intros [Hacc | (Hproto & p & Hin & Hs & Hv)].
    + left. destruct (skipped data req f); [done|]. destruct (negb _); [done|].
      destruct (decide (f = k)) as [->|Hne]; [|by rewrite setField_other].
      unfold setField. destruct (String.eqb k "__proto__"); [done|].
      by rewrite lookup_insert_eq.
    + apply elem_of_cons in Hin as [[= <- <-] | Hin].
      * left. rewrite Hs, Hv. simpl. unfold setField.
        apply String.eqb_neq in Hproto. rewrite Hproto. by rewrite lookup_insert_eq.
      * right. split; [done|]. exists p. done.
Qed.

(** The values that it leaves there, when the validator of properties
    accepts no null. *)
Lemma validatedFieldsWith_values data req props acc :
  (∀ v p path, pr_isValid (vp v p path) = true → isNullish v = false) →
  (∀ k v, acc !! k = Some v → isNullish v = false) →
  ∀ k v, validatedFieldsWith vp data req props acc !! k = Some v → isNullish v = false.
Proof.
  intros Hvp. revert acc. induction props as [|[f q] props IH]; intros acc Hacc; [done|].
  rewrite validatedFieldsWith_cons.
  apply IH. destruct (skipped data req f); [done|].
  destruct (pr_isValid (vp (getField data f) q f)) eqn:Hv; simpl; [|done].
  intros k v. unfold setField. destruct (String.eqb f "__proto__"); [apply Hacc|].
  destruct (decide (f = k)) as [->|Hne].
  - rewrite lookup_insert_eq. intros [= <-]. apply Hvp in Hv.
    unfold nullish_or. destruct (pr_validatedValue _) as [out|]; [|done].
    by destruct (isNullish out) eqn:Hout.
  - rewrite lookup_insert_ne by done. apply Hacc.
Qed.
End CleanedFacts.

Lemma validateProperty_rejects_null v p path :
  pr_isValid (validateProperty v p path) = true → isNullish v = false.
Proof. intros Hv. apply validateProperty_accepts in Hv. destruct p. by destruct Hv. Qed.

(** Extra X21. The validated data of a record that validates holds exactly
    the declared fields, [__proto__] apart, that do not read as null or
    undefined; none of its fields is null or undefined. Among the names
    that [Object.prototype] does not hold these are exactly the fields of
    the record that are not null or undefined: the optional fields given as
    null are dropped and nothing else is. *)
Theorem validated_data_drops_null_fields (data : JRecord) (schema : ParametersSchema) :
  isValid (validateAgainstSchema data schema) = true →
  ∃ cleaned,
    vr_data (validateAgainstSchema data schema) = Some cleaned
    ∧ (∀ k, is_Some (cleaned !! k)
            ↔ k ≠ "__proto__"
              ∧ ownProperty (schema_properties (normalizeToOpenAPISchema schema)) k = true
              ∧ isNullish (getField (JObj data) k) = false)
    ∧ (∀ k v, cleaned !! k = Some v → isNullish v = false)
    ∧ (∀ k, inObjectPrototype k = false →
            (is_Some (cleaned !! k) ↔ ∃ v, data !! k = Some v ∧ isNullish v = false)).
Proof.
  unfold validateAgainstSchema, validateAgainstOpenAPISchema.
  set (props := schema_properties (normalizeToOpenAPISchema schema)).
  set (rq := schema_required (normalizeToOpenAPISchema schema)).
  rewrite validateObjectWith_spec. set (req := requiredFields rq).
  destruct (requiredErrors (JObj data) req) as [|e1 l1] eqn:Hreq; [|done].
  destruct (fieldErrorsWith validateProperty (JObj data) req props) as [|e2 l2] eqn:Hfld;
    [|done].
  destruct (extraErrors (JObj data) props) as [|e3 l3] eqn:Hext; [|done].
  simpl. intros _. eexists. split; [done|].
  pose proof (proj1 (fieldErrorsWith_none validateProperty (JObj data) req props) Hfld)
    as Hfld'.
  pose proof (proj1 (extraErrors_nil (JObj data) props) Hext) as Hext'.
  assert (∀ k, is_Some (validatedFieldsWith validateProperty (JObj data) req props ∅ !! k)
               ↔ k ≠ "__proto__" ∧ ownProperty props k = true
                 ∧ isNullish (getField (JObj data) k) = false) as Hkeys.
  { intros k. rewrite validatedFieldsWith_keys, ownProperty_true. split.
    - intros [Hempty | (Hproto & p & Hin & Hs & Hv)];
        [by rewrite lookup_empty in Hempty; destruct Hempty|].
      split; [done|]. split; [by exists p|]. by apply validateProperty_rejects_null in Hv.
    - intros (Hproto & [p Hin] & Hk). right. split; [done|]. exists p. split; [done|].
      assert (skipped (JObj data) req k = false) as Hs
        by (unfold skipped; rewrite Hk; apply andb_false_r).
      split; [done|]. by apply Hfld'. }
  split; [exact Hkeys|]. split.
  - apply validatedFieldsWith_values.
    + intros v p path. apply validateProperty_rejects_null.
    + intros k v. by rewrite lookup_empty.
  - intros k Hord. rewrite Hkeys, (getField_ordinary _ _ Hord). split.
    + intros (_ & _ & Hk). destruct (data !! k) as [v|]; [eauto | done].
    + intros (v & Hk & Hn). split; [by intros ->|]. rewrite Hk. split; [|done].
      assert (declared props k = true) as Hd by (apply Hext'; simpl; eauto).
      unfold declared in Hd. by rewrite Hord, orb_false_r in Hd.
Qed.

(** Extra X23. When validation fails, the returned error list is the union
    of the entries of the three loops and nothing else: the entry of every
    required field that the test [in] does not find or that reads as null or
    undefined, of every declared field that is checked and found invalid,
    and of every own key of the data that the test [in] does not find among
    the properties of the schema. Validation does not stop at the first
    error. *)
Theorem validation_reports_every_error (data : JRecord) (schema : ParametersSchema) :
  let s := normalizeToOpenAPISchema schema in
  let req := requiredFields (schema_required s) in
  let res := validateAgainstSchema data schema in
  isValid res = false →
  ∃ errs, vr_errors res = Some errs ∧ vr_data res = None ∧
    (∀ f, f ∈ req →
          hasField (JObj data) f = false ∨ isNullish (getField (JObj data) f) = true →
          ("Missing required field: " +:+ f) ∈ errs) ∧
    (∀ f p, (f, p) ∈ schema_properties s → skipped (JObj data) req f = false →
          pr_isValid (validateProperty (getField (JObj data) f) p f) = false →
          fieldError validateProperty (JObj data) f p ∈ errs) ∧
    (∀ k, is_Some (data !! k) → declared (schema_properties s) k = false →
          ("Unexpected field: " +:+ k) ∈ errs) ∧
    (∀ e, e ∈ errs →
          (∃ f, f ∈ req
                ∧ (hasField (JObj data) f = false ∨ isNullish (getField (JObj data) f) = true)
                ∧ e = "Missing required field: " +:+ f)
          ∨ (∃ f p, (f, p) ∈ schema_properties s ∧ skipped (JObj data) req f = false
                ∧ pr_isValid (validateProperty (getField (JObj data) f) p f) = false
                ∧ e = fieldError validateProperty (JObj data) f p)
          ∨ (∃ k, is_Some (data !! k) ∧ declared (schema_properties s) k = false
                ∧ e = "Unexpected field: " +:+ k)).
Proof.
  intros s req res. unfold res, validateAgainstSchema, validateAgainstOpenAPISchema.
  fold s. rewrite validateObjectWith_spec. fold req.
  set (errs := requiredErrors (JObj data) req ++ _ ++ _).
  destruct errs as [|e0 rest] eqn:Herrs; [done|]. intros _.
  exists (e0 :: rest). rewrite <- Herrs. repeat split.
  - intros f Hf Hm. subst errs. apply elem_of_app. left. by apply requiredErrors_elem.
  - intros f p Hf Hs Hi. subst errs. apply elem_of_app. right. apply elem_of_app. left.
    by apply fieldErrorsWith_elem.
  - intros k Hk Hd. subst errs. apply elem_of_app. right. apply elem_of_app. right.
    by apply (extraErrors_elem (JObj data)).
  - intros e He. subst errs. apply elem_of_app in He as [He|He].
    { left. by apply requiredErrors_inv. }
    apply elem_of_app in He as [He|He].
    { right. left. by apply fieldErrorsWith_inv. }
    right. right. by apply (extraErrors_inv (JObj data)).
Qed.

(** Extra X24. Under a schema whose keys are distinct and are not names of
    members of [Object.prototype], at every depth, a record that has all
    required fields, whose fields are all declared, correctly typed and
    within the declared bounds, validates with [isValid = true] and
    sanitized data equal to the input; validating the sanitized data again
    gives [isValid = true]. *)
Theorem conforming_data_validates (data : JRecord) (schema : ParametersSchema) :
  schemaOrdinaryKeys (normalizeToOpenAPISchema schema) →
  recordConforms data (normalizeToOpenAPISchema schema) →
  validateAgainstSchema data schema = mkValidationResult true (Some data) None
  ∧ ∀ sanitized, vr_data (validateAgainstSchema data schema) = Some sanitized →
      sanitized = data ∧ isValid (validateAgainstSchema sanitized schema) = true.
Proof.
  intros [[_ Hord] Hall] (Hreq & Hval & Hfields). apply allProperties_Forall in Hall.
  assert (validateAgainstSchema data schema = mkValidationResult true (Some data) None) as Heq.
  { unfold validateAgainstSchema, validateAgainstOpenAPISchema.
    apply validateObjectWith_conforms; try done.
    apply fieldsConform_handedBack; [done | done |].
    rewrite Forall_forall in *. intros kp Hin v path.
    by apply conforms_validateProperty, Hall. }
  split; [exact Heq|].
  intros sanitized Hs. rewrite Heq in Hs. injection Hs as <-.
  split; [done|]. by rewrite Heq.
Qed.

(** * Further properties of the agent *)

Section RegistryFacts.
Context {W : Type}.
Variable JSON_stringify : JValue → Outcome string.
Variable String_of : JValue → string.
Implicit Types (self : Agent W) (tool t : Tool W) (ts : list (Tool W)).

Lemma findTool_None ts name : findTool ts name = None ↔ name ∉ map tool_name ts.
Proof.
  unfold findTool. induction ts as [|t ts IH]; simpl.
  - split; [intros _ H; by apply elem_of_nil in H | done].
  - destruct (String.eqb (tool_name t) name) eqn:E.
    + apply String.eqb_eq in E. split; [done|]. intros H. exfalso. apply H. subst. by left.
    + apply String.eqb_neq in E. rewrite IH, not_elem_of_cons.
      split; [intros H; split; [congruence | done] | by intros [_ ?]].
Qed.

Lemma findTool_Some ts name t :
  findTool ts name = Some t → t ∈ ts ∧ tool_name t = name.
Proof.
  unfold findTool. intros H. apply find_some in H as [Hin E].
  apply String.eqb_eq in E. split; [by apply list_elem_of_In | done].
Qed.

Lemma findTool_app_fresh ts tool name :
  findTool ts (tool_name tool) = None →
  findTool (ts ++ [tool]) name
  = if String.eqb (tool_name tool) name then Some tool else findTool ts name.
Proof.
  unfold findTool. induction ts as [|t ts IH]; simpl.
  - intros _. by destruct (String.eqb (tool_name tool) name).
  - destruct (String.eqb (tool_name t) (tool_name tool)) eqn:E; [done|].
    intros Hfresh. destruct (String.eqb (tool_name t) name) eqn:E'; [|by apply IH].
    apply String.eqb_eq in E'. apply String.eqb_neq in E.
    destruct (String.eqb (tool_name tool) name) eqn:E''; [|done].
    apply String.eqb_eq in E''. congruence.
Qed.

Lemma findTool_filter ts name n :
  findTool (filter (fun t => String.eqb (tool_name t) name = false) ts) n
  = if String.eqb name n then None else findTool ts n.
Proof.
  unfold findTool. induction ts as [|t ts IH]; simpl.
  - by destruct (String.eqb name n).
  - destruct (String.eqb (tool_name t) name) eqn:E.
    + rewrite filter_cons_False by (by rewrite E). rewrite IH.
      apply String.eqb_eq in E. subst name.
      by destruct (String.eqb (tool_name t) n).
    + rewrite filter_cons_True by done. simpl. rewrite IH.
      destruct (String.eqb (tool_name t) n) eqn:E'; [|done].
      apply String.eqb_eq in E'. subst n. rewrite String.eqb_sym, E. done.
Qed.

Lemma filter_fresh ts name :
  name ∉ map tool_name ts →
  filter (fun t => String.eqb (tool_name t) name = false) ts = ts.
Proof.
  induction ts as [|t ts IH]; simpl; [done|].
  intros [Hne Hrest]%not_elem_of_cons.
  rewrite filter_cons_True by (by apply String.eqb_neq). by rewrite IH.
Qed.

Lemma NoDup_names_filter ts name :
  NoDup (map tool_name ts) →
  NoDup (map tool_name (filter (fun t => String.eqb (tool_name t) name = false) ts)).
Proof.
  induction ts as [|t ts IH]; simpl; [done|].
  intros [Hf Hnd]%NoDup_cons.
  destruct (String.eqb (tool_name t) name) eqn:E.
  - rewrite filter_cons_False by (by rewrite E). by apply IH.
  - rewrite filter_cons_True by done. simpl. apply NoDup_cons. split; [|by apply IH].
    intros (t' & Hn & Hin)%list_elem_of_fmap. apply Hf.
    apply list_elem_of_fmap. exists t'. split; [done|].
    by apply list_elem_of_filter in Hin as [_ ?].
Qed.

(** The loop of the constructor over [config.tools]. *)
Lemma register_loop (l acc : list (Tool W)) :
  let register (acc : Outcome (list (Tool W))) (tool : Tool W) :=
    match acc with
    | Thrown e => Thrown e
    | Returned ts =>
        match findTool ts (tool_name tool) with
        | Some _ =>
            Thrown (AgentError ("Duplicate tool name detected: '" +:+ tool_name tool +:+ "'")
                      None None)
        | None => Returned (ts ++ [tool])
        end
    end in
  NoDup (map tool_name acc) →
  match fold_left register l (Returned acc) with
  | Returned ts => ts = acc ++ l ∧ NoDup (map tool_name (acc ++ l))
  | Thrown e => ¬ NoDup (map tool_name (acc ++ l)) ∧ ∃ msg, e = AgentError msg None None
  end.
Proof.
  intros register. revert acc. induction l as [|t l IH]; intros acc Hnd; simpl.
  { by rewrite app_nil_r. }
  destruct (findTool acc (tool_name t)) as [t'|] eqn:Hfind.
  - assert (∀ e, fold_left register l (Thrown e) = Thrown e) as ->.
    { intros e. clear. induction l; simpl; [done|]. apply IHl. }
    split; [|eauto]. apply findTool_Some in Hfind as [Hin Hname].
    rewrite map_app. simpl. intros Hnd'. apply NoDup_app in Hnd' as (_ & Hdisj & _).
    apply (Hdisj (tool_name t)).
    + apply list_elem_of_fmap. by exists t'.
    + by left.
  - apply findTool_None in Hfind.
    assert (NoDup (map tool_name (acc ++ [t]))) as Hnd'.
    { rewrite map_app. simpl. apply NoDup_app. split; [done|]. split; [|apply NoDup_singleton].
      intros n Hn ->%list_elem_of_singleton. done. }
    specialize (IH (acc ++ [t]) Hnd'). rewrite <- app_assoc in IH. exact IH.
Qed.

(** Extra X5. The constructor of [Agent] succeeds exactly when the
    configuration has at least one tool, an LLM service and pairwise
    distinct tool names. The agent then holds the configured tools in
    their order, the configured service and verbosity, and a retry count
    of at least one. Every failure is an [AgentError] without tool
    name. *)
Theorem constructor_requires_distinct_tools (config : AgentConfig W) :
  match newAgent config with
  | Returned self =>
      cfg_tools config ≠ []
      ∧ cfg_llmService config = Some (llmService self)
      ∧ NoDup (map tool_name (cfg_tools config))
      ∧ tools self = cfg_tools config
      ∧ maxRetries self = Nat.max 1 (default 3 (cfg_maxRetries config))
      ∧ 1 ≤ maxRetries self
      ∧ retryDelay self = default 1000 (cfg_retryDelay config)
      ∧ verbose self = default false (cfg_verbose config)
  | Thrown e =>
      (cfg_tools config = [] ∨ cfg_llmService config = None
       ∨ ¬ NoDup (map tool_name (cfg_tools config)))
      ∧ ∃ msg, e = AgentError msg None None
  end.
Proof.
  unfold newAgent. destruct (cfg_tools config) as [|t l] eqn:Hts; simpl.
  { split; [by left | eauto]. }
  destruct (cfg_llmService config) as [llm|]; [|split; [right; by left | eauto]].
  pose proof (register_loop l [t]) as Hloop. simpl in Hloop.
  destruct (fold_left _ l (Returned [t])) as [ts|e].
  - destruct Hloop as [-> Hnd]; [apply NoDup_singleton|]. simpl.
    repeat split; try done. lia.
  - destruct Hloop as [Hnd Hmsg]; [apply NoDup_singleton|]. split; [|done].
    right. by right.
Qed.

(** Extra X6. [addTool] fails exactly when the name is already registered,
    and then with an [AgentError]. When it succeeds the new tool is found
    under its name, every other name resolves as before, the settings of
    the agent are unchanged and the names stay pairwise distinct. *)
Theorem addTool_registers_fresh_names self tool :
  NoDup (toolNames self) →
  match Agent_addTool self tool with
  | Thrown e =>
      tool_name tool ∈ toolNames self
      ∧ e = AgentError ("Tool '" +:+ tool_name tool +:+ "' already exists") None None
  | Returned self' =>
      ¬ (tool_name tool ∈ toolNames self)
      ∧ NoDup (toolNames self')
      ∧ toolNames self' = toolNames self ++ [tool_name tool]
      ∧ findTool (tools self') (tool_name tool) = Some tool
      ∧ (∀ name, name ≠ tool_name tool →
           findTool (tools self') name = findTool (tools self) name)
      ∧ maxRetries self' = maxRetries self
      ∧ retryDelay self' = retryDelay self
      ∧ verbose self' = verbose self
      ∧ llmService self' = llmService self
  end.
Proof.
  intros Hnd. unfold Agent_addTool, toolNames in *.
  destruct (findTool (tools self) (tool_name tool)) as [t'|] eqn:Hfind.
  - split; [|done]. apply findTool_Some in Hfind as [Hin Hname].
    apply list_elem_of_fmap. by exists t'.
  - pose proof (proj1 (findTool_None _ _) Hfind) as Hfresh. simpl.
    split; [done|]. split.
    { rewrite map_app. simpl. apply NoDup_app. split; [done|].
      split; [|apply NoDup_singleton]. by intros n Hn ->%list_elem_of_singleton. }
    split; [by rewrite map_app|]. split.
    { rewrite findTool_app_fresh by done. by rewrite String.eqb_refl. }
    split; [|done]. intros name Hne. rewrite findTool_app_fresh by done.
    destruct (String.eqb (tool_name tool) name) eqn:E; [|done].
    apply String.eqb_eq in E. congruence.
Qed.

(** Extra X7. [removeTool] answers whether the name was registered.
    Afterwards the name is not found, every other name resolves as before
    and the names stay pairwise distinct; removing a name that is not
    registered changes nothing, and removing a tool just added gives the
    agent back. *)
Theorem removeTool_unregisters_the_name self name :
  NoDup (toolNames self) →
  let '(removed, self') := Agent_removeTool self name in
  (removed = true ↔ name ∈ toolNames self)
  ∧ (removed = false → self' = self)
  ∧ NoDup (toolNames self')
  ∧ findTool (tools self') name = None
  ∧ (∀ other, other ≠ name → findTool (tools self') other = findTool (tools self) other)
  ∧ (∀ tool added, Agent_addTool self tool = Returned added →
       Agent_removeTool added (tool_name tool) = (true, self)).
Proof.
  intros Hnd. unfold Agent_removeTool, toolNames in *.
  assert (∀ tool added, Agent_addTool self tool = Returned added →
            Agent_removeTool added (tool_name tool) = (true, self)) as Hround.
  { intros tool added. unfold Agent_addTool, Agent_removeTool.
    destruct (findTool (tools self) (tool_name tool)) eqn:Hfind; [done|].
    intros [= <-]. simpl. rewrite findTool_app_fresh by done. rewrite String.eqb_refl.
    rewrite filter_app, filter_fresh by (by apply findTool_None).
    rewrite filter_cons_False by (by rewrite String.eqb_refl).
    rewrite filter_nil, app_nil_r. unfold set_tools. simpl. by destruct self. }
  destruct (findTool (tools self) name) as [t|] eqn:Hfind.
  - apply findTool_Some in Hfind as [Hin Hname]. simpl.
    split; [split; [|done]; intros _; apply list_elem_of_fmap; by exists t|].
    split; [done|]. split; [by apply NoDup_names_filter|].
    split; [by rewrite findTool_filter, String.eqb_refl|].
    split; [|done]. intros other Hne. rewrite findTool_filter.
    destruct (String.eqb name other) eqn:E; [|done]. apply String.eqb_eq in E. congruence.
  - pose proof (proj1 (findTool_None _ _) Hfind) as Hfresh.
    split; [split; [done|]; intros ?; done|]. done.
Qed.
End RegistryFacts.
Section CallFacts.
Context {W : Type}.
Variable JSON_stringify : JValue → Outcome string.
Variable String_of : JValue → string.
Implicit Types (w : World W) (self : Agent W) (tool : Tool W).

Lemma validateAgainstSchema_valid raw schema :
  isValid (validateAgainstSchema raw schema) = true →
  ∃ d, validateAgainstSchema raw schema = mkValidationResult true (Some d) None.
Proof.
  unfold validateAgainstSchema, validateAgainstOpenAPISchema.
  rewrite validateObjectWith_spec.
  destruct (requiredErrors _ _ ++ _ ++ _); [eauto | done].
Qed.

Lemma validateAgainstSchema_invalid raw schema :
  isValid (validateAgainstSchema raw schema) = false →
  ∃ e errs, validateAgainstSchema raw schema = mkValidationResult false None (Some (e :: errs)).
Proof.
  unfold validateAgainstSchema, validateAgainstOpenAPISchema.
  rewrite validateObjectWith_spec.
  destruct (requiredErrors _ _ ++ _ ++ _); [done | eauto].
Qed.

Lemma invocations_app evs1 evs2 :
  invocations (evs1 ++ evs2) = invocations evs1 ++ invocations evs2.
Proof. unfold invocations. induction evs1 as [|[] evs1 IH]; simpl; by rewrite ?IH. Qed.

Lemma invocations_quiet evs :
  forallb (fun ev => negb (isExecuteEvent ev)) evs = true → invocations evs = [].
Proof.
  induction evs as [|ev evs IH]; simpl; [done|].
  intros [Hev Hrest]%andb_true_iff. destruct ev; try done; by apply IH.
Qed.

Lemma continues_quiet (P : Event → bool) w w' :
  (∀ ev, P ev = true → isExecuteEvent ev = false) →
  continues P w w' → ∃ evs, trace w' = trace w ++ evs ∧ invocations evs = [].
Proof.
  intros HP (evs & Htr & Hall). exists evs. split; [done|].
  apply invocations_quiet. rewrite forallb_forall in *. intros ev Hin.
  by rewrite (HP ev (Hall ev Hin)).
Qed.

Lemma gateway_quiet w w' :
  continues isGatewayEvent w w' → ∃ evs, trace w' = trace w ++ evs ∧ invocations evs = [].
Proof. apply continues_quiet. by intros []. Qed.

Lemma sleep_quiet ms w r w' :
  sleep ms w = (r, w') → r = Returned tt ∧ ext w' = ext w
                         ∧ ∃ evs, trace w' = trace w ++ evs ∧ invocations evs = [].
Proof.
  unfold sleep. destruct (Nat.leb ms 0).
  - intros [= <- <-]. repeat split. exists []. by rewrite app_nil_r.
  - unfold perform. intros [= <- <-]. repeat split. by exists [EvSleep ms].
Qed.

(** The regeneration block returns the previous arguments or validated
    ones. *)
Lemma regenerateOnRetry_validated self tool name ctx err args w r w' :
  regenerateOnRetry JSON_stringify self tool name ctx err args w = (r, w') →
  ∃ args', r = Returned args'
           ∧ (args' = args ∨ validatedData (parametersSchema tool) args')
           ∧ continues isGatewayEvent w w'.
Proof.
  unfold regenerateOnRetry, tryCatch, bind.
  destruct (regenerateStructuredDataWithError JSON_stringify self tool _ err w) as [[d|e] w1] eqn:Hr;
    apply regenerateStructuredDataWithError_continues in Hr.
  - destruct (isValid (validateAgainstSchema d (parametersSchema tool))) eqn:Hv; simpl.
    + intros [= <- <-]. destruct (validateAgainstSchema_valid _ _ Hv) as [d' Hd'].
      exists d'. rewrite Hd'. simpl. split; [done|]. split; [|done]. right. by exists d.
    + intros [= <- <-]. exists args. split; [done|]. split; [by left | done].
  - intros [= <- <-]. exists args. split; [done|]. split; [by left | done].
Qed.

(** What a run of the retry loop leaves behind. *)
Lemma retryLoop_outcome self tool name ctx should remaining :
  ∀ attempt args lastError w r w',
    validatedData (parametersSchema tool) args →
    retryLoop JSON_stringify self tool name ctx should remaining attempt args lastError w = (r, w') →
    ∃ evs, trace w' = trace w ++ evs
      ∧ (∀ n a, (n, a) ∈ invocations evs →
           n = tool_name tool ∧ validatedData (parametersSchema tool) a)
      ∧ match r with
        | Returned v =>
            1 ≤ length (invocations evs) ≤ remaining
            ∧ ∃ evs0 a x, evs = evs0 ++ [EvExecute (tool_name tool) a]
                          ∧ tool_execute tool a x = (Returned v, ext w')
        | Thrown e =>
            length (invocations evs) = remaining
            ∧ ∃ msg, e = AgentError msg (Some name) (Some (maxRetries self))
        end.
Proof.
  induction remaining as [|remaining IH]; intros attempt args lastError w r w' Hargs.
  { simpl. intros [= <- <-]. exists []. rewrite app_nil_r. split; [done|].
    split; [by intros n a Hin; apply elem_of_nil in Hin|]. split; [done | eauto]. }
  rewrite retryLoop_S. unfold bind at 1.
  destruct (match lastError with
            | Some e => if Nat.ltb 1 attempt && should
                        then regenerateOnRetry JSON_stringify self tool name ctx e args else ret args
            | None => ret args
            end w) as [r1 w1] eqn:Hprep.
  assert (∃ args', r1 = Returned args' ∧ validatedData (parametersSchema tool) args'
                   ∧ ∃ evs1, trace w1 = trace w ++ evs1 ∧ invocations evs1 = [])
    as (args' & -> & Hargs' & evs1 & Htr1 & Hq1).
  { assert (ret args w = (r1, w1) →
            ∃ args', r1 = Returned args' ∧ validatedData (parametersSchema tool) args'
                     ∧ ∃ evs1, trace w1 = trace w ++ evs1 ∧ invocations evs1 = []) as Hret.
    { intros [= <- <-]. exists args. split; [done|]. split; [done|]. exists [].
      by rewrite app_nil_r. }
    destruct lastError as [e|]; [|by apply Hret].
    destruct (Nat.ltb 1 attempt && should); [|by apply Hret].
    apply regenerateOnRetry_validated in Hprep as (args' & -> & Hor & Hc).
    exists args'. split; [done|]. split; [by destruct Hor as [-> | ?]|].
    by apply gateway_quiet. }
  unfold tryCatch, runTool, perform.
  destruct (tool_execute tool args' (ext w1)) as [[v|e] x] eqn:Hexec.
  - intros [= <- <-]. exists (evs1 ++ [EvExecute (tool_name tool) args']). simpl.
    split; [by rewrite Htr1, <- app_assoc|].
    rewrite invocations_app, Hq1. simpl. split.
    + intros n a [= -> ->]%list_elem_of_singleton. done.
    + split; [lia|]. by exists evs1, args', (ext w1).
  - unfold bind.
    set (w2 := mkWorld x (trace w1 ++ [EvExecute (tool_name tool) args'])).
    destruct ((if Nat.ltb attempt (maxRetries self) then sleep (retryDelay self) else ret tt)
                w2) as [r3 w3] eqn:Hsleep.
    assert (r3 = Returned tt ∧ ∃ evs3, trace w3 = trace w2 ++ evs3 ∧ invocations evs3 = [])
      as (-> & evs3 & Htr3 & Hq3).
    { destruct (Nat.ltb attempt (maxRetries self)).
      - apply sleep_quiet in Hsleep as (-> & _ & ?). done.
      - injection Hsleep as <- <-. split; [done|]. exists []. by rewrite app_nil_r. }
    intros Hloop. apply IH in Hloop as (evs4 & Htr4 & Hinv & Hres); [|done].
    exists (evs1 ++ [EvExecute (tool_name tool) args'] ++ evs3 ++ evs4).
    split.
    { rewrite Htr4, Htr3. unfold w2. simpl. rewrite Htr1. by rewrite <- !app_assoc. }
    rewrite !invocations_app, Hq1, Hq3. simpl. split.
    + intros n a [[= -> ->] | Hin]%elem_of_cons; [done | by apply Hinv].
    + destruct r as [v|e'].
      * destruct Hres as [Hlen (evs0 & a & x0 & -> & Hx)]. split; [lia|].
        exists (evs1 ++ [EvExecute (tool_name tool) args'] ++ evs3 ++ evs0), a, x0.
        split; [by rewrite <- !app_assoc | done].
      * destruct Hres as [Hlen Hmsg]. split; [lia | done].
Qed.

Lemma effectiveArguments_throws self tool name args ctx oc w e w' :
  effectiveArguments JSON_stringify self tool name args ctx oc w = (Thrown e, w') →
  ∃ msg, e = AgentError msg (Some name) None.
Proof.
  unfold effectiveArguments.
  destruct (agentic tool && negb _ && truthy ctx || oc).
  - unfold tryCatch, throw.
    destruct (generateStructuredDataForTool JSON_stringify self tool _ w) as [[d|e0] w1]; [done|].
    intros [= <- <-]. eauto.
  - destruct (agentic tool && _); [done|].
    destruct (agentic tool && _); [|done]. unfold throw. intros [= <- <-]. eauto.
Qed.

(** What a call of [callTool] leaves behind: nothing when its first log
    message cannot be built, and otherwise what follows. *)
Lemma callTool_outcome self toolCall oc w r w' :
  callTool JSON_stringify self toolCall oc w = (r, w') →
  (∃ e, JSON_stringify (JObj (default ∅ (tc_arguments toolCall))) = Thrown e
        ∧ r = Thrown e ∧ w' = w)
  ∨ ((∃ text, JSON_stringify (JObj (default ∅ (tc_arguments toolCall))) = Returned text)
     ∧ ∃ evs, trace w' = trace w ++ evs
       ∧ match r with
         | Returned v =>
             ∃ tool, findTool (tools self) (tc_tool toolCall) = Some tool
               ∧ (∀ n a, (n, a) ∈ invocations evs →
                    n = tool_name tool ∧ validatedData (parametersSchema tool) a)
               ∧ 1 ≤ length (invocations evs) ≤ maxRetries self
               ∧ ∃ evs0 a x, evs = evs0 ++ [EvExecute (tool_name tool) a]
                             ∧ tool_execute tool a x = (Returned v, ext w')
         | Thrown e =>
             (∃ msg, e = AgentError msg (Some (tc_tool toolCall)) None
                     ∧ invocations evs = [])
             ∨ (∃ msg tool,
                  e = AgentError msg (Some (tc_tool toolCall)) (Some (maxRetries self))
                  ∧ findTool (tools self) (tc_tool toolCall) = Some tool
                  ∧ length (invocations evs) = maxRetries self
                  ∧ ∀ n a, (n, a) ∈ invocations evs →
                      n = tool_name tool ∧ validatedData (parametersSchema tool) a)
         end).
Proof.
  unfold callTool.
  destruct (JSON_stringify (JObj (default ∅ (tc_arguments toolCall)))) as [text|e0].
  2:{ rewrite bind_evaluate_Thrown. intros [= <- <-]. left. by exists e0. }
  rewrite bind_evaluate_Returned. intros Hcall. right. split; [by exists text|].
  revert Hcall. unfold getTool.
  destruct (findTool (tools self) (tc_tool toolCall)) as [tool|] eqn:Hfind.
  2:{ unfold bind, throw. intros [= <- <-]. exists []. rewrite app_nil_r.
      split; [done|]. left. eauto. }
  rewrite bind_ret_l.
  destruct (negb (Nat.ltb 0 (size (default ∅ (tc_arguments toolCall))))
            && negb (truthy (tc_context toolCall))).
  { unfold throw. intros [= <- <-]. exists []. rewrite app_nil_r.
    split; [done|]. left. eauto. }
  unfold bind at 1.
  destruct (effectiveArguments JSON_stringify self tool (tc_tool toolCall) _
              (tc_context toolCall) oc w) as [[finalArgs|e] w1] eqn:Heff.
  2:{ intros [= <- <-].
      destruct (gateway_quiet _ _ (effectiveArguments_continues _ _ _ _ _ _ _ _ _ _ Heff))
        as (evs & Htr & Hq).
      exists evs. split; [done|]. left.
      destruct (effectiveArguments_throws _ _ _ _ _ _ _ _ _ Heff) as [msg ->]. eauto. }
  destruct (gateway_quiet _ _ (effectiveArguments_continues _ _ _ _ _ _ _ _ _ _ Heff))
    as (evs1 & Htr1 & Hq1).
  destruct (isValid (validateAgainstSchema finalArgs (parametersSchema tool))) eqn:Hv; simpl.
  2:{ unfold throw. intros [= <- <-]. exists evs1. split; [done|]. left. eauto. }
  destruct (validateAgainstSchema_valid _ _ Hv) as [d Hd]. rewrite Hd. simpl.
  intros Hloop. apply retryLoop_outcome in Hloop as (evs2 & Htr2 & Hinv & Hres).
  2:{ by exists finalArgs. }
  exists (evs1 ++ evs2). split; [by rewrite Htr2, Htr1, <- app_assoc|].
  rewrite invocations_app, Hq1. simpl. destruct r as [v|e].
  - exists tool. split; [done|]. split; [done|].
    destruct Hres as [Hlen (evs0 & a & x & -> & Hx)]. split; [done|].
    exists (evs1 ++ evs0), a, x. by rewrite <- app_assoc.
  - destruct Hres as [Hlen [msg ->]]. right. exists msg, tool. done.
Qed.

End CallFacts.
Section CallProperties.
Context {W : Type}.
Variable JSON_stringify : JValue → Outcome string.
Variable String_of : JValue → string.
Implicit Types (w : World W) (self : Agent W) (tool : Tool W).

Lemma validatedData_stable schema a :
  schemaOrdinaryKeys (normalizeToOpenAPISchema schema) →
  validatedData schema a →
  validateAgainstSchema a schema = mkValidationResult true (Some a) None.
Proof.
  intros Hdk [raw Hraw].
  destruct (validateAgainstSchema_settles raw schema Hdk) as (cleaned & H1 & H2).
  { by rewrite Hraw. }
  rewrite Hraw in H1. injection H1 as <-. exact H2.
Qed.


(** Extra X9. When [callTool] returns, the value is the one returned by
    the last invocation of [execute] of the registered tool, that
    invocation is the last thing the call did, and fewer than
    [maxRetries] invocations came before it. *)
Theorem callTool_returns_the_last_result self (toolCall : ToolCall)
    (orchestratorCall : bool) w (v : JValue) w' :
  callTool JSON_stringify self toolCall orchestratorCall w = (Returned v, w') →
  ∃ tool evs0 args x,
    findTool (tools self) (tc_tool toolCall) = Some tool
    ∧ trace w' = trace w ++ evs0 ++ [EvExecute (tool_name tool) args]
    ∧ tool_execute tool args x = (Returned v, ext w')
    ∧ length (invocations evs0) < maxRetries self.
Proof.
  intros Hcall.
  apply callTool_outcome in Hcall as [(e0 & _ & [=] & _) | (_ & evs & Htr & Hres)].
  destruct Hres as (tool & Hfind & _ & Hlen & evs0 & a & x & -> & Hx).
  exists tool, evs0, a, x. split; [done|]. split; [done|]. split; [done|].
  rewrite invocations_app, length_app in Hlen. simpl in Hlen. lia.
Qed.

(** Extra X10. Whatever the outcome of [callTool], [execute] is invoked
    at most [maxRetries] times, only on the registered tool of the call,
    and only with arguments that came out of the validator for that
    tool's schema. When the keys of the schema are distinct and are not
    names of members of [Object.prototype], at every depth, these
    arguments validate unchanged. *)
Theorem tools_receive_validated_arguments self (toolCall : ToolCall)
    (orchestratorCall : bool) w (r : Outcome JValue) w' :
  callTool JSON_stringify self toolCall orchestratorCall w = (r, w') →
  ∃ evs,
    trace w' = trace w ++ evs
    ∧ length (invocations evs) ≤ maxRetries self
    ∧ ∀ name args, (name, args) ∈ invocations evs →
        ∃ tool,
          findTool (tools self) (tc_tool toolCall) = Some tool
          ∧ name = tool_name tool
          ∧ validatedData (parametersSchema tool) args
          ∧ (schemaOrdinaryKeys (normalizeToOpenAPISchema (parametersSchema tool)) →
             validateAgainstSchema args (parametersSchema tool)
             = mkValidationResult true (Some args) None).
Proof.
  intros Hcall.
  apply callTool_outcome in Hcall as [(e0 & _ & _ & ->) | (_ & evs & Htr & Hres)].
  { exists []. rewrite app_nil_r. split; [done|]. split; [simpl; lia|].
    intros name args Hin. by apply elem_of_nil in Hin. }
  exists evs. split; [done|].
  assert (∀ tool,
            findTool (tools self) (tc_tool toolCall) = Some tool →
            (∀ n a, (n, a) ∈ invocations evs →
               n = tool_name tool ∧ validatedData (parametersSchema tool) a) →
            ∀ name args, (name, args) ∈ invocations evs →
              ∃ tool,
                findTool (tools self) (tc_tool toolCall) = Some tool
                ∧ name = tool_name tool
                ∧ validatedData (parametersSchema tool) args
                ∧ (schemaOrdinaryKeys (normalizeToOpenAPISchema (parametersSchema tool)) →
                   validateAgainstSchema args (parametersSchema tool)
                   = mkValidationResult true (Some args) None)) as Hall.
  { intros tool Hfind Hinv name args Hin. destruct (Hinv _ _ Hin) as [-> Hval].
    exists tool. repeat split; try done. intros Hdk. by apply validatedData_stable. }
  destruct r as [v|e].
  - destruct Hres as (tool & Hfind & Hinv & Hlen & _). split; [lia|]. by apply (Hall tool).
  - destruct Hres as [(msg & -> & Hq) | (msg & tool & -> & Hfind & Hlen & Hinv)].
    + rewrite Hq. split; [simpl; lia|]. intros name args Hin. by apply elem_of_nil in Hin.
    + split; [lia|]. by apply (Hall tool).
Qed.

(** Extra X11. [validateToolCall] reports a call as valid exactly when it
    returns no error list. A call that it reports as invalid, and that
    does not ask for extraction, is rejected by [callTool] before
    anything happens: the world is untouched, and the error is the one of
    [JSON.stringify] when the arguments cannot be serialized for the
    first log message, and otherwise an [AgentError] for the tool,
    without attempt count. This holds whatever the [validate] flag of the
    tool says. *)
Theorem invalid_call_is_rejected_untouched self (toolCall : ToolCall) w :
  (fst (validateToolCall self toolCall) = true ↔ snd (validateToolCall self toolCall) = None)
  ∧ (fst (validateToolCall self toolCall) = false →
     (∀ tool, findTool (tools self) (tc_tool toolCall) = Some tool →
              asksExtraction tool toolCall = false) →
     match JSON_stringify (JObj (default ∅ (tc_arguments toolCall))) with
     | Thrown e => callTool JSON_stringify self toolCall false w = (Thrown e, w)
     | Returned _ =>
         ∃ msg, callTool JSON_stringify self toolCall false w
                = (Thrown (AgentError msg (Some (tc_tool toolCall)) None), w)
     end).
Proof.
  unfold validateToolCall, callTool, getTool.
  set (args := default ∅ (tc_arguments toolCall)).
  destruct (findTool (tools self) (tc_tool toolCall)) as [tool|] eqn:Hfind.
  2:{ split; [done|]. intros _ _.
      destruct (JSON_stringify (JObj args)); [|done]. unfold bind, throw. simpl. eauto. }
  destruct (isValid (validateAgainstSchema args (parametersSchema tool))) eqn:Hv; simpl.
  { split; [done|]. done. }
  destruct (validateAgainstSchema_invalid _ _ Hv) as (e & errs & Herrs).
  rewrite Herrs. simpl. split; [done|]. intros _ Hask. specialize (Hask tool eq_refl).
  destruct (JSON_stringify (JObj args)) as [text|e0]; [|done].
  rewrite bind_evaluate_Returned, bind_ret_l.
  unfold asksExtraction in Hask. fold args in Hask.
  destruct (negb (Nat.ltb 0 (size args)) && negb (truthy (tc_context toolCall))) eqn:Hin.
  { unfold throw. eauto. }
  unfold bind, effectiveArguments. rewrite Hask. simpl.
  destruct (agentic tool) eqn:Hag; simpl.
  - simpl in Hask, Hin. destruct (Nat.ltb 0 (size args)); simpl in *.
    + rewrite Herrs. unfold throw. simpl. eauto.
    + by rewrite Hask in Hin.
  - rewrite Herrs. unfold throw. simpl. eauto.
Qed.

End CallProperties.
Section GatewayFacts.
Context {W : Type}.
Variable JSON_stringify : JValue → Outcome string.
Variable String_of : JValue → string.
Implicit Types (w : World W) (self : Agent W) (tool : Tool W).

Lemma requestsIn_app evs1 evs2 :
  requestsIn (evs1 ++ evs2) = requestsIn evs1 ++ requestsIn evs2.
Proof. unfold requestsIn. induction evs1 as [|[] evs1 IH]; simpl; by rewrite ?IH. Qed.

Lemma askArguments_trace self request w r w' :
  askArguments self request w = (r, w') →
  trace w' = trace w ++ [EvStructuredOutput request].
Proof.
  unfold askArguments, perform.
  destruct (getArguments (llmService self) request (ext w)). by intros [= <- <-].
Qed.

(** The part shared by the two extraction helpers. *)
Lemma checkExtracted_outcome self tool p1 p2 response w r w' :
  checkExtracted JSON_stringify self tool p1 p2 response w = (r, w') →
  w' = w ∧ match r with
           | Returned d => validatedData (parametersSchema tool) d
           | Thrown e => True
           end.
Proof.
  intros Hc. split; [by eapply checkExtracted_world|].
  unfold checkExtracted in Hc.
  destruct (negb (resp_isValid response)); [by injection Hc as <- <-|].
  destruct (isValid (validateAgainstSchema _ (parametersSchema tool))) eqn:Hv; simpl in Hc.
  - destruct (validateAgainstSchema_valid _ _ Hv) as [d Hd]. rewrite Hd in Hc.
    simpl in Hc. destruct (verbose self).
    + unfold bind, evaluate in Hc. destruct (JSON_stringify (JObj d)).
      * injection Hc as <- <-. by eexists.
      * by injection Hc as <- <-.
    + injection Hc as <- <-. by eexists.
  - by injection Hc as <- <-.
Qed.

Lemma generateStructuredDataForTool_outcome self tool ctx w r w' :
  generateStructuredDataForTool JSON_stringify self tool ctx w = (r, w') →
  trace w' = trace w
             ++ [EvStructuredOutput
                   (mkRequest (ExtractionPrompt (parametersSchema tool)
                                 (tool_systemPrompt tool) ctx)
                              ("Extract parameters for " +:+ tool_name tool) None)]
  ∧ match r with
    | Returned d => validatedData (parametersSchema tool) d
    | Thrown e =>
        ∃ msg, e = AgentError ("LLM service error for tool '" +:+ tool_name tool +:+ "': "
                               +:+ msg) (Some (tool_name tool)) None
    end.
Proof.
  unfold generateStructuredDataForTool, tryCatch, bind.
  destruct (askArguments self _ w) as [[resp|e] w1] eqn:Hask;
    apply askArguments_trace in Hask.
  - destruct (checkExtracted JSON_stringify self tool _ _ resp w1) as [[d|e] w2] eqn:Hc;
      apply checkExtracted_outcome in Hc as [-> Hd]; intros [= <- <-];
      (split; [done|]); [done | eauto].
  - intros [= <- <-]. split; [done | eauto].
Qed.

Lemma regenerateStructuredDataWithError_outcome self tool ctx err w r w' :
  regenerateStructuredDataWithError JSON_stringify self tool ctx err w = (r, w') →
  trace w' = trace w
             ++ [EvStructuredOutput
                   (mkRequest (RetryPrompt (parametersSchema tool) ctx (previousError err))
                              ("Regenerate parameters for " +:+ tool_name tool
                               +:+ " with error feedback")
                              (Some "gpt-4o-mini"))]
  ∧ match r with
    | Returned d => validatedData (parametersSchema tool) d
    | Thrown e =>
        ∃ msg, e = AgentError ("LLM service error while regenerating data for tool '"
                               +:+ tool_name tool +:+ "': " +:+ msg)
                     (Some (tool_name tool)) None
    end.
Proof.
  unfold regenerateStructuredDataWithError, tryCatch, bind.
  destruct (askArguments self _ w) as [[resp|e] w1] eqn:Hask;
    apply askArguments_trace in Hask.
  - destruct (checkExtracted JSON_stringify self tool _ _ resp w1) as [[d|e] w2] eqn:Hc;
      apply checkExtracted_outcome in Hc as [-> Hd]; intros [= <- <-];
      (split; [done|]); [done | eauto].
  - intros [= <- <-]. split; [done | eauto].
Qed.

Lemma regenerateOnRetry_requests self tool name ctx err args w r w' :
  regenerateOnRetry JSON_stringify self tool name ctx err args w = (r, w') →
  ∃ request, trace w' = trace w ++ [EvStructuredOutput request].
Proof.
  unfold regenerateOnRetry, tryCatch, bind.
  destruct (regenerateStructuredDataWithError JSON_stringify self tool _ err w) as [[d|e] w1] eqn:Hr;
    apply regenerateStructuredDataWithError_outcome in Hr as [Htr _].
  - destruct (negb (isValid _)); intros [= <- <-]; eauto.
  - intros [= <- <-]. eauto.
Qed.

Lemma sleep_requests ms w r w' :
  sleep ms w = (r, w') → ∃ evs, trace w' = trace w ++ evs ∧ requestsIn evs = [].
Proof.
  unfold sleep. destruct (Nat.leb ms 0).
  - intros [= <- <-]. exists []. by rewrite app_nil_r.
  - unfold perform. intros [= <- <-]. by exists [EvSleep ms].
Qed.

(** The requests of the retry loop: one for each regeneration. *)
Lemma retryLoop_requests self tool name ctx should remaining :
  ∀ attempt args lastError w r w',
    retryLoop JSON_stringify self tool name ctx should remaining attempt args lastError w = (r, w') →
    ∃ evs, trace w' = trace w ++ evs
      ∧ length (requestsIn evs) ≤ match lastError with
                                  | None => remaining - 1
                                  | Some _ => remaining
                                  end
      ∧ (should = false → requestsIn evs = []).
Proof.
  induction remaining as [|remaining IH]; intros attempt args lastError w r w'.
  { simpl. intros [= <- <-]. exists []. rewrite app_nil_r. simpl.
    split; [done|]. split; [|done]. destruct lastError; lia. }
  rewrite retryLoop_S. unfold bind at 1.
  destruct (match lastError with
            | Some e => if Nat.ltb 1 attempt && should
                        then regenerateOnRetry JSON_stringify self tool name ctx e args else ret args
            | None => ret args
            end w) as [r1 w1] eqn:Hprep.
  assert (∃ evs1, trace w1 = trace w ++ evs1
                  ∧ length (requestsIn evs1) ≤ match lastError with
                                               | None => 0
                                               | Some _ => 1
                                               end
                  ∧ (should = false → requestsIn evs1 = []))
    as (evs1 & Htr1 & Hlen1 & Hno1).
  { assert (ret args w = (r1, w1) →
            ∃ evs1, trace w1 = trace w ++ evs1 ∧ requestsIn evs1 = []) as Hret.
    { intros [= <- <-]. exists []. by rewrite app_nil_r. }
    destruct lastError as [e|].
    2:{ destruct (Hret Hprep) as (evs1 & ? & Hq). exists evs1. by rewrite Hq. }
    destruct (Nat.ltb 1 attempt && should) eqn:Hcond.
    2:{ destruct (Hret Hprep) as (evs1 & ? & Hq). exists evs1. rewrite Hq. simpl.
        split; [done|]. split; [lia | done]. }
    apply regenerateOnRetry_requests in Hprep as [request Htr].
    exists [EvStructuredOutput request]. split; [done|]. simpl. split; [lia|].
    intros ->. by rewrite andb_false_r in Hcond. }
  destruct r1 as [args'|e1].
  2:{ intros [= <- <-]. exists evs1. split; [done|]. split; [|done].
      destruct lastError; lia. }
  unfold tryCatch, runTool, perform.
  destruct (tool_execute tool args' (ext w1)) as [[v|e] x] eqn:Hexec.
  - intros [= <- <-]. exists (evs1 ++ [EvExecute (tool_name tool) args']). simpl.
    split; [by rewrite Htr1, <- app_assoc|].
    rewrite requestsIn_app. simpl. rewrite app_nil_r. split; [|done].
    destruct lastError; lia.
  - unfold bind.
    set (w2 := mkWorld x (trace w1 ++ [EvExecute (tool_name tool) args'])).
    destruct ((if Nat.ltb attempt (maxRetries self) then sleep (retryDelay self) else ret tt)
                w2) as [r3 w3] eqn:Hsleep.
    assert (∃ evs3, trace w3 = trace w2 ++ evs3 ∧ requestsIn evs3 = [])
      as (evs3 & Htr3 & Hq3).
    { destruct (Nat.ltb attempt (maxRetries self)).
      - by apply sleep_requests in Hsleep.
      - injection Hsleep as <- <-. exists []. by rewrite app_nil_r. }
    destruct r3 as [[]|e3].
    2:{ intros [= <- <-]. exists (evs1 ++ [EvExecute (tool_name tool) args'] ++ evs3).
        split; [rewrite Htr3; unfold w2; simpl; by rewrite Htr1, <- !app_assoc|].
        rewrite !requestsIn_app, Hq3. simpl. rewrite app_nil_r. split; [|done].
        destruct lastError; lia. }
    intros Hloop. apply IH in Hloop as (evs4 & Htr4 & Hlen4 & Hno4).
    exists (evs1 ++ [EvExecute (tool_name tool) args'] ++ evs3 ++ evs4).
    split.
    { rewrite Htr4, Htr3. unfold w2. simpl. rewrite Htr1. by rewrite <- !app_assoc. }
    rewrite !requestsIn_app, Hq3. simpl. rewrite length_app. split.
    + destruct lastError; lia.
    + intros Hs. by rewrite (Hno1 Hs), (Hno4 Hs).
Qed.

Lemma effectiveArguments_requests self tool name args ctx oc w r w' :
  effectiveArguments JSON_stringify self tool name args ctx oc w = (r, w') →
  ∃ evs, trace w' = trace w ++ evs
    ∧ length (requestsIn evs) ≤ 1
    ∧ (agentic tool && negb (Nat.ltb 0 (size args)) && truthy ctx || oc = false →
       requestsIn evs = []).
Proof.
  unfold effectiveArguments.
  destruct (agentic tool && negb _ && truthy ctx || oc).
  - unfold tryCatch.
    destruct (generateStructuredDataForTool JSON_stringify self tool _ w) as [[d|e] w1] eqn:Hg;
      apply generateStructuredDataForTool_outcome in Hg as [Htr _];
      intros [= <- <-]; eexists; (split; [exact Htr|]); simpl; (split; [lia | done]).
  - assert (∀ r0 : Outcome JRecord, (r0, w) = (r, w') →
              ∃ evs, trace w' = trace w ++ evs ∧ length (requestsIn evs) ≤ 1
                     ∧ (false = false → requestsIn evs = [])) as Hsame.
    { intros r0 [= <- <-]. exists []. rewrite app_nil_r. simpl. split; [done|].
      split; [lia | done]. }
    destruct (agentic tool && _); [apply Hsame|].
    destruct (agentic tool && _); apply Hsame.
Qed.

(** Extra X13. Each of the two extraction helpers sends exactly one
    request to the gateway, the regeneration with the model override
    [gpt-4o-mini] and, as the previous error, the message of the error or,
    when that is empty, the text [String(error)]. What they return came
    out of the validator for the tool's schema. Whatever goes wrong
    inside, an invalid response included, surfaces as an [AgentError] for
    the tool whose message starts with the helper's own prefix. *)
Theorem extraction_sends_one_request self tool (context0 : string) (err : Exn)
    w (r : Outcome JRecord) w' :
  (generateStructuredDataForTool JSON_stringify self tool context0 w = (r, w') →
   trace w' = trace w
              ++ [EvStructuredOutput
                    (mkRequest (ExtractionPrompt (parametersSchema tool)
                                  (tool_systemPrompt tool) context0)
                               ("Extract parameters for " +:+ tool_name tool) None)]
   ∧ match r with
     | Returned d => validatedData (parametersSchema tool) d
     | Thrown e =>
         ∃ msg, e = AgentError ("LLM service error for tool '" +:+ tool_name tool +:+ "': "
                                +:+ msg) (Some (tool_name tool)) None
     end)
  ∧ (regenerateStructuredDataWithError JSON_stringify self tool context0 err w = (r, w') →
     trace w' = trace w
                ++ [EvStructuredOutput
                      (mkRequest (RetryPrompt (parametersSchema tool) context0
                                    (previousError err))
                                 ("Regenerate parameters for " +:+ tool_name tool
                                  +:+ " with error feedback")
                                 (Some "gpt-4o-mini"))]
     ∧ match r with
       | Returned d => validatedData (parametersSchema tool) d
       | Thrown e =>
           ∃ msg, e = AgentError ("LLM service error while regenerating data for tool '"
                                  +:+ tool_name tool +:+ "': " +:+ msg)
                        (Some (tool_name tool)) None
       end).
Proof.
  split.
  - apply generateStructuredDataForTool_outcome.
  - apply regenerateStructuredDataWithError_outcome.
Qed.

(** Extra X14. A call of [callTool] sends at most [max 1 maxRetries]
    requests to the gateway: one for the extraction and one for each
    retry. A call that is not forced to extract and does not ask for
    extraction sends none, agentic tool or not. *)
Theorem gateway_requests_are_bounded self (toolCall : ToolCall) (orchestratorCall : bool)
    w (r : Outcome JValue) w' :
  callTool JSON_stringify self toolCall orchestratorCall w = (r, w') →
  ∃ evs,
    trace w' = trace w ++ evs
    ∧ length (requestsIn evs) ≤ Nat.max 1 (maxRetries self)
    ∧ (orchestratorCall = false →
       (∀ tool, findTool (tools self) (tc_tool toolCall) = Some tool →
                asksExtraction tool toolCall = false) →
       requestsIn evs = []).
Proof.
  unfold callTool, getTool.
  assert (∀ r0 : Outcome JValue, (r0, w) = (r, w') →
            ∃ evs, trace w' = trace w ++ evs
                   ∧ length (requestsIn evs) ≤ Nat.max 1 (maxRetries self)
                   ∧ (orchestratorCall = false →
                      (∀ tool, findTool (tools self) (tc_tool toolCall) = Some tool →
                               asksExtraction tool toolCall = false) →
                      requestsIn evs = [])) as Hsame.
  { intros r0 [= <- <-]. exists []. rewrite app_nil_r. simpl. split; [done|].
    split; [lia | done]. }
  destruct (JSON_stringify (JObj (default ∅ (tc_arguments toolCall)))) as [text|e0].
  2:{ rewrite bind_evaluate_Thrown. apply Hsame. }
  rewrite bind_evaluate_Returned.
  destruct (findTool (tools self) (tc_tool toolCall)) as [tool|] eqn:Hfind.
  2:{ unfold bind, throw. apply Hsame. }
  rewrite bind_ret_l.
  destruct (negb (Nat.ltb 0 (size (default ∅ (tc_arguments toolCall))))
            && negb (truthy (tc_context toolCall))).
  { unfold throw. apply Hsame. }
  unfold bind at 1.
  destruct (effectiveArguments JSON_stringify self tool (tc_tool toolCall) _ (tc_context toolCall)
              orchestratorCall w) as [r1 w1] eqn:Heff.
  apply effectiveArguments_requests in Heff as (evs1 & Htr1 & Hlen1 & Hno1).
  destruct r1 as [finalArgs|e].
  2:{ intros [= <- <-]. exists evs1. split; [done|]. split; [lia|].
      intros -> H. apply Hno1. specialize (H tool eq_refl).
      unfold asksExtraction in H. by rewrite H. }
  destruct (negb (isValid (validateAgainstSchema finalArgs (parametersSchema tool)))).
  { unfold throw. intros [= <- <-]. exists evs1. split; [done|]. split; [lia|].
    intros -> H. apply Hno1. specialize (H tool eq_refl).
      unfold asksExtraction in H. by rewrite H. }
  intros Hloop. apply retryLoop_requests in Hloop as (evs2 & Htr2 & Hlen2 & Hno2).
  exists (evs1 ++ evs2). split; [by rewrite Htr2, Htr1, <- app_assoc|].
  rewrite requestsIn_app, length_app. split; [lia|].
  intros -> H. specialize (H tool eq_refl). unfold asksExtraction in H.
  rewrite Hno1 by (by rewrite H). by rewrite Hno2.
Qed.
End GatewayFacts.

(** * Further properties of the orchestrator *)

Section RunFacts.
Context {W : Type}.
Variable JSON_stringify : JValue → Outcome string.
Variable String_of : JValue → string.
Implicit Types (w : World W) (self : Orchestrator W) (st : OrchestratorState).

Lemma keeps_refl st : keeps st st.
Proof. split; [done|]. split; [done|]. intros s Hs. by left. Qed.

Lemma keeps_trans st1 st2 st3 : keeps st1 st2 → keeps st2 st3 → keeps st1 st3.
Proof.
  intros (Hq1 & Hs1 & Hn1) (Hq2 & Hs2 & Hn2). split; [congruence|]. split; [auto|].
  intros s Hs. destruct (Hn2 s Hs) as [H2 | ?]; [|by right]. by apply Hn1.
Qed.

Lemma keeps_same st st' :
  userQuery st' = userQuery st → steps st' = steps st → keeps st st'.
Proof. intros Hq Hs. split; [done|]. rewrite Hs. split; [done|]. intros s ?. by left. Qed.

Lemma keeps_completed st st' :
  userQuery st' = userQuery st → completedOf (steps st') = completedOf (steps st) →
  keeps st st'.
Proof. intros Hq Hs. split; [done|]. rewrite Hs. split; [done|]. intros s ?. by left. Qed.

Lemma determineNextStep_state self st w r st' w' :
  determineNextStep JSON_stringify self st w = (r, st', w') → st' = st.
Proof.
  unfold determineNextStep.
  destruct (stateInfo _ _) as [info|e0]; [|by intros [= ? ? ?]; subst].
  destruct (perform _ _ w) as [[response|e] w1]; [|by intros [= ? ? ?]].
  destruct (if resp_isValid response then structuredData response else None);
    by intros [= ? ? ?].
Qed.

Lemma generatePlan_query self query sp prev completedSteps st w r st' w' :
  generatePlan JSON_stringify self query sp prev completedSteps st w = (r, st', w') →
  userQuery st' = userQuery st.
Proof.
  unfold generatePlan.
  destruct (completedStepsInfo _ _ _) as [info|e0]; [|by intros [= ? ? ?]; subst].
  destruct (perform _ _ w) as [[response|e] w1]; [|by intros [= ? ? ?]; subst].
  destruct (if resp_isValid response then structuredData response else None);
    by intros [= ? ? ?]; subst.
Qed.

(** Writing to a step that is not completed keeps the completed ones. *)
Lemma insert_keeps_completed (l : list ExecutionStep) i step new :
  l !! i = Some step → step_completed step = false →
  ∀ s, s ∈ completedOf l → s ∈ completedOf (<[i := new]> l).
Proof.
  intros Hi Hc s [Hsc Hs]%list_elem_of_filter. apply list_elem_of_filter. split; [done|].
  apply list_elem_of_lookup in Hs as [j Hj]. apply list_elem_of_lookup. exists j.
  rewrite list_lookup_insert_ne; [done|]. intros ->. rewrite Hi in Hj.
  injection Hj as ->. by rewrite Hc in Hsc.
Qed.

Lemma insert_completed_new (l : list ExecutionStep) i new :
  (step_completed new = true → is_Some (step_result new)) →
  ∀ s, s ∈ completedOf (<[i := new]> l) → s ∈ completedOf l ∨ is_Some (step_result s).
Proof.
  intros Hnew s [Hsc Hs]%list_elem_of_filter. apply list_elem_of_lookup in Hs as [j Hj].
  destruct (decide (i = j)) as [->|Hne].
  - destruct (decide (j < length l)) as [Hlt|Hge].
    + rewrite list_lookup_insert_eq in Hj by done. injection Hj as <-. right. by apply Hnew.
    + rewrite list_insert_ge in Hj by lia. left. apply list_elem_of_filter.
      split; [done|]. apply list_elem_of_lookup. by exists j.
  - rewrite list_lookup_insert_ne in Hj by done. left. apply list_elem_of_filter.
    split; [done|]. apply list_elem_of_lookup. by exists j.
Qed.

Lemma executeStep_keeps self i step st w r st' w' :
  steps st !! i = Some step → step_completed step = false →
  executeStep JSON_stringify String_of self i step st w = (r, st', w') →
  keeps st st' ∧ length (steps st') = length (steps st).
Proof.
  intros Hi Hc. unfold executeStep.
  destruct (Nat.ltb 0 _).
  { intros [= ? ? ?]; subst. split; [apply keeps_refl | done]. }
  destruct (callTool _ _ _ true w) as [[result|err] w1]; intros [= ? ? ?]; subst; simpl.
  - split; [|by rewrite length_insert]. split; [done|]. simpl. split.
    + by apply insert_keeps_completed with step.
    + apply insert_completed_new. simpl. eauto.
  - split; [|by rewrite length_insert]. split; [done|]. simpl. split.
    + by apply insert_keeps_completed with step.
    + apply insert_completed_new. simpl. by rewrite Hc.
Qed.

Lemma convertToExecutionSteps_new plan : completedOf (convertToExecutionSteps plan) = [].
Proof.
  unfold completedOf. apply filter_none. apply Forall_forall.
  unfold convertToExecutionSteps. intros s (p & -> & _)%list_elem_of_fmap. done.
Qed.

Lemma coherent_resultOf_ok response st :
  status st = completed → coherent (resultOf true response None st).
Proof. intros Hs. split; [done|]. left. done. Qed.

Lemma coherent_failed ok response msg st :
  ok = false → status st = error → state_error st = Some msg →
  coherent (resultOf ok response (Some msg) st).
Proof. intros -> Hs He. split; [done|]. right. simpl. eauto. Qed.

Lemma coherent_executionFailed e st : coherent (executionFailed e st).
Proof. by apply coherent_failed. Qed.

(** What a turn of the loop of [execute] keeps. *)
Lemma executeIteration_keeps self query sp count planResponse st w turn w' :
  executeIteration JSON_stringify String_of self query sp count planResponse st w = (turn, w') →
  match turn with
  | Finish r => coherent r ∧ keeps st (result_state r)
  | Continue _ _ st' => keeps st st'
  | Raise _ st' => keeps st st'
  end.
Proof.
  unfold executeIteration.
  destruct (findNextExecutableStep st) as [[i nextStep]|] eqn:Hnext.
  2:{ destruct (determineNextStep JSON_stringify self _ w) as [[[d|e] st1] w1] eqn:Hd;
        apply determineNextStep_state in Hd as ->; intros [= <- <-].
      - split; [by apply coherent_resultOf_ok | by apply keeps_same].
      - by apply keeps_same. }
  apply findNextExecutableStep_pending in Hnext as [Hi Hc].
  destruct (Nat.leb (maxSteps self) (length (steps st))).
  { intros [= <- <-]. split; [by apply coherent_resultOf_ok | by apply keeps_same]. }
  destruct (executeStep JSON_stringify String_of self i nextStep _ w) as [[[v|e] st1] w1] eqn:Hexec;
    apply executeStep_keeps in Hexec as (Hk & _); try done.
  { by intros [= <- <-]. }
  destruct (Nat.leb maxPlanRegenerations count).
  { intros [= <- <-]. split; [by apply coherent_failed|].
    eapply keeps_trans; [exact Hk|]. by apply keeps_same. }
  destruct (generatePlan JSON_stringify self query sp _ _ st1 w1) as [[[p|e'] st2] w2] eqn:Hplan;
    pose proof (generatePlan_query _ _ _ _ _ _ _ _ _ _ Hplan) as Hq;
    apply generatePlan_steps in Hplan as Hs; intros [= <- <-].
  - eapply keeps_trans; [exact Hk|]. apply keeps_completed; [done|]. simpl.
    by rewrite completedOf_merge, Hs.
  - eapply keeps_trans; [exact Hk|]. by apply keeps_same.
Qed.

Lemma executeLoop_keeps self query sp fuel :
  ∀ count planResponse st w r w',
    executeLoop JSON_stringify String_of self fuel query sp count planResponse st w = Some (r, w') →
    coherent r ∧ keeps st (result_state r).
Proof.
  induction fuel as [|fuel IH]; intros count planResponse st w r w'; [done|].
  simpl. destruct (Nat.leb count maxPlanRegenerations).
  2:{ intros [= <- <-]. split; [by apply coherent_resultOf_ok | by apply keeps_same]. }
  destruct (executeIteration JSON_stringify String_of self query sp count planResponse st w)
    as [[r0|count' plan' st'|e st'] w1] eqn:Hturn;
    apply executeIteration_keeps in Hturn.
  - by intros [= <- <-].
  - intros Hloop. apply IH in Hloop as (Hco & Hk').
    split; [done | by eapply keeps_trans].
  - intros [= <- <-]. split; [apply coherent_executionFailed|].
    eapply keeps_trans; [exact Hturn|]. by apply keeps_same.
Qed.

(** Extra X16. Every result of [execute] agrees with the state it
    carries: the state answers the query that was given, the result lists
    exactly the completed steps of the state, each of them with its
    result, and it reports success with the status [completed] and no
    error, or failure with the status [error] and the error message
    recorded in the state. *)
Theorem execute_result_is_coherent self (fuel : nat) (query : string)
    (systemPrompt : option string) w (r : OrchestratorResult) w' :
  execute JSON_stringify String_of self fuel query systemPrompt w = Some (r, w') →
  coherent r
  ∧ userQuery (result_state r) = query
  ∧ ∀ s, s ∈ result_steps r →
      s ∈ steps (result_state r) ∧ step_completed s = true ∧ is_Some (step_result s).
Proof.
  unfold execute.
  assert (∀ r : OrchestratorResult,
            coherent r → userQuery (result_state r) = query →
            (∀ s, s ∈ completedOf (steps (result_state r)) → is_Some (step_result s)) →
            coherent r
            ∧ userQuery (result_state r) = query
            ∧ ∀ s, s ∈ result_steps r →
                s ∈ steps (result_state r) ∧ step_completed s = true
                ∧ is_Some (step_result s)) as Hfrom.
  { intros r0 Hco Hq Hrec. split; [done|]. split; [done|]. destruct Hco as [-> _].
    intros s Hs. pose proof (Hrec s Hs) as Hres.
    apply list_elem_of_filter in Hs as [Hc Hs]. done. }
  destruct (generatePlan JSON_stringify self query systemPrompt None None _ w) as [[[p|e] st1] w1] eqn:Hplan;
    pose proof (generatePlan_query _ _ _ _ _ _ _ _ _ _ Hplan) as Hq;
    apply generatePlan_steps in Hplan as Hs; simpl in Hq, Hs.
  2:{ intros [= <- <-]. apply Hfrom; [apply coherent_executionFailed | done|].
      simpl. rewrite Hs. by intros s Hin%elem_of_nil. }
  destruct (pl_isComplete p && _) eqn:Hdone.
  { intros [= <- <-]. apply andb_true_iff in Hdone as [_ Hlen]. simpl in Hlen.
    apply Nat.eqb_eq, nil_length_inv in Hlen. apply Hfrom; simpl.
    - split; [simpl; by rewrite Hlen | left; done].
    - done.
    - rewrite Hlen. by intros s Hin%elem_of_nil. }
  intros Hloop. apply executeLoop_keeps in Hloop as (Hco & Hq' & _ & Hnew).
  apply Hfrom; [done | by rewrite Hq' |].
  intros s Hin. destruct (Hnew s Hin) as [Hold | ?]; [|done].
  simpl in Hold. rewrite convertToExecutionSteps_new in Hold. by apply elem_of_nil in Hold.
Qed.

(** *** [continue] *)

Lemma decideNext_outcome self fallback st w res st' w' :
  decideNext JSON_stringify self fallback st w = (res, st', w') →
  st' = st
  ∧ match res with
    | inl (Done r) => coherent r ∧ result_state r = set_status completed st
    | inl (Failed _ st1) => st1 = st
    | inl _ => False
    | inr _ => True
    end.
Proof.
  unfold decideNext.
  destruct (determineNextStep JSON_stringify self st w) as [[[d|e] st1] w1] eqn:Hd;
    apply determineNextStep_state in Hd as ->.
  - destruct (negb (shouldContinue d)); intros [= <- <- <-]; [|done].
    split; [done|]. split; [|done]. by apply coherent_resultOf_ok.
  - by intros [= <- <- <-].
Qed.

Lemma stepToExecute_spec decision st found st' :
  stepToExecute decision st = (found, st') →
  keeps st st'
  ∧ length (steps st') ≤ S (length (steps st))
  ∧ match found with
    | Some (i, step) => steps st' !! i = Some step ∧ step_completed step = false
    | None => True
    end.
Proof.
  unfold stepToExecute. destruct (nextStep decision) as [next|].
  - intros [= <- <-]. simpl. split; [|split].
    + apply keeps_completed; [done|]. simpl. unfold completedOf. rewrite filter_app.
      rewrite filter_cons_False by done. by rewrite filter_nil, app_nil_r.
    + rewrite length_app. simpl. lia.
    + split; [|done]. by rewrite lookup_app_r, Nat.sub_diag.
  - intros [= <- <-]. split; [apply keeps_refl|]. split; [lia|].
    destruct (find _ (indexed (steps st))) as [[i step]|] eqn:Hfind; [|done].
    apply find_some in Hfind as [Hin Hc]. apply list_elem_of_In, elem_of_indexed in Hin.
    split; [done|]. by apply negb_true_iff in Hc.
Qed.

(** What a turn of the loop of [continue] keeps. *)
Lemma continueIteration_keeps self st w turn w' :
  continueIteration JSON_stringify String_of self st w = (turn, w') →
  ∃ st',
    keeps st st'
    ∧ length (steps st') ≤ Nat.max (length (steps st)) (maxSteps self)
    ∧ match turn with
      | Done r => coherent r ∧ result_state r = set_status completed st'
      | Break st1 | Next st1 | Failed _ st1 => st1 = st'
      end.
Proof.
  unfold continueIteration.
  destruct (Nat.leb (maxSteps self) (length (steps st))) eqn:Hmax.
  { intros [= <- <-]. exists st. split; [apply keeps_refl|]. split; [lia|done]. }
  apply Nat.leb_gt in Hmax.
  assert (∀ fallback st0 w0 res st1 w1,
            decideNext JSON_stringify self fallback st0 w0 = (res, st1, w1) →
            keeps st st0 →
            length (steps st0) ≤ Nat.max (length (steps st)) (maxSteps self) →
            st1 = st0
            ∧ match res with
              | inl turn0 =>
                  ∃ st',
                    keeps st st'
                    ∧ length (steps st') ≤ Nat.max (length (steps st)) (maxSteps self)
                    ∧ match turn0 with
                      | Done r => coherent r ∧ result_state r = set_status completed st'
                      | Break st2 | Next st2 | Failed _ st2 => st2 = st'
                      end
              | inr _ => True
              end) as Hdecide.
  { intros fallback st0 w0 res st1 w1 Hd Hk Hl.
    apply decideNext_outcome in Hd as [-> Hres]. split; [done|].
    destruct res as [[r|?|?|e st2]|]; try done;
      exists st0; (split; [exact Hk|]); (split; [exact Hl | exact Hres]). }
  destruct (if Nat.ltb 0 (length (steps st)) && forallb step_completed (steps st)
            then decideNext JSON_stringify self "All steps completed successfully." st w
            else (inr (mkNextStepResponse true None None None), st, w))
    as [[res0 st0] w0] eqn:H0.
  assert (st0 = st ∧ match res0 with
                     | inl turn0 =>
                         ∃ st',
                           keeps st st'
                           ∧ length (steps st') ≤ Nat.max (length (steps st)) (maxSteps self)
                           ∧ match turn0 with
                             | Done r => coherent r ∧ result_state r = set_status completed st'
                             | Break st2 | Next st2 | Failed _ st2 => st2 = st'
                             end
                     | inr _ => True
                     end) as [-> Hres0].
  { destruct (Nat.ltb 0 (length (steps st)) && forallb step_completed (steps st)).
    - apply (Hdecide _ _ _ _ _ _ H0); [apply keeps_refl | lia].
    - by injection H0 as <- <- <-. }
  destruct res0 as [turn0|d0]; [by intros [= <- <-]|]. clear H0 Hres0.
  destruct (decideNext JSON_stringify self "Task completed successfully." st w0)
    as [[res1 st1] w1] eqn:H1.
  destruct (Hdecide _ _ _ _ _ _ H1) as [-> Hres1]; [apply keeps_refl | lia |].
  destruct res1 as [turn1|decision]; [by intros [= <- <-]|]. clear Hres1.
  destruct (stepToExecute decision st) as [found st2] eqn:Hstep.
  apply stepToExecute_spec in Hstep as (Hkeep2 & Hl2 & Hfound).
  assert (length (steps st2) ≤ Nat.max (length (steps st)) (maxSteps self)) as Hlen2 by lia.
  destruct found as [[i step]|].
  2:{ destruct (decideNext JSON_stringify self "All planned steps completed successfully." st2 w1)
        as [[res3 st3] w3] eqn:H3.
      destruct (Hdecide _ _ _ _ _ _ H3) as [-> Hres3]; [done | done |].
      destruct res3 as [turn3|d3]; intros [= <- <-]; [done|].
      exists st2. split; [done|]. split; [lia | done]. }
  destruct Hfound as [Hi Hc].
  destruct (executeStep JSON_stringify String_of self i step _ w1) as [[[v|e] st3] w3] eqn:Hexec;
    apply executeStep_keeps in Hexec as (Hk3 & Hl3); try done; simpl in Hl3;
    assert (keeps st st3) as Hkeep3
      by (eapply keeps_trans; [exact Hkeep2|]; eapply keeps_trans; [|exact Hk3];
          by apply keeps_same).
  2:{ intros [= <- <-]. exists st3. split; [done|]. split; [lia | done]. }
  destruct (forallb step_completed (steps st3)).
  2:{ intros [= <- <-]. exists st3. split; [done|]. split; [lia | done]. }
  destruct (decideNext JSON_stringify self "All steps completed successfully." st3 w3)
    as [[res4 st4] w4] eqn:H4.
  destruct (Hdecide _ _ _ _ _ _ H4) as [-> Hres4]; [done | lia |].
  destruct res4 as [turn4|d4]; intros [= <- <-]; [done|].
  exists st3. split; [done|]. split; [lia | done].
Qed.

Lemma continueLoop_keeps self remaining :
  ∀ st w r w',
    continueLoop JSON_stringify String_of self remaining st w = (r, w') →
    coherent r ∧ keeps st (result_state r)
    ∧ length (steps (result_state r)) ≤ Nat.max (length (steps st)) (maxSteps self).
Proof.
  induction remaining as [|remaining IH]; intros st w r w'; simpl.
  { intros [= <- <-]. split; [by apply coherent_resultOf_ok|].
    split; [by apply keeps_same | simpl; lia]. }
  destruct (continueIteration JSON_stringify String_of self st w) as [turn w1] eqn:Hturn.
  apply continueIteration_keeps in Hturn as (st' & Hk & Hl & Hturn).
  destruct turn as [r0|st1|st1|e st1].
  - intros [= <- <-]. destruct Hturn as [Hco ->]. split; [done|].
    split; [|done]. eapply keeps_trans; [exact Hk|]. by apply keeps_same.
  - subst st1. intros [= <- <-]. split; [by apply coherent_resultOf_ok|].
    split; [|done]. eapply keeps_trans; [exact Hk|]. by apply keeps_same.
  - subst st1. intros Hloop. apply IH in Hloop as (Hco & Hk' & Hl').
    split; [done|]. split; [by eapply keeps_trans | lia].
  - subst st1. intros [= <- <-]. split; [apply coherent_executionFailed|].
    split; [|done]. eapply keeps_trans; [exact Hk|]. by apply keeps_same.
Qed.

(** Extra X17. [continue] throws only when the status is [idle], as
    after [reset], and then nothing has happened. Otherwise it returns a
    result that agrees with its state; on a completed run the state comes
    back as it is. In every case the state answers the same query, every
    step that was completed is still there as it was, every step completed
    since holds a result, and the list of steps has grown to at most
    [maxSteps] entries. *)
Theorem continue_keeps_what_is_done self st w (outcome : Outcome OrchestratorResult) w' :
  continue JSON_stringify String_of self st w = (outcome, w') →
  (status st = idle ∧ w' = w ∧ ∃ msg, outcome = Thrown (OrchestratorError msg None))
  ∨ (status st ≠ idle
     ∧ ∃ r, outcome = Returned r
            ∧ (status st = completed → result_state r = st ∧ w' = w)
            ∧ coherent r
            ∧ keeps st (result_state r)
            ∧ length (steps (result_state r))
              ≤ Nat.max (length (steps st)) (maxSteps self)).
Proof.
  unfold continue.
  assert (status st ≠ idle → status st ≠ completed →
          ∀ r w1, continueLoop JSON_stringify String_of self (maxIterations self) st w = (r, w1) →
          (Returned r, w1) = (outcome, w') →
          (status st = idle ∧ w' = w ∧ ∃ msg, outcome = Thrown (OrchestratorError msg None))
          ∨ (status st ≠ idle
             ∧ ∃ r, outcome = Returned r
                    ∧ (status st = completed → result_state r = st ∧ w' = w)
                    ∧ coherent r
                    ∧ keeps st (result_state r)
                    ∧ length (steps (result_state r))
                      ≤ Nat.max (length (steps st)) (maxSteps self))) as Hrun.
  { intros Hidle Hdone r w1 Hloop [= <- <-]. right. split; [done|]. exists r.
    apply continueLoop_keeps in Hloop as (Hco & Hk & Hl).
    split; [done|]. split; [by intros ?|]. split; [exact Hco|]. split; [exact Hk | exact Hl]. }
  destruct (status st) eqn:Hst.
  - intros [= <- <-]. left. eauto.
  - destruct (continueLoop _ _ _ _ st w) as [r w1] eqn:Hloop. by apply Hrun.
  - destruct (continueLoop _ _ _ _ st w) as [r w1] eqn:Hloop. by apply Hrun.
  - intros [= <- <-]. right. split; [done|]. eexists. split; [done|].
    split; [done|]. split; [by apply coherent_resultOf_ok|].
    split; [apply keeps_refl | simpl; lia].
  - destruct (continueLoop _ _ _ _ st w) as [r w1] eqn:Hloop. by apply Hrun.
Qed.
End RunFacts.
Section WorkFacts.
Context {W : Type}.
Variable JSON_stringify : JValue → Outcome string.
Variable String_of : JValue → string.
Implicit Types (w : World W) (self : Orchestrator W) (st : OrchestratorState).

Lemma planningRequests_app evs1 evs2 :
  planningRequests (evs1 ++ evs2) = planningRequests evs1 + planningRequests evs2.
Proof. unfold planningRequests. by rewrite filter_app, length_app. Qed.

Lemma planningRequests_single ev :
  planningRequests [ev] = if isPlanningRequest ev then 1 else 0.
Proof.
  unfold planningRequests. rewrite filter_cons, filter_nil.
  destruct (isPlanningRequest ev); by destruct (decide _).
Qed.

Lemma agent_events_no_plan evs :
  forallb isAgentEvent evs = true → planningRequests evs = 0.
Proof.
  unfold planningRequests. induction evs as [|ev evs IH]; simpl; [done|].
  intros [Hev Hrest]%andb_true_iff. rewrite filter_cons_False; [by apply IH|].
  destruct ev as [request| |]; simpl in *; try done. by destruct (prompt request).
Qed.

Lemma continues_agent_plans w w' : continues isAgentEvent w w' → plansAsked w' = plansAsked w.
Proof.
  intros (evs & Htr & Hall). unfold plansAsked.
  rewrite Htr, planningRequests_app, (agent_events_no_plan _ Hall). lia.
Qed.

Lemma trace_invocations w w' evs :
  trace w' = trace w ++ evs →
  toolInvocations w' = toolInvocations w + length (invocations evs).
Proof. intros Htr. unfold toolInvocations. by rewrite Htr, invocations_app, length_app. Qed.

Lemma retryLoop_agent_events (a : Agent W) tool name ctx should remaining :
  ∀ attempt args lastError w r w',
    retryLoop JSON_stringify a tool name ctx should remaining attempt args lastError w = (r, w') →
    continues isAgentEvent w w'.
Proof.
  induction remaining as [|remaining IH]; intros attempt args lastError w r w'.
  { simpl. intros [= <- <-]. apply continues_refl. }
  rewrite retryLoop_S. unfold bind at 1.
  destruct (match lastError with
            | Some e => if Nat.ltb 1 attempt && should
                        then regenerateOnRetry JSON_stringify a tool name ctx e args else ret args
            | None => ret args
            end w) as [r1 w1] eqn:Hprep.
  assert (continues isAgentEvent w w1) as Hc1.
  { assert (ret args w = (r1, w1) → continues isAgentEvent w w1) as Hret.
    { intros [= <- <-]. apply continues_refl. }
    destruct lastError as [e|]; [|by apply Hret].
    destruct (Nat.ltb 1 attempt && should); [|by apply Hret].
    revert Hprep. unfold regenerateOnRetry, tryCatch, bind.
    destruct (regenerateStructuredDataWithError JSON_stringify a tool _ e w) as [[d|e'] w2] eqn:Hr;
      apply regenerateStructuredDataWithError_outcome in Hr as [Htr _].
    - destruct (negb (isValid _)); intros [= <- <-]; by eexists.
    - intros [= <- <-]. by eexists. }
  destruct r1 as [args'|e1].
  2:{ by intros [= <- <-]. }
  unfold tryCatch.
  destruct (runTool tool args' w1) as [[v|e] w2] eqn:Hrun;
    apply (perform_continues isAgentEvent) in Hrun; try done.
  { intros [= <- <-]. by eapply continues_trans. }
  unfold bind.
  destruct ((if Nat.ltb attempt (maxRetries a) then sleep (retryDelay a) else ret tt) w2)
    as [r3 w3] eqn:Hsleep.
  assert (continues isAgentEvent w2 w3) as Hc3.
  { destruct (Nat.ltb attempt (maxRetries a)).
    - by apply (sleep_continues isAgentEvent) in Hsleep.
    - injection Hsleep as <- <-. apply continues_refl. }
  destruct r3 as [[]|e3].
  - intros Hloop. apply IH in Hloop.
    eapply continues_trans; [exact Hc1|]. eapply continues_trans; [exact Hrun|].
    by eapply continues_trans.
  - intros [= <- <-]. eapply continues_trans; [exact Hc1|]. by eapply continues_trans.
Qed.

Lemma callTool_agent_events (a : Agent W) toolCall oc w r w' :
  callTool JSON_stringify a toolCall oc w = (r, w') → continues isAgentEvent w w'.
Proof.
  unfold callTool, getTool.
  destruct (JSON_stringify (JObj (default ∅ (tc_arguments toolCall)))) as [text|e0].
  2:{ rewrite bind_evaluate_Thrown. intros [= <- <-]. apply continues_refl. }
  rewrite bind_evaluate_Returned.
  destruct (findTool (tools a) (tc_tool toolCall)) as [tool|].
  2:{ unfold bind, throw. intros [= <- <-]. apply continues_refl. }
  rewrite bind_ret_l.
  destruct (negb _ && negb _).
  { unfold throw. intros [= <- <-]. apply continues_refl. }
  unfold bind at 1.
  destruct (effectiveArguments JSON_stringify a tool (tc_tool toolCall) _ (tc_context toolCall) oc w)
    as [r1 w1] eqn:Heff.
  assert (continues isAgentEvent w w1) as Hc1.
  { revert Heff. unfold effectiveArguments.
    destruct (agentic tool && negb _ && truthy _ || oc).
    - unfold tryCatch.
      destruct (generateStructuredDataForTool JSON_stringify a tool _ w) as [[d|e] w2] eqn:Hg;
        apply generateStructuredDataForTool_outcome in Hg as [Htr _];
        intros [= <- <-]; by eexists.
    - destruct (agentic tool && _); [intros [= <- <-]; apply continues_refl|].
      destruct (agentic tool && _); intros [= <- <-]; apply continues_refl. }
  destruct r1 as [finalArgs|e]; [|by intros [= <- <-]].
  destruct (negb (isValid _)); [unfold throw; by intros [= <- <-]|].
  intros Hloop. apply retryLoop_agent_events in Hloop. by eapply continues_trans.
Qed.

Lemma callTool_work (a : Agent W) toolCall oc w r w' :
  callTool JSON_stringify a toolCall oc w = (r, w') →
  toolInvocations w' ≤ toolInvocations w + maxRetries a ∧ plansAsked w' = plansAsked w.
Proof.
  intros Hcall. split; [|by apply callTool_agent_events, continues_agent_plans in Hcall].
  apply callTool_outcome in Hcall as [(e0 & _ & _ & ->) | (_ & evs & Htr & Hres)]; [lia|].
  rewrite (trace_invocations _ _ _ Htr). destruct r as [v|e].
  - destruct Hres as (tool & _ & _ & Hlen & _). lia.
  - destruct Hres as [(msg & _ & Hq) | (msg & tool & _ & _ & Hlen & _)].
    + rewrite Hq. simpl. lia.
    + lia.
Qed.

Lemma executeStep_work self i step st w r st' w' :
  executeStep JSON_stringify String_of self i step st w = (r, st', w') →
  toolInvocations w' ≤ toolInvocations w + maxRetries (agent self)
  ∧ plansAsked w' = plansAsked w.
Proof.
  unfold executeStep. destruct (Nat.ltb 0 _).
  { intros [= ? ? ?]; subst. split; [lia | done]. }
  destruct (callTool _ _ _ true w) as [[result|err] w1] eqn:Hcall;
    apply callTool_work in Hcall; by intros [= ? ? ?]; subst.
Qed.

Lemma determineNextStep_work self st w r st' w' :
  determineNextStep JSON_stringify self st w = (r, st', w') →
  toolInvocations w' = toolInvocations w ∧ plansAsked w' = plansAsked w.
Proof.
  unfold determineNextStep, perform.
  destruct (stateInfo _ _) as [info|e0]; [|by intros [= ? ? ?]; subst].
  destruct (getDecision _ _ (ext w)) as [[response|e] x].
  - destruct (if resp_isValid response then structuredData response else None);
      intros [= ? ? ?]; subst; unfold toolInvocations, plansAsked; cbn [trace];
      rewrite invocations_app, planningRequests_app, length_app, planningRequests_single;
      simpl; lia.
  - intros [= ? ? ?]; subst; unfold toolInvocations, plansAsked; cbn [trace];
      rewrite invocations_app, planningRequests_app, length_app, planningRequests_single;
      simpl; lia.
Qed.

Lemma generatePlan_work self query sp prev completedSteps st w r st' w' :
  generatePlan JSON_stringify self query sp prev completedSteps st w = (r, st', w') →
  toolInvocations w' = toolInvocations w ∧ plansAsked w' ≤ plansAsked w + 1.
Proof.
  unfold generatePlan, perform.
  destruct (completedStepsInfo _ _ _) as [info|e0];
    [|intros [= ? ? ?]; subst; split; [done | lia]].
  destruct (getPlan _ _ (ext w)) as [[response|e] x].
  - destruct (if resp_isValid response then structuredData response else None);
      intros [= ? ? ?]; subst; unfold toolInvocations, plansAsked; cbn [trace];
      rewrite invocations_app, planningRequests_app, length_app, planningRequests_single;
      simpl; lia.
  - intros [= ? ? ?]; subst; unfold toolInvocations, plansAsked; cbn [trace];
      rewrite invocations_app, planningRequests_app, length_app, planningRequests_single;
      simpl; lia.
Qed.

Lemma pendingCount_le st : pendingCount st ≤ length (steps st).
Proof. unfold pendingCount. apply length_filter. Qed.

Lemma pendingCount_pos st i step :
  steps st !! i = Some step → step_completed step = false → 1 ≤ pendingCount st.
Proof.
  intros Hi Hc. unfold pendingCount.
  assert (step ∈ filter (fun s => step_completed s = false) (steps st)) as Hin.
  { apply list_elem_of_filter. split; [done|]. apply list_elem_of_lookup. by exists i. }
  destruct (filter _ (steps st)); [by apply elem_of_nil in Hin | simpl; lia].
Qed.

(** The work of one turn of the loop of [execute]. *)
Lemma executeIteration_work self query sp count planResponse st w turn w' :
  count ≤ maxPlanRegenerations →
  executeIteration JSON_stringify String_of self query sp count planResponse st w = (turn, w') →
  let R := maxRetries (agent self) in
  match turn with
  | Continue count' _ st' =>
      count' ≤ maxPlanRegenerations
      ∧ toolInvocations w' + callsLeft self count' st' * R
        ≤ toolInvocations w + callsLeft self count st * R
      ∧ plansAsked w' + (maxPlanRegenerations - count')
        ≤ plansAsked w + (maxPlanRegenerations - count)
  | _ =>
      toolInvocations w' ≤ toolInvocations w + callsLeft self count st * R
      ∧ plansAsked w' ≤ plansAsked w + (maxPlanRegenerations - count)
  end.
Proof.
  intros Hcount Hturn R.
  pose proof Hturn as Hturn'. revert Hturn'. unfold executeIteration.
  destruct (findNextExecutableStep st) as [[i nextStep]|] eqn:Hnext.
  2:{ destruct (determineNextStep JSON_stringify self _ w) as [[[d|e] st1] w1] eqn:Hd;
        apply determineNextStep_work in Hd as [Hi Hp]; intros [= <- <-]; lia. }
  apply findNextExecutableStep_pending in Hnext as [Hi Hc].
  pose proof (pendingCount_pos _ _ _ Hi Hc) as Hpos.
  unfold callsLeft.
  destruct (Nat.leb (maxSteps self) (length (steps st))) eqn:Hmax.
  { intros [= <- <-]. lia. }
  apply Nat.leb_gt in Hmax.
  destruct (executeStep JSON_stringify String_of self i nextStep _ w) as [[[v|e] st1] w1] eqn:Hexec;
    pose proof (executeStep_work _ _ _ _ _ _ _ _ Hexec) as [Hinv Hplans].
  { intros [= <- <-].
    apply executeIteration_progress in Hturn as [[_ Hless] | [Habs _]]; [|lia].
    apply executeStep_success_count in Hexec. simpl in Hexec.
    assert (length (steps st1) = length (steps st)) as Hlen
      by (by rewrite Hexec, length_insert).
    rewrite Hlen. apply Nat.leb_gt in Hmax. rewrite Hmax. apply Nat.leb_gt in Hmax.
    split; [done|]. split; [|lia]. fold R in Hinv. nia. }
  destruct (Nat.leb maxPlanRegenerations count) eqn:Hceil.
  { intros [= <- <-]. fold R in Hinv. split; [nia | lia]. }
  apply Nat.leb_gt in Hceil.
  destruct (generatePlan JSON_stringify self query sp _ _ st1 w1) as [[[p|e'] st2] w2] eqn:Hplan;
    pose proof (generatePlan_work _ _ _ _ _ _ _ _ _ _ Hplan) as [Hinv2 Hplans2];
    intros [= <- <-].
  - split; [lia|]. split; [|lia]. fold R in Hinv.
    destruct (Nat.leb (maxSteps self) _) eqn:Hmax'; [nia|].
    apply Nat.leb_gt in Hmax'.
    pose proof (pendingCount_le
                  (set_steps (mergeRegeneratedPlan (steps st2) p) st2)) as Hle.
    replace (maxPlanRegenerations - count) with (S (maxPlanRegenerations - S count)) by lia.
    set (later := (maxPlanRegenerations - S count) * maxSteps self).
    assert (pendingCount (set_steps (mergeRegeneratedPlan (steps st2) p) st2) + later + 1
            ≤ pendingCount st + (maxSteps self + later)) as Hstep by lia.
    change (S (maxPlanRegenerations - S count) * maxSteps self)
      with (maxSteps self + later).
    apply (Nat.mul_le_mono_r _ _ R) in Hstep. lia.
  - fold R in Hinv. split; [nia | lia].
Qed.

Lemma executeLoop_work self query sp fuel :
  ∀ count planResponse st w r w',
    count ≤ maxPlanRegenerations →
    executeLoop JSON_stringify String_of self fuel query sp count planResponse st w = Some (r, w') →
    toolInvocations w'
    ≤ toolInvocations w + callsLeft self count st * maxRetries (agent self)
    ∧ plansAsked w' ≤ plansAsked w + (maxPlanRegenerations - count).
Proof.
  induction fuel as [|fuel IH]; intros count planResponse st w r w' Hcount; [done|].
  simpl. destruct (Nat.leb count maxPlanRegenerations).
  2:{ intros [= <- <-]. lia. }
  destruct (executeIteration JSON_stringify String_of self query sp count planResponse st w)
    as [[r0|count' plan' st'|e st'] w1] eqn:Hturn;
    apply executeIteration_work in Hturn; try done; simpl in Hturn.
  - by intros [= <- <-].
  - destruct Hturn as (Hcount' & Hinv & Hplans). intros Hloop.
    apply IH in Hloop as [Hinv' Hplans']; [|done]. lia.
  - by intros [= <- <-].
Qed.

(** Extra X18. The work of [execute] is bounded whatever the gateway
    answers: it asks for a plan at most [1 + 3] times, and it invokes
    tools fewer than [4 * maxSteps * maxRetries] times, or not at all when
    one of the two limits is zero. *)
Theorem execute_work_is_bounded self (fuel : nat) (query : string)
    (systemPrompt : option string) w (r : OrchestratorResult) w' :
  execute JSON_stringify String_of self fuel query systemPrompt w = Some (r, w') →
  plansAsked w' ≤ plansAsked w + 1 + maxPlanRegenerations
  ∧ toolInvocations w'
    ≤ toolInvocations w + (4 * maxSteps self - 1) * maxRetries (agent self).
Proof.
  unfold execute.
  destruct (generatePlan JSON_stringify self query systemPrompt None None _ w) as [[[p|e] st1] w1] eqn:Hplan;
    apply generatePlan_work in Hplan as [Hinv Hplans].
  2:{ intros [= <- <-]. split; [lia|]. rewrite Hinv. apply Nat.le_add_r. }
  destruct (pl_isComplete p && _).
  { intros [= <- <-]. split; [lia|]. rewrite Hinv. apply Nat.le_add_r. }
  intros Hloop. apply executeLoop_work in Hloop as [Hinv' Hplans']; [|lia].
  split; [lia|]. revert Hinv'. unfold callsLeft.
  destruct (Nat.leb (maxSteps self) _) eqn:Hmax.
  { intros Hinv'. rewrite Nat.mul_0_l in Hinv'. rewrite <- Hinv.
    etransitivity; [exact Hinv'|]. rewrite Nat.add_0_r. apply Nat.le_add_r. }
  apply Nat.leb_gt in Hmax.
  pose proof (pendingCount_le (set_steps (convertToExecutionSteps p) st1)) as Hle.
  unfold maxPlanRegenerations. intros Hinv'.
  assert (pendingCount (set_steps (convertToExecutionSteps p) st1) + (3 - 0) * maxSteps self
          ≤ 4 * maxSteps self - 1) as Hsum by (simpl in *; lia).
  apply (Nat.mul_le_mono_r _ _ (maxRetries (agent self))) in Hsum. lia.
Qed.

Lemma decideNext_work self fallback st w res st' w' :
  decideNext JSON_stringify self fallback st w = (res, st', w') →
  toolInvocations w' = toolInvocations w ∧ plansAsked w' = plansAsked w.
Proof.
  unfold decideNext.
  destruct (determineNextStep JSON_stringify self st w) as [[[d|e] st1] w1] eqn:Hd;
    apply determineNextStep_work in Hd.
  - by destruct (negb (shouldContinue d)); intros [= <- <- <-].
  - by intros [= <- <- <-].
Qed.

Lemma continueIteration_work self st w turn w' :
  continueIteration JSON_stringify String_of self st w = (turn, w') →
  toolInvocations w' ≤ toolInvocations w + maxRetries (agent self)
  ∧ plansAsked w' = plansAsked w.
Proof.
  unfold continueIteration.
  destruct (Nat.leb (maxSteps self) (length (steps st))).
  { intros [= <- <-]. split; [lia | done]. }
  destruct (if Nat.ltb 0 (length (steps st)) && forallb step_completed (steps st)
            then decideNext JSON_stringify self "All steps completed successfully." st w
            else (inr (mkNextStepResponse true None None None), st, w))
    as [[res0 st0] w0] eqn:H0.
  assert (toolInvocations w0 = toolInvocations w ∧ plansAsked w0 = plansAsked w)
    as [Hi0 Hp0].
  { destruct (Nat.ltb 0 (length (steps st)) && forallb step_completed (steps st)).
    - by apply decideNext_work in H0.
    - by injection H0 as <- <- <-. }
  destruct res0 as [turn0|d0]; [intros [= <- <-]; split; [lia | done]|].
  destruct (decideNext JSON_stringify self "Task completed successfully." st0 w0)
    as [[res1 st1] w1] eqn:H1.
  apply decideNext_work in H1 as [Hi1 Hp1].
  destruct res1 as [turn1|decision]; [intros [= <- <-]; split; [lia | congruence]|].
  destruct (stepToExecute decision st1) as [[[i step]|] st2].
  2:{ destruct (decideNext JSON_stringify self "All planned steps completed successfully." st2 w1)
        as [[res3 st3] w3] eqn:H3.
      apply decideNext_work in H3 as [Hi3 Hp3].
      destruct res3 as [turn3|d3]; intros [= <- <-]; (split; [lia | congruence]). }
  destruct (executeStep JSON_stringify String_of self i step _ w1) as [[[v|e] st3] w3] eqn:Hexec;
    apply executeStep_work in Hexec as [Hi3 Hp3].
  2:{ intros [= <- <-]. split; [lia | congruence]. }
  destruct (forallb step_completed (steps st3)).
  2:{ intros [= <- <-]. split; [lia | congruence]. }
  destruct (decideNext JSON_stringify self "All steps completed successfully." st3 w3)
    as [[res4 st4] w4] eqn:H4.
  apply decideNext_work in H4 as [Hi4 Hp4].
  destruct res4 as [turn4|d4]; intros [= <- <-]; (split; [lia | congruence]).
Qed.

Lemma continueLoop_work self remaining :
  ∀ st w r w',
    continueLoop JSON_stringify String_of self remaining st w = (r, w') →
    toolInvocations w' ≤ toolInvocations w + remaining * maxRetries (agent self)
    ∧ plansAsked w' = plansAsked w.
Proof.
  induction remaining as [|remaining IH]; intros st w r w'; simpl.
  { intros [= <- <-]. split; [lia | done]. }
  destruct (continueIteration JSON_stringify String_of self st w) as [turn w1] eqn:Hturn.
  apply continueIteration_work in Hturn as [Hi Hp].
  destruct turn as [r0|st1|st1|e st1]; try (intros [= <- <-]; split; [lia | done]).
  intros Hloop. apply IH in Hloop as [Hi' Hp']. split; [lia | congruence].
Qed.

(** Extra X19. [continue] never asks for a plan, and it invokes tools at
    most [maxIterations * maxRetries] times: one step for each turn of its
    loop. *)
Theorem continue_work_is_bounded self st w (outcome : Outcome OrchestratorResult) w' :
  continue JSON_stringify String_of self st w = (outcome, w') →
  plansAsked w' = plansAsked w
  ∧ toolInvocations w'
    ≤ toolInvocations w + maxIterations self * maxRetries (agent self).
Proof.
  unfold continue.
  assert (∀ r w1, continueLoop JSON_stringify String_of self (maxIterations self) st w = (r, w1) →
            (Returned r, w1) = (outcome, w') →
            plansAsked w' = plansAsked w
            ∧ toolInvocations w'
              ≤ toolInvocations w + maxIterations self * maxRetries (agent self)) as Hrun.
  { intros r w1 Hloop [= <- <-]. by apply continueLoop_work in Hloop as [? ?]. }
  destruct (status st).
  - intros [= <- <-]. split; [done | lia].
  - destruct (continueLoop _ _ _ _ st w) as [r w1] eqn:Hloop. by apply Hrun.
  - destruct (continueLoop _ _ _ _ st w) as [r w1] eqn:Hloop. by apply Hrun.
  - intros [= <- <-]. split; [done | lia].
  - destruct (continueLoop _ _ _ _ st w) as [r w1] eqn:Hloop. by apply Hrun.
Qed.
End WorkFacts.
Section ContextFacts.
Context {W : Type}.
Variable JSON_stringify : JValue → Outcome string.
Variable String_of : JValue → string.

(** Extra X20. The context distilled for an agentic tool is built from
    the query, the description of the step and the steps it depends on,
    and from nothing else: two states with the same query that answer
    alike for every dependency of the step give the same context. The
    result of a step that is not a dependency never reaches the tool. *)
Theorem distilled_context_reads_only_dependencies (st st' : OrchestratorState)
    (step : ExecutionStep) :
  userQuery st = userQuery st' →
  (∀ d, d ∈ default [] (dependsOn step) → findStep (steps st) d = findStep (steps st') d) →
  distillContextForAgenticTool JSON_stringify String_of st step
  = distillContextForAgenticTool JSON_stringify String_of st' step.
Proof.
  intros Hq Hdeps. unfold distillContextForAgenticTool. rewrite Hq.
  assert (∀ f g : Z → list string, ∀ l : list Z,
            (∀ d, d ∈ l → f d = g d) → flat_map f l = flat_map g l) as Hext.
  { intros f g l. induction l as [|d l IH]; intros H; simpl; [done|].
    rewrite (H d) by (by left). rewrite IH; [done|]. intros d' Hd'. apply H. by right. }
  rewrite (Hext _ (fun depStepNum =>
             match findStep (steps st') depStepNum with
             | Some depStep =>
                 match step_result depStep with
                 | Some r =>
                     if step_completed depStep
                        && negb (match r with JUndefined => true | _ => false end)
                     then ["Step " +:+ pretty (stepNumber depStep) +:+ " ("
                           +:+ step_description depStep +:+ "):" +:+ "
" +:+ renderResult JSON_stringify String_of r]
                     else []
                 | None => []
                 end
             | None => []
             end) (default [] (dependsOn step))); [done|].
  intros d Hd. by rewrite (Hdeps d Hd).
Qed.
End ContextFacts.
Section TerminationBound.
Context {W : Type}.
Variable JSON_stringify : JValue → Outcome string.
Variable String_of : JValue → string.
Implicit Types (w : World W) (self : Orchestrator W) (st : OrchestratorState).

(** A turn of the loop of [execute] that goes on uses up one of the calls
    that are left. *)
Lemma executeIteration_calls self query sp count planResponse st w count' plan' st' w' :
  count ≤ maxPlanRegenerations →
  executeIteration JSON_stringify String_of self query sp count planResponse st w
  = (Continue count' plan' st', w') →
  count' ≤ maxPlanRegenerations
  ∧ 1 + callsLeft self count' st' ≤ callsLeft self count st.
Proof.
  intros Hcount Hturn.
  pose proof (executeIteration_progress _ _ _ _ _ _ _ _ _ _ _ _ _ Hturn) as Hprog.
  pose proof (executeIteration_steps _ _ _ _ _ _ _ _ _ _ _ _ _ Hturn)
    as (i & nextStep & Hi & Hc & Hmax & Hsteps).
  pose proof (pendingCount_pos _ _ _ Hi Hc) as Hpos.
  pose proof (pendingCount_le st') as Hle.
  unfold callsLeft. apply Nat.leb_gt in Hmax. rewrite Hmax. apply Nat.leb_gt in Hmax.
  destruct Hprog as [[-> Hless] | [-> Hlt]].
  - split; [done|]. set (later := (maxPlanRegenerations - count) * maxSteps self).
    destruct (Nat.leb (maxSteps self) (length (steps st'))); lia.
  - split; [lia|].
    replace (maxPlanRegenerations - count) with (S (maxPlanRegenerations - S count))
      by lia.
    change (S (maxPlanRegenerations - S count) * maxSteps self)
      with (maxSteps self + (maxPlanRegenerations - S count) * maxSteps self).
    set (later := (maxPlanRegenerations - S count) * maxSteps self).
    destruct (Nat.leb (maxSteps self) (length (steps st'))) eqn:Hmax'; [lia|].
    apply Nat.leb_gt in Hmax'. lia.
Qed.

Lemma executeLoop_enough self query sp fuel :
  ∀ count planResponse st w,
    count ≤ maxPlanRegenerations →
    callsLeft self count st < fuel →
    ∃ r w', executeLoop JSON_stringify String_of self fuel query sp count planResponse st w
            = Some (r, w').
Proof.
  induction fuel as [|fuel IH]; intros count planResponse st w Hcount Hfuel; [lia|].
  simpl. apply Nat.leb_le in Hcount as Hc. rewrite Hc.
  destruct (executeIteration JSON_stringify String_of self query sp count planResponse st w)
    as [[r0|count' plan' st'|e st'] w1] eqn:Hturn; [by eauto | | by eauto].
  apply executeIteration_calls in Hturn as [Hcount' Hcalls]; [|done].
  apply IH; [done | lia].
Qed.

(** Extra X15. [execute] always comes back: its loop makes at most
    [4 * maxSteps] turns, whatever the gateway and the tools do. In the
    model, that much fuel gives a result, and more fuel gives the same
    one. *)
Theorem execute_returns_within_bound self (fuel : nat) (query : string)
    (systemPrompt : option string) w :
  Nat.max 1 (4 * maxSteps self) ≤ fuel →
  ∃ r w',
    execute JSON_stringify String_of self fuel query systemPrompt w = Some (r, w')
    ∧ ∀ fuel', fuel ≤ fuel' →
        execute JSON_stringify String_of self fuel' query systemPrompt w = Some (r, w').
Proof.
  intros Hfuel.
  assert (∃ r w', execute JSON_stringify String_of self fuel query systemPrompt w = Some (r, w'))
    as (r & w' & Hrun).
  { unfold execute.
    destruct (generatePlan JSON_stringify self query systemPrompt None None _ w) as [[[p|e] st1] w1];
      [|by eauto].
    destruct (pl_isComplete p && _); [by eauto|].
    apply executeLoop_enough; [lia|]. unfold callsLeft.
    destruct (Nat.leb (maxSteps self) _) eqn:Hmax; [lia|]. apply Nat.leb_gt in Hmax.
    pose proof (pendingCount_le (set_steps (convertToExecutionSteps p) st1)) as Hle.
    unfold maxPlanRegenerations. lia. }
  exists r, w'. split; [done|].
  intros fuel' Hle. induction Hle as [|fuel' _ IH]; [done|].
  revert IH. unfold execute.
  destruct (generatePlan JSON_stringify self query systemPrompt None None _ w) as [[[p|e] st1] w1]; [|done].
  destruct (pl_isComplete p && _); [done|]. apply executeLoop_more_fuel.
Qed.
End TerminationBound.


Section ResumeFacts.
Context {W : Type}.
Variable JSON_stringify : JValue → Outcome string.
Variable String_of : JValue → string.
Implicit Types (w : World W) (self : Orchestrator W) (st : OrchestratorState).

Lemma execute_coherent self fuel query sp w r w' :
  execute JSON_stringify String_of self fuel query sp w = Some (r, w') → coherent r.
Proof.
  unfold execute.
  destruct (generatePlan JSON_stringify self query sp None None _ w) as [[[p|e] st1] w1] eqn:Hplan;
    apply generatePlan_steps in Hplan as Hs; simpl in Hs.
  2:{ intros [= <- <-]. apply coherent_executionFailed. }
  destruct (pl_isComplete p && _) eqn:Hdone.
  { intros [= <- <-]. apply andb_true_iff in Hdone as [_ Hlen]. simpl in Hlen.
    apply Nat.eqb_eq, nil_length_inv in Hlen.
    split; [simpl; by rewrite Hlen | left; done]. }
  intros Hloop. by apply executeLoop_keeps in Hloop as [Hco _].
Qed.

(** Extra X22. [continue] can always follow [execute]: on the state of
    a result of [execute] it never throws. After a success it does
    nothing and reports the same steps; after a failure it resumes, and
    its result again agrees with its state and keeps every completed
    step. *)
Theorem continue_follows_execute self (fuel : nat) (query : string)
    (systemPrompt : option string) w (r : OrchestratorResult) w' (w2 : World W) :
  execute JSON_stringify String_of self fuel query systemPrompt w = Some (r, w') →
  ∃ r2 w3,
    continue JSON_stringify String_of self (result_state r) w2 = (Returned r2, w3)
    ∧ coherent r2
    ∧ keeps (result_state r) (result_state r2)
    ∧ (success r = true →
       w3 = w2 ∧ result_state r2 = result_state r ∧ result_steps r2 = result_steps r).
Proof.
  intros Hrun. apply execute_coherent in Hrun as [Hsteps Hstatus].
  unfold continue.
  destruct Hstatus as [(Hok & Hst & _) | (Hko & Hst & _)]; rewrite Hst.
  - eexists _, _. split; [done|]. split; [by apply coherent_resultOf_ok|].
    split; [apply keeps_refl|]. intros _. simpl. by rewrite Hsteps.
  - destruct (continueLoop JSON_stringify String_of self (maxIterations self) (result_state r) w2)
      as [r2 w3] eqn:Hloop.
    apply continueLoop_keeps in Hloop as (Hco & Hk & _).
    exists r2, w3. split; [done|]. split; [done|]. split; [done|].
    intros Hok. by rewrite Hok in Hko.
Qed.
End ResumeFacts.


(** * The further properties on the sample inputs *)

Lemma sampleAgent_distinct_names gateway : NoDup (toolNames (sampleAgent gateway)).
Proof. apply (bool_decide_unpack _). reflexivity. Qed.

Lemma validation_decides_acceptance_witness :
  recordAccepted exampleRecord (normalizeToOpenAPISchema exampleParameters).
Proof.
  apply (validation_decides_acceptance exampleRecord exampleParameters).
  reflexivity.
Defined.

Lemma simplified_schema_fixes_the_keys_witness :
  isValid (validateAgainstSchema (<["a" := JNum 5]> (<["b" := JNum 3]> ∅)) addSchema) = true
  ∧ (∀ k, inObjectPrototype k = false →
          (is_Some ((<["a" := JNum 5]> (<["b" := JNum 3]> ∅) : JRecord) !! k)
           ↔ k ∈ ["a"; "b"])).
Proof.
  split; [reflexivity|].
  apply (simplified_schema_fixes_the_keys
           [("a", SEType "number"); ("b", SEType "number")] eq_refl
           (<["a" := JNum 5]> (<["b" := JNum 3]> ∅))).
  reflexivity.
Defined.

Lemma validated_data_is_stable_witness :
  ∃ cleaned,
    vr_data (validateAgainstSchema exampleRecord exampleParameters) = Some cleaned
    ∧ validateAgainstSchema cleaned exampleParameters
      = mkValidationResult true (Some cleaned) None.
Proof.
  apply (validated_data_is_stable exampleRecord exampleParameters).
  - exact exampleSchema_ordinaryKeys.
  - reflexivity.
Defined.

Lemma validated_data_drops_null_fields_witness :
  ∃ cleaned,
    vr_data (validateAgainstSchema (<["role" := JNull]> exampleRecord)
               exampleParameters) = Some cleaned
    ∧ cleaned !! "role" = None.
Proof.
  destruct (validated_data_drops_null_fields (<["role" := JNull]> exampleRecord)
              exampleParameters) as (cleaned & Hdata & Hkeys & _).
  - reflexivity.
  - exists cleaned. split; [exact Hdata|].
    destruct (cleaned !! "role") as [v|] eqn:Hrole; [|reflexivity].
    assert (is_Some (cleaned !! "role")) as Hsome by (rewrite Hrole; eauto).
    apply Hkeys in Hsome as (_ & _ & Hnull). discriminate Hnull.
Defined.

Lemma validation_reports_every_error_witness :
  isValid (validateAgainstSchema badRecord exampleParameters) = false
  ∧ ∃ errs, vr_errors (validateAgainstSchema badRecord exampleParameters) = Some errs
      ∧ "Missing required field: name" ∈ errs
      ∧ "Field 'age' must be an integer, got string" ∈ errs
      ∧ "Unexpected field: nickname" ∈ errs.
Proof.
  assert (isValid (validateAgainstSchema badRecord exampleParameters) = false) as H
    by (vm_compute; reflexivity).
  split; [exact H|].
  destruct (validation_reports_every_error badRecord exampleParameters H)
    as (errs & Herrs & _ & Hmissing & Hfield & Hextra & _).
  exists errs. split; [exact Herrs|]. split; [|split].
  - apply (Hmissing "name"); [set_solver | left; vm_compute; reflexivity].
  - apply (Hfield "age" (mkProperty "integer" None None None None None (Some 0%Z) (Some 150%Z) None None));
      [set_solver | vm_compute; reflexivity | vm_compute; reflexivity].
  - apply (Hextra "nickname"); [vm_compute; eauto | vm_compute; reflexivity].
Defined.

Lemma conforming_data_validates_witness :
  recordConforms exampleRecord (normalizeToOpenAPISchema exampleParameters)
  ∧ validateAgainstSchema exampleRecord exampleParameters
    = mkValidationResult true (Some exampleRecord) None.
Proof.
  split; [exact exampleRecord_conforms|].
  apply (conforming_data_validates exampleRecord exampleParameters).
  - exact exampleSchema_ordinaryKeys.
  - exact exampleRecord_conforms.
Defined.

Lemma addTool_registers_fresh_names_witness :
  ∃ self', Agent_addTool (sampleAgent offlineGateway) echoTool = Returned self'
           ∧ findTool (tools self') "echo" = Some echoTool
           ∧ findTool (tools self') "add" = Some addTool.
Proof.
  eexists. split; [reflexivity|].
  destruct (addTool_registers_fresh_names (sampleAgent offlineGateway) echoTool
              (sampleAgent_distinct_names offlineGateway)) as (_ & _ & _ & Hnew & Hold & _).
  split; [exact Hnew|]. by rewrite (Hold "add").
Defined.

Lemma removeTool_unregisters_the_name_witness :
  findTool (tools (snd (Agent_removeTool (sampleAgent offlineGateway) "search"))) "search"
  = None
  ∧ findTool (tools (snd (Agent_removeTool (sampleAgent offlineGateway) "search"))) "add"
    = Some addTool.
Proof.
  destruct (removeTool_unregisters_the_name (sampleAgent offlineGateway) "search"
              (sampleAgent_distinct_names offlineGateway)) as (_ & _ & _ & Hgone & Hold & _).
  split; [exact Hgone|]. etransitivity; [apply (Hold "add"); done | reflexivity].
Defined.


Lemma callTool_returns_the_last_result_witness :
  ∃ evs0 args x,
    trace (snd (callTool sampleStringify (sampleAgent offlineGateway) addCall false startWorld))
    = trace startWorld ++ evs0 ++ [EvExecute "add" args]
    ∧ fst (tool_execute addTool args x) = Returned (JNum 8).
Proof.
  destruct (callTool sampleStringify (sampleAgent offlineGateway) addCall false startWorld)
    as [r w'] eqn:E.
  assert (r = Returned (JNum 8)) as ->.
  { vm_compute in E. by injection E as <- _. }
  destruct (callTool_returns_the_last_result _ _ _ _ _ _ _ E)
    as (tool & evs0 & args & x & Hfind & Htr & Hx & _).
  injection Hfind as <-. exists evs0, args, x. split; [exact Htr|]. by rewrite Hx.
Defined.

Lemma tools_receive_validated_arguments_witness :
  ∃ evs,
    trace (snd (callTool sampleStringify (sampleAgent offlineGateway) addCall false startWorld))
    = trace startWorld ++ evs
    ∧ length (invocations evs) ≤ 2.
Proof.
  destruct (callTool sampleStringify (sampleAgent offlineGateway) addCall false startWorld)
    as [r w'] eqn:E.
  destruct (tools_receive_validated_arguments _ _ _ _ _ _ _ E) as (evs & Htr & Hlen & _).
  exists evs. split; [exact Htr | exact Hlen].
Defined.

Lemma invalid_call_is_rejected_untouched_witness :
  ∃ msg, callTool sampleStringify (sampleAgent offlineGateway) shortCall false startWorld
         = (Thrown (AgentError msg (Some "add") None), startWorld).
Proof.
  destruct (invalid_call_is_rejected_untouched sampleStringify (sampleAgent offlineGateway)
              shortCall startWorld) as [_ Hreject].
  apply Hreject.
  - reflexivity.
  - intros tool [= <-]. reflexivity.
Defined.


Lemma extraction_sends_one_request_witness :
  gatewayRequests
    (snd (generateStructuredDataForTool sampleStringify (sampleAgent scriptedGateway) searchTool "Find rocq"
            startWorld))
  = ["Extract parameters for search"].
Proof.
  destruct (generateStructuredDataForTool sampleStringify (sampleAgent scriptedGateway) searchTool
              "Find rocq" startWorld) as [r w'] eqn:E.
  destruct (extraction_sends_one_request sampleStringify (sampleAgent scriptedGateway)
              searchTool "Find rocq" (PlainError "Error" "") startWorld r w') as [Hgen _].
  destruct (Hgen E) as [Htr _]. unfold gatewayRequests. simpl. by rewrite Htr.
Defined.

Lemma gateway_requests_are_bounded_witness :
  ∃ evs,
    trace (snd (callTool sampleStringify (sampleAgent scriptedGateway)
                  (mkToolCall "search" None (Some "Find rocq")) false startWorld))
    = trace startWorld ++ evs
    ∧ length (requestsIn evs) ≤ 2.
Proof.
  destruct (callTool sampleStringify (sampleAgent scriptedGateway)
              (mkToolCall "search" None (Some "Find rocq")) false startWorld)
    as [r w'] eqn:E.
  destruct (gateway_requests_are_bounded _ _ _ _ _ _ _ E) as (evs & Htr & Hlen & _).
  exists evs. split; [exact Htr | exact Hlen].
Defined.

Lemma execute_result_is_coherent_witness :
  ∃ r w',
    execute sampleStringify sampleString sampleOrchestrator 20 "What is Rocq?" None startWorld = Some (r, w')
    ∧ coherent r
    ∧ userQuery (result_state r) = "What is Rocq?".
Proof.
  assert (∃ r w', execute sampleStringify sampleString sampleOrchestrator 20 "What is Rocq?" None startWorld
                  = Some (r, w')) as (r & w' & Hrun)
    by (vm_compute; eexists _, _; reflexivity).
  exists r, w'. split; [exact Hrun|].
  destruct (execute_result_is_coherent sampleStringify sampleString sampleOrchestrator 20 "What is Rocq?"
              None startWorld r w' Hrun) as (Hco & Hq & _).
  split; [exact Hco | exact Hq].
Defined.

Lemma continue_keeps_what_is_done_witness :
  ∃ r w',
    continue sampleStringify sampleString sampleOrchestrator runningState startWorld = (Returned r, w')
    ∧ coherent r
    ∧ keeps runningState (result_state r).
Proof.
  destruct (continue sampleStringify sampleString sampleOrchestrator runningState startWorld)
    as [outcome w'] eqn:Hrun.
  destruct (continue_keeps_what_is_done sampleStringify sampleString sampleOrchestrator runningState
              startWorld outcome w' Hrun)
    as [(Hidle & _) | (_ & r & -> & _ & Hco & Hk & _)].
  - discriminate Hidle.
  - exists r, w'. split; [reflexivity|]. split; [exact Hco | exact Hk].
Defined.

Lemma execute_work_is_bounded_witness :
  ∃ r w',
    execute sampleStringify sampleString sampleOrchestrator 20 "What is Rocq?" None startWorld = Some (r, w')
    ∧ plansAsked w' ≤ 4
    ∧ toolInvocations w' ≤ 78.
Proof.
  assert (∃ r w', execute sampleStringify sampleString sampleOrchestrator 20 "What is Rocq?" None startWorld
                  = Some (r, w')) as (r & w' & Hrun)
    by (vm_compute; eexists _, _; reflexivity).
  exists r, w'. split; [exact Hrun|].
  destruct (execute_work_is_bounded sampleStringify sampleString sampleOrchestrator 20 "What is Rocq?"
              None startWorld r w' Hrun) as (Hplans & Hcalls).
  split; [exact Hplans | exact Hcalls].
Defined.

Lemma continue_work_is_bounded_witness :
  plansAsked (snd (continue sampleStringify sampleString sampleOrchestrator runningState startWorld)) = 0
  ∧ toolInvocations (snd (continue sampleStringify sampleString sampleOrchestrator runningState startWorld))
    ≤ 10.
Proof.
  destruct (continue sampleStringify sampleString sampleOrchestrator runningState startWorld)
    as [outcome w'] eqn:Hrun.
  destruct (continue_work_is_bounded sampleStringify sampleString sampleOrchestrator runningState
              startWorld outcome w' Hrun) as (Hplans & Hcalls).
  split; [exact Hplans | exact Hcalls].
Defined.

Lemma distilled_context_reads_only_dependencies_witness :
  distillContextForAgenticTool sampleStringify sampleString runningState waitingStep
  = distillContextForAgenticTool sampleStringify sampleString longerState waitingStep.
Proof.
  apply (distilled_context_reads_only_dependencies sampleStringify sampleString runningState
           longerState
           waitingStep).
  - reflexivity.
  - intros d Hd. simpl in Hd. apply list_elem_of_singleton in Hd. subst d. reflexivity.
Defined.

Lemma execute_returns_within_bound_witness :
  ∃ r w', execute sampleStringify sampleString sampleOrchestrator 40 "What is Rocq?" None startWorld
          = Some (r, w').
Proof.
  destruct (execute_returns_within_bound sampleStringify sampleString sampleOrchestrator 40
              "What is Rocq?" None startWorld) as (r & w' & Hrun & _).
  - simpl. lia.
  - by exists r, w'.
Defined.

Lemma continue_follows_execute_witness :
  ∃ r r2 w3,
    fst <$> execute sampleStringify sampleString sampleOrchestrator 20 "What is Rocq?" None startWorld
    = Some r
    ∧ continue sampleStringify sampleString sampleOrchestrator (result_state r) startWorld
      = (Returned r2, w3)
    ∧ coherent r2.
Proof.
  assert (∃ r w', execute sampleStringify sampleString sampleOrchestrator 20 "What is Rocq?" None startWorld
                  = Some (r, w')) as (r & w' & Hrun)
    by (vm_compute; eexists _, _; reflexivity).
  destruct (continue_follows_execute sampleStringify sampleString sampleOrchestrator 20 "What is Rocq?"
              None startWorld r w' startWorld Hrun) as (r2 & w3 & Hcont & Hco & _).
  exists r, r2, w3. split; [by rewrite Hrun|]. split; [exact Hcont | exact Hco].
Defined.
